(** * Phantom image creator

    A model of [create_image.py]: two grayscale images are merged into one
    RGBA image that shows the first image over one background colour and the
    second image over another.

    - Python floats are IEEE-754 binary64 numbers; they are modelled with the
      standard library's [spec_float] at precision 53 and maximal exponent
      1024, so that every rounding of the interpreter is reproduced bit for
      bit.
    - Exceptions are the constructors of [exn], threaded through the error
      monad [result]; [print] and [sys.exit] live in the monad [prog], which
      carries the lines printed so far.
    - The image library (Pillow) is modelled at the level of pixels: an image
      is its size and its rows of pixels. Opening, resampling and saving a
      file, and the colour strings other than hexadecimal ones, are fields
      of a [world].

    The definitions come first, in the order of the source; the facts about
    floats, images and loops follow, and then the properties of the
    compositor, the canvas, the border, the loader and the program. The last
    part bounds the rounded doubles between integers, and from that the
    range of every pixel, the validity of the image that is saved, the
    prepared image for each mode of file, and the runs of the program. *)

From stdpp Require Import base numbers option list list_numbers strings.
From Stdlib Require Import ZArith Lia Ascii Floats.SpecFloat.

#[local] Open Scope Z_scope.

(** ** Exceptions and the error monad *)

Inductive exn : Type :=
  | ZeroDivisionError
  | OverflowError
  | ValueError
  | IndexError
  | FileNotFoundError
  | OtherError (msg : string)
  | SystemExit (code : Z).

(** [SystemExit] derives from [BaseException] only: [except Exception] does
    not catch it. *)
Definition is_Exception (e : exn) : bool :=
  match e with
  | SystemExit _ => false
  | _ => true
  end.

Inductive result (A : Type) : Type :=
  | Ok (a : A)
  | Raise (e : exn).
Arguments Ok {A} a.
Arguments Raise {A} e.

#[global] Instance result_ret : MRet result := λ A a, Ok a.
#[global] Instance result_bind : MBind result := λ A B f m,
  match m with
  | Ok a => f a
  | Raise e => Raise e
  end.

(** ** Python floats *)

Module Float.

Definition prec : Z := 53.
Definition emax : Z := 1024.

Definition add : spec_float → spec_float → spec_float := SFadd prec emax.
Definition sub : spec_float → spec_float → spec_float := SFsub prec emax.
Definition mul : spec_float → spec_float → spec_float := SFmul prec emax.
Definition div : spec_float → spec_float → spec_float := SFdiv prec emax.

(** The literals of the source, as the doubles the parser reads them to. *)
Definition f_0_0 : spec_float := S754_zero false.
Definition f_1_0 : spec_float := S754_finite false 4503599627370496 (-52).
Definition f_2_0 : spec_float := S754_finite false 4503599627370496 (-51).
Definition f_127_5 : spec_float := S754_finite false 8972014882652160 (-46).
Definition f_255_0 : spec_float := S754_finite false 8972014882652160 (-45).

Definition is_zero (x : spec_float) : bool :=
  match x with
  | S754_zero _ => true
  | _ => false
  end.

Definition is_finite (x : spec_float) : bool :=
  match x with
  | S754_zero _ | S754_finite _ _ _ => true
  | _ => false
  end.

(** [float(n)] and the implicit conversion of an [int] operand: the nearest
    double, ties to even; [OverflowError] when it is out of range. *)
Definition of_int (z : Z) : result spec_float :=
  match binary_normalize prec emax z 0 false with
  | S754_infinity _ => Raise OverflowError
  | x => Ok x
  end.

(** [x / y] on floats: a zero divisor raises. *)
Definition truediv (x y : spec_float) : result spec_float :=
  if is_zero y then Raise ZeroDivisionError else Ok (div x y).

(** [a / b] on ints whose operands are exactly representable: the quotient of
    the two conversions. *)
Definition int_truediv (a b : Z) : result spec_float :=
  if bool_decide (b = 0) then Raise ZeroDivisionError
  else fa ← of_int a; fb ← of_int b; truediv fa fb.

(** [x > 0] *)
Definition gt_0 (x : spec_float) : bool := SFltb f_0_0 x.

(** [x <= 0] *)
Definition le_0 (x : spec_float) : bool := SFleb x f_0_0.

(** The integer nearest to [a / b] for [0 < b], ties to the even one. *)
Definition rhe_div (a b : Z) : Z :=
  let q := a / b in
  let r := a mod b in
  match 2 * r ?= b with
  | Lt => q
  | Gt => q + 1
  | Eq => if Z.even q then q else q + 1
  end.

(** The integer nearest to a finite double, ties to even. *)
Definition round_half_even (x : spec_float) : Z :=
  match x with
  | S754_finite s m e =>
      let z := cond_Zopp s (Z.pos m) in
      if 0 <=? e then z * 2 ^ e else rhe_div z (2 ^ (- e))
  | _ => 0
  end.

(** [round(x)] with one argument: an [int], ties to even; it raises on
    infinities and NaN. *)
Definition py_round (x : spec_float) : result Z :=
  match x with
  | S754_nan => Raise ValueError
  | S754_infinity _ => Raise OverflowError
  | _ => Ok (round_half_even x)
  end.

(** Finite doubles whose exponent is at least [lo] and whose magnitude is
    below [2 ^ hi]. *)
Definition bnd (lo hi : Z) (x : spec_float) : Prop :=
  match x with
  | S754_zero _ => True
  | S754_finite _ m e => lo ≤ e ∧ Z.pos (digits2_pos m) + e ≤ hi
  | _ => False
  end.

(** The double of mantissa [p] and exponent [e], its mantissa brought to 53
    digits. *)
Definition normal (s : bool) (p : positive) (e : Z) : spec_float :=
  match 53 - Z.pos (digits2_pos p) with
  | Z.pos d => S754_finite s (Pos.iter xO p d) (e - Z.pos d)
  | _ => S754_finite s p e
  end.

(** The double that is exactly [z * 2 ^ e], for [|z| < 2 ^ 53]. *)
Definition dyadic (z e : Z) : spec_float :=
  match z with
  | 0 => S754_zero false
  | Z.pos p => normal false p e
  | Z.neg p => normal true p e
  end.

End Float.

(** ** Colours and the pixel compositor *)

(** An [(r, g, b)] tuple. *)
Definition color : Type := Z * Z * Z.

Definition in_byte (v : Z) : Prop := 0 ≤ v ≤ 255.

Definition valid_color (c : color) : Prop :=
  in_byte c.1.1 ∧ in_byte c.1.2 ∧ in_byte c.2.

Definition valid_colorb (c : color) : bool :=
  bool_decide (0 ≤ c.1.1 ≤ 255) && bool_decide (0 ≤ c.1.2 ≤ 255)
  && bool_decide (0 ≤ c.2 ≤ 255).

(** [c1 + (c2 - c1) * x] for ints [c1], [c2] and a float [x]. *)
Definition lerp_channel (c1 c2 : Z) (x : spec_float) : result spec_float :=
  d ← Float.of_int (c2 - c1);
  f1 ← Float.of_int c1;
  mret (Float.add f1 (Float.mul d x)).

(** [interpolate(x, bc1, bc2)], lines 17-27. *)
Definition interpolate (x : spec_float) (bc1 bc2 : color) : result color :=
  r ← lerp_channel bc1.1.1 bc2.1.1 x;
  g ← lerp_channel bc1.1.2 bc2.1.2 x;
  b ← lerp_channel bc1.2 bc2.2 x;
  r' ← Float.py_round r;
  g' ← Float.py_round g;
  b' ← Float.py_round b;
  mret (r', g', b').

(** An [(r, g, b, a)] tuple. *)
Definition rgba : Type := Z * Z * Z * Z.

Definition alpha_of (p : rgba) : Z := p.2.
Definition rgb_of (p : rgba) : color := p.1.

(** The alpha before rounding, [a], and the fraction [b] of lines 131-139. *)
Definition alpha_and_fraction (r_val g_val : Z) : result (spec_float * spec_float) :=
  fr ← Float.of_int r_val;
  b1 ← Float.truediv fr Float.f_2_0;
  fg ← Float.of_int g_val;
  h ← Float.truediv fg Float.f_2_0;
  let b2 := Float.add h Float.f_127_5 in
  let a := Float.add (Float.sub Float.f_255_0 b2) b1 in
  b ← (if Float.gt_0 a then Float.truediv b1 a else mret Float.f_0_0);
  mret (a, b).

(** The body of the pixel scan, lines 131-149. *)
Definition composite_pixel (r_val g_val : Z) (bc1 bc2 : color) : result rgba :=
  '(a, b) ← alpha_and_fraction r_val g_val;
  rgb_tuple ← interpolate b bc1 bc2;
  final_alpha ← Float.py_round a;
  let final_alpha := Z.max 0 (Z.min 255 final_alpha) in
  mret (rgb_tuple.1.1, rgb_tuple.1.2, rgb_tuple.2, final_alpha).

(** The fraction the scan computes from two 8-bit intensities, in closed
    form: [r_val / (255 - g_val + r_val)] rounded to the nearest double, or
    zero when the alpha is zero. *)
Definition fraction (r_val g_val : Z) : spec_float :=
  if bool_decide (0 < 255 - g_val + r_val)
  then Float.div (Float.dyadic r_val (-1))
         (Float.dyadic (255 - g_val + r_val) (-1))
  else Float.f_0_0.

(** ** The per-pixel algorithm as the specification words it *)

Module Spec.

Definition clamp (v lo hi : Z) : Z := Z.max lo (Z.min hi v).

Definition float (z : Z) : spec_float :=
  binary_normalize Float.prec Float.emax z 0 false.

(** [round(c1 + (c2 - c1) * t)], one channel. *)
Definition lerp (c1 c2 : Z) (t : spec_float) : Z :=
  Float.round_half_even (Float.add (float c1) (Float.mul (float (c2 - c1)) t)).

Definition pixel (r_val g_val : Z) (bc1 bc2 : color) : rgba :=
  let b1 := Float.div (float r_val) Float.f_2_0 in
  let b2 := Float.add (Float.div (float g_val) Float.f_2_0) Float.f_127_5 in
  let a := Float.add (Float.sub Float.f_255_0 b2) b1 in
  let t := if Float.le_0 a then Float.f_0_0 else Float.div b1 a in
  let alpha := clamp (Float.round_half_even a) 0 255 in
  (lerp bc1.1.1 bc2.1.1 t, lerp bc1.1.2 bc2.1.2 t, lerp bc1.2 bc2.2 t, alpha).

(** The centring offset on one axis: [round((canvasDim - imgDim) / 2)], ties
    to even. *)
Definition center_offset (canvasDim imgDim : Z) : Z :=
  Float.rhe_div (canvasDim - imgDim) 2.

End Spec.

(** ** Images

    A Pillow image is its size and its rows of pixels; [rows im !! y !! x] is
    the pixel at column [x] of line [y]. *)

Record image (A : Type) : Type := Image {
  width : Z;
  height : Z;
  rows : list (list A);
}.
Arguments Image {A} width height rows.
Arguments width {A} i.
Arguments height {A} i.
Arguments rows {A} i.

Definition in_bounds {A} (im : image A) (x y : Z) : Prop :=
  (0 ≤ x < width im) ∧ (0 ≤ y < height im).

Definition in_boundsb {A} (im : image A) (x y : Z) : bool :=
  bool_decide (0 ≤ x < width im) && bool_decide (0 ≤ y < height im).

(** The rows agree with the size. *)
Definition wf_image {A} (im : image A) : bool :=
  bool_decide (0 ≤ width im) && bool_decide (0 ≤ height im)
  && bool_decide (length (rows im) = Z.to_nat (height im))
  && forallb (λ row, bool_decide (length row = Z.to_nat (width im))) (rows im).

(** Pillow keeps the two sizes in C ints. *)
Definition size_limit : Z := 2 ^ 31.

Definition all_pixels {A} (P : A → bool) (im : image A) : bool :=
  forallb (forallb P) (rows im).

Definition byteb (v : Z) : bool := bool_decide (0 ≤ v ≤ 255).

(** An image of mode ["L"]: 8-bit intensities. *)
Definition valid_gray (im : image Z) : bool :=
  wf_image im && all_pixels byteb im
  && bool_decide (width im < size_limit) && bool_decide (height im < size_limit).

(** [Image.new(mode, (w, h), fill)] *)
Definition Image_new {A} (w h : Z) (fill : A) : image A :=
  Image w h (replicate (Z.to_nat h) (replicate (Z.to_nat w) fill)).

(** Reading [pixels[x, y]] of a loaded image; out of the image is an
    [IndexError]. *)
Definition getpixel {A} (im : image A) (x y : Z) : option A :=
  if in_boundsb im x y
  then row ← rows im !! Z.to_nat y; row !! Z.to_nat x
  else None.

Definition getitem {A} (im : image A) (x y : Z) : result A :=
  match getpixel im x y with
  | Some v => Ok v
  | None => Raise IndexError
  end.

(** Writing [pixels[x, y] = v]. *)
Definition setitem {A} (im : image A) (x y : Z) (v : A) : result (image A) :=
  if in_boundsb im x y
  then Ok (Image (width im) (height im)
             (alter (λ row, <[Z.to_nat x := v]> row) (Z.to_nat y) (rows im)))
  else Raise IndexError.

(** Every pixel rewritten from its coordinates and its old value. *)
Definition image_imap {A} (f : Z → Z → A → A) (im : image A) : image A :=
  Image (width im) (height im)
    (imap (λ y row, imap (λ x old, f (Z.of_nat x) (Z.of_nat y) old) row) (rows im)).

Definition image_map {A B} (f : A → B) (im : image A) : image B :=
  Image (width im) (height im) ((λ row : list A, f <$> row) <$> rows im).

(** [dst.paste(src, (ox, oy))] without a mask, for two images of one mode:
    the pixels of [dst] under [src] are replaced, the others are kept. *)
Definition paste {A} (dst src : image A) (offset : Z * Z) : image A :=
  image_imap (λ x y old,
    default old (getpixel src (x - offset.1) (y - offset.2))) dst.

(** [Image.merge('RGB', (r, g, b))]: the bands must have one size. *)
Definition Image_merge (r g b : image Z) : result (image color) :=
  if bool_decide (width r = width g ∧ width g = width b
                  ∧ height r = height g ∧ height g = height b)
  then Ok (Image (width r) (height r)
             (zip_with (λ rg brow, zip_with (λ p bv, (p.1, p.2, bv)) rg brow)
                (zip_with zip (rows r) (rows g)) (rows b)))
  else Raise ValueError.

(** A [for] loop over a range, threading the loop state; an exception ends
    it. *)
Fixpoint for_range {S : Type} (body : Z → S → result S) (range : list Z) (s : S)
    : result S :=
  match range with
  | [] => Ok s
  | i :: rest => s' ← body i s; for_range body rest s'
  end.

(** ** The loader, lines 29-63 *)

(** A decoded source file, by Pillow mode: ["1"], ["L"], ["LA"], ["P"] with
    its palette, ["RGB"] and ["RGBA"]. *)
Inductive source_image : Type :=
  | Mode1 (im : image bool)
  | ModeL (im : image Z)
  | ModeLA (im : image (Z * Z))
  | ModeP (palette : list color) (im : image Z)
  | ModeRGB (im : image color)
  | ModeRGBA (im : image rgba).

Definition has_alpha (src : source_image) : bool :=
  match src with
  | ModeLA _ | ModeRGBA _ => true
  | _ => false
  end.

Definition gray (v : Z) : color := (v, v, v).

Definition bit (b : bool) : Z := if b then 255 else 0.

(** The colours of the source, as [paste] reads them into an ["RGB"]
    image. *)
Definition to_rgb (src : source_image) : image color :=
  match src with
  | Mode1 im => image_map (λ b, gray (bit b)) im
  | ModeL im => image_map gray im
  | ModeLA im => image_map (λ p, gray p.1) im
  | ModeP palette im =>
      image_map (λ i, default (0, 0, 0) (palette !! Z.to_nat i)) im
  | ModeRGB im => im
  | ModeRGBA im => image_map rgb_of im
  end.

(** How the paste reads its mask: mode ["1"] copies where the mask is set,
    modes ["L"], ["LA"] and ["RGBA"] blend by the mask's (last) band. *)
Inductive mask : Type :=
  | Mask1 (m : image bool)
  | MaskL (m : image Z).

(** Pillow refuses any other mode with [ValueError("bad transparency
    mask")]. *)
Definition mask_of (src : source_image) : result mask :=
  match src with
  | Mode1 im => Ok (Mask1 im)
  | ModeL im => Ok (MaskL im)
  | ModeLA im => Ok (MaskL (image_map snd im))
  | ModeRGBA im => Ok (MaskL (image_map alpha_of im))
  | ModeP _ _ | ModeRGB _ => Raise ValueError
  end.

(** Pillow's [BLEND]: [(out * (255 - m) + src * m) / 255], rounded. *)
Definition blend (m out src : Z) : Z :=
  let tmp := out * (255 - m) + src * m + 128 in
  Z.shiftr (Z.shiftr tmp 8 + tmp) 8.

Definition blend_color (m : Z) (out src : color) : color :=
  (blend m out.1.1 src.1.1, blend m out.1.2 src.1.2, blend m out.2 src.2).

(** [dst.paste(src, (0, 0), mask)] *)
Definition paste_masked (dst src : image color) (m : mask) : image color :=
  match m with
  | Mask1 bits =>
      image_imap (λ x y old,
        match getpixel src x y, getpixel bits x y with
        | Some s, Some true => s
        | _, _ => old
        end) dst
  | MaskL alpha =>
      image_imap (λ x y old,
        match getpixel src x y, getpixel alpha x y with
        | Some s, Some a => blend_color a old s
        | _, _ => old
        end) dst
  end.

Definition white : color := (255, 255, 255).

(** Lines 45-53: the image pasted over a white background, with itself as
    the mask, or directly when Pillow refuses the mask. *)
Definition flatten_onto_white (img : source_image) : image color :=
  let size := (width (to_rgb img), height (to_rgb img)) in
  let bg := Image_new size.1 size.2 white in
  match mask_of img with
  | Ok m => paste_masked bg (to_rgb img) m
  | Raise _ => paste bg (to_rgb img) (0, 0)
  end.

(** [convert('L')]: the ITU-R 601-2 luma, in Pillow's fixed point. *)
Definition luma (c : color) : Z :=
  Z.shiftr (c.1.1 * 19595 + c.1.2 * 38470 + c.2 * 7471 + 32768) 16.

Definition convert_L (im : image color) : image Z := image_map luma im.

(** ** Output, the collaborators and the program monad *)

(** One constructor per [print] of the source, with the values it formats. *)
Inductive line : Type :=
  | MsgInvalidColor (hex_str : string)
  | MsgNotFound (image_path : string)
  | MsgOpenError (image_path : string) (e : exn)
  | MsgStart
  | MsgLoading1 (image_path : string)
  | MsgLoading2 (image_path : string)
  | MsgBackground1 (bc1 : color)
  | MsgBackground2 (bc2 : color)
  | MsgCanvas (result_width result_height : Z)
  | MsgMerging
  | MsgScan
  | MsgComplete
  | MsgBorder
  | MsgSaving
  | MsgSuccess (output : string)
  | MsgSaveError (e : exn).

(** What the program asks of the file system and of the image library:
    opening and decoding a file, the Lanczos thumbnail of a grayscale image,
    the colour strings that are not [#RGB] or [#RRGGBB], and encoding to a
    file. Each may raise. *)
Record world : Type := World {
  Image_open : string → result source_image;
  Image_thumbnail : Z → image Z → result (image Z);
  getrgb_other : string → option color;
  Image_save : image rgba → string → result unit;
}.

(** A computation that prints and may raise: the lines printed so far go in,
    the outcome and the lines printed come out. *)
Definition prog (A : Type) : Type := list line → result A * list line.

#[global] Instance prog_ret : MRet prog := λ A a out, (Ok a, out).
#[global] Instance prog_bind : MBind prog := λ A B f m out,
  match m out with
  | (Ok a, out') => f a out'
  | (Raise e, out') => (Raise e, out')
  end.

Definition print (l : line) : prog unit := λ out, (Ok (), out ++ [l]).

Definition lift {A} (r : result A) : prog A := λ out, (r, out).

Definition sys_exit {A} (code : Z) : prog A := lift (Raise (SystemExit code)).

(** [try: body except Exception as e: handler(e)] *)
Definition try_except {A} (body : prog A) (handler : exn → prog A) : prog A :=
  λ out,
    match body out with
    | (Raise e, out') =>
        if is_Exception e then handler e out' else (Raise e, out')
    | r => r
    end.

(** The exit status of the interpreter. *)
Definition exit_code {A} (r : result A) : Z :=
  match r with
  | Ok _ => 0
  | Raise (SystemExit code) => code
  | Raise _ => 1
  end.

(** ** Colour strings, lines 5-15 *)

Definition hex_digit (c : ascii) : option Z :=
  let n := Z.of_N (N_of_ascii c) in
  if bool_decide (48 ≤ n ≤ 57) then Some (n - 48)
  else if bool_decide (97 ≤ n ≤ 102) then Some (n - 87)
  else if bool_decide (65 ≤ n ≤ 70) then Some (n - 55)
  else None.

(** [ImageColor.getrgb]: the string is lower-cased, then [#rgb] doubles each
    digit and [#rrggbb] reads three bytes; every other string is the
    library's business. [None] stands for its [ValueError]. *)
Definition ImageColor_getrgb (w : world) (s : string) : option color :=
  match s with
  | String "#"%char (String a (String b (String c EmptyString))) =>
      match hex_digit a, hex_digit b, hex_digit c with
      | Some a, Some b, Some c => Some (17 * a, 17 * b, 17 * c)
      | _, _, _ => getrgb_other w s
      end
  | String "#"%char (String a (String b (String c (String d (String e
      (String f EmptyString)))))) =>
      match hex_digit a, hex_digit b, hex_digit c,
            hex_digit d, hex_digit e, hex_digit f with
      | Some a, Some b, Some c, Some d, Some e, Some f =>
          Some (16 * a + b, 16 * c + d, 16 * e + f)
      | _, _, _, _, _, _ => getrgb_other w s
      end
  | _ => getrgb_other w s
  end.

Definition hex_to_rgb (w : world) (hex_str : string) : prog color :=
  match ImageColor_getrgb w hex_str with
  | Some c => mret c
  | None => print (MsgInvalidColor hex_str);; sys_exit 1
  end.

(** ** Loading, lines 29-63 *)

(** [Image_open] stands for opening and decoding together: an image that is
    opened is an image whose pixels can be read. A file that opens and then
    fails to decode (Pillow decodes at the first use, line 48) is not among
    the worlds described here. *)
Definition load_and_prepare_image (w : world) (image_path : string) (size : Z)
    : prog (image Z) :=
  img ← match Image_open w image_path with
        | Ok img => mret img
        | Raise FileNotFoundError => print (MsgNotFound image_path);; sys_exit 1
        | Raise e =>
            if is_Exception e
            then print (MsgOpenError image_path e);; sys_exit 1
            else lift (Raise e)
        end;
  let bg := flatten_onto_white img in
  let img := convert_L bg in
  lift (Image_thumbnail w size img).

(** ** The canvas, lines 84-98 *)

(** [(int(round((W - img.width) / 2)), int(round((H - img.height) / 2)))] *)
Definition center_offset (result_width result_height : Z) (img : image Z)
    : result (Z * Z) :=
  qx ← Float.int_truediv (result_width - width img) 2;
  ox ← Float.py_round qx;
  qy ← Float.int_truediv (result_height - height img) 2;
  oy ← Float.py_round qy;
  mret (ox, oy).

Definition canvas_layers (img1 img2 : image Z) : result (image Z * image Z) :=
  let result_width := Z.max (width img1) (width img2) in
  let result_height := Z.max (height img1) (height img2) in
  let base1 := Image_new result_width result_height 0 in
  let base2 := Image_new result_width result_height 255 in
  offset1 ← center_offset result_width result_height img1;
  offset2 ← center_offset result_width result_height img2;
  mret (paste base1 img1 offset1, paste base2 img2 offset2).

(** ** The pixel scan, lines 124-150 *)

Definition pixel_scan (merged_pixels : image color) (bc1 bc2 : color)
    (result_width result_height : Z) (result_pixels : image rgba)
    : result (image rgba) :=
  for_range (λ y result_pixels,
    for_range (λ x result_pixels,
      '(r_val, g_val, _) ← getitem merged_pixels x y;
      px ← composite_pixel r_val g_val bc1 bc2;
      setitem result_pixels x y px)
      (seqZ 0 result_width) result_pixels)
    (seqZ 0 result_height) result_pixels.

(** Lines 108-150 without their prints: the two layers merged into the red
    and green bands, then scanned into a new RGBA image. Loading the pixel
    access objects of two images held in memory (lines 115-120) cannot
    fail. *)
Definition composite_layers (base1 base2 : image Z) (bc1 bc2 : color)
    : result (image rgba) :=
  let result_width := width base1 in
  let result_height := height base1 in
  let blue_channel := Image_new result_width result_height 0 in
  merged_rg ← Image_merge base1 base2 blue_channel;
  let result_image := Image_new result_width result_height (0, 0, 0, 0) in
  pixel_scan merged_rg bc1 bc2 result_width result_height result_image.

(** What the scan leaves at [(x, y)]: the pixel composed from the red and
    green bands at the same place. *)
Definition scanned_pixel (merged_pixels : image color) (bc1 bc2 : color)
    (x y : Z) : option rgba :=
  match getpixel merged_pixels x y with
  | Some (r_val, g_val, _) =>
      match composite_pixel r_val g_val bc1 bc2 with
      | Ok px => Some px
      | Raise _ => None
      end
  | None => None
  end.

(** ** The border, lines 154-163 *)

Definition add_border (result_image : image rgba) : image rgba :=
  let new_width := width result_image + 2 in
  let new_height := height result_image + 2 in
  let bordered_image := Image_new new_width new_height (0, 0, 0, 0) in
  paste bordered_image result_image (1, 1).

(** ** The program, lines 65-222 *)

Record arguments : Type := Arguments {
  image1 : string;
  image2 : string;
  output : string;
  color1 : string;
  color2 : string;
  size : Z;
}.

Definition composite_images (w : world) (args : arguments) : prog unit :=
  print MsgStart;;
  print (MsgLoading1 (image1 args));;
  img1 ← load_and_prepare_image w (image1 args) (size args);
  print (MsgLoading2 (image2 args));;
  img2 ← load_and_prepare_image w (image2 args) (size args);
  bc1 ← hex_to_rgb w (color1 args);
  bc2 ← hex_to_rgb w (color2 args);
  print (MsgBackground1 bc1);;
  print (MsgBackground2 bc2);;
  let result_width := Z.max (width img1) (width img2) in
  let result_height := Z.max (height img1) (height img2) in
  print (MsgCanvas result_width result_height);;
  '(base1, base2) ← lift (canvas_layers img1 img2);
  print MsgMerging;;
  let blue_channel := Image_new result_width result_height 0 in
  merged_rg ← lift (Image_merge base1 base2 blue_channel);
  let result_image := Image_new result_width result_height (0, 0, 0, 0) in
  print MsgScan;;
  result_image ← lift (pixel_scan merged_rg bc1 bc2 result_width result_height
                         result_image);
  print MsgComplete;;
  print MsgBorder;;
  let bordered_image := add_border result_image in
  print MsgSaving;;
  try_except
    (lift (Image_save w bordered_image (output args));;
     print (MsgSuccess (output args)))
    (λ e, print (MsgSaveError e)).

Definition main (w : world) (args : arguments) : prog unit :=
  composite_images w args.

(** One run of the program: how it ended and what it printed. *)
Definition run (w : world) (args : arguments) : result unit * list line :=
  main w args [].

(** Lines 165-172: the save of the bordered image, and its handler. *)
Definition save_step (w : world) (bordered_image : image rgba) (output : string)
    : prog unit :=
  try_except
    (lift (Image_save w bordered_image output);;
     print (MsgSuccess output))
    (λ e, print (MsgSaveError e)).

(** An [(r, g, b, a)] tuple of the mode ["RGBA"]: four 8-bit values. *)
Definition valid_rgbab (p : rgba) : bool := valid_colorb p.1 && byteb p.2.

(** What the decoder hands over: an image whose rows agree with its size,
    whose sizes fit a C int and whose pixels satisfy [P]. *)
Definition valid_image {A} (P : A → bool) (im : image A) : bool :=
  wf_image im && all_pixels P im
  && bool_decide (width im < size_limit) && bool_decide (height im < size_limit).

(** A decoded file whose bands, and whose palette, hold 8-bit values. *)
Definition valid_source (src : source_image) : bool :=
  match src with
  | Mode1 im => valid_image (λ _, true) im
  | ModeL im => valid_image byteb im
  | ModeLA im => valid_image (λ p, byteb p.1 && byteb p.2) im
  | ModeP palette im => valid_image byteb im && forallb valid_colorb palette
  | ModeRGB im => valid_image valid_colorb im
  | ModeRGBA im => valid_image valid_rgbab im
  end.

(** The diagnostic of lines 36-41 for an exception of [Image.open]. *)
Definition open_error_line (image_path : string) (e : exn) : line :=
  match e with
  | FileNotFoundError => MsgNotFound image_path
  | _ => MsgOpenError image_path e
  end.

(** ** Doubles between two integers *)

(** [between A B x]: the double [x] is finite, its value is at least the
    integer [A] and at most the integer [B], and it is a multiple of a power
    of two no greater than one. *)
Definition between (A B : Z) (x : spec_float) : Prop :=
  match x with
  | S754_zero _ => A ≤ 0 ≤ B
  | S754_finite s m e =>
      e ≤ 0 ∧ A * 2 ^ (- e) ≤ cond_Zopp s (Z.pos m) ≤ B * 2 ^ (- e)
  | _ => False
  end.

(** ** Sample inputs *)

(** A directory with a 1x1 grayscale file and a 2x1 colour file; only PNG
    files can be written. *)
Definition sample_world : world := {|
  Image_open path :=
    if String.eqb path "a.png" then Ok (ModeL (Image 1 1 [[0]]))
    else if String.eqb path "b.png"
    then Ok (ModeRGB (Image 2 1 [[(10, 20, 30); (255, 255, 255)]]))
    else Raise FileNotFoundError;
  Image_thumbnail _ im := Ok im;
  getrgb_other _ := None;
  Image_save _ path :=
    if String.eqb path "out.png" then Ok ()
    else Raise (OtherError "unknown file extension");
|}.

(** The same directory at another time: one more file, and a named colour
    the library knows. *)
Definition sample_world_2 : world := {|
  Image_open path :=
    if String.eqb path "c.png" then Ok (ModeL (Image 1 1 [[9]]))
    else Image_open sample_world path;
  Image_thumbnail := Image_thumbnail sample_world;
  getrgb_other s := if String.eqb s "red" then Some (255, 0, 0) else None;
  Image_save := Image_save sample_world;
|}.

Definition sample_arguments (image1 output color1 : string) : arguments :=
  Arguments image1 "b.png" output color1 "#FFFFFF" 320.

(** * Facts about binary64 arithmetic

    Two families of results on the operations of [SpecFloat] at precision 53:
    - _no overflow_: the predicate [bnd lo hi] (a zero, or a finite double of
      exponent at least [lo] and magnitude below [2 ^ hi]) is carried through
      rounding, addition, subtraction, multiplication and division, so that
      the results the scan rounds are finite;
    - _exactness_: on the doubles [dyadic z e], which are exactly
      [z * 2 ^ e], conversion from an integer, addition, subtraction,
      multiplication by one, division by two and rounding to an integer are
      the operations of [Z]. *)

Module FloatFacts.
Import Float.

(** The float operations are stated over the integers of the core library;
    [fold_Z] names them as the lemmas of [Z] do. *)
Ltac fold_Z :=
  change IntDef.Z.add with Z.add in *;
  change IntDef.Z.sub with Z.sub in *;
  change IntDef.Z.mul with Z.mul in *;
  change IntDef.Z.opp with Z.opp in *;
  change IntDef.Z.min with Z.min in *;
  change IntDef.Z.max with Z.max in *;
  change IntDef.Z.leb with Z.leb in *;
  change IntDef.Z.eqb with Z.eqb in *;
  change IntDef.Z.compare with Z.compare in *;
  change IntDef.Z.even with Z.even in *;
  change IntDef.Z.shiftl with Z.shiftl in *;
  change IntDef.Z.div_eucl with Z.div_eucl in *;
  change PosDef.Pos.mul with Pos.mul in *;
  change @PosDef.Pos.iter with @Pos.iter in *.

(** ** Binary digits *)

Lemma digits2_pos_size p : digits2_pos p = Pos.size p.
Proof. induction p; simpl; congruence. Qed.

Lemma Zdigits2_nonneg m : 0 ≤ Zdigits2 m.
Proof. destruct m; simpl; lia. Qed.

Lemma Zdigits2_lt m : 0 ≤ m → m < 2 ^ Zdigits2 m.
Proof.
  destruct m as [|p|p]; simpl; [lia| |lia]. intros _.
  rewrite digits2_pos_size. pose proof (Pos.size_gt p) as H.
  rewrite <- Pos2Z.inj_pow. lia.
Qed.

Lemma Zdigits2_ge m : 0 < m → 2 ^ (Zdigits2 m - 1) ≤ m.
Proof.
  destruct m as [|p|p]; simpl; [lia| |lia]. intros _.
  rewrite digits2_pos_size. pose proof (Pos.size_le p) as H.
  assert (2 ^ Z.pos (Pos.size p) ≤ 2 * Z.pos p) as H2.
  { rewrite <- Pos2Z.inj_pow. lia. }
  replace (Z.pos (Pos.size p)) with (Z.succ (Z.pos (Pos.size p) - 1)) in H2 by lia.
  rewrite Z.pow_succ_r in H2 by lia. lia.
Qed.

Lemma Zdigits2_le_of_lt m k : 0 ≤ k → 0 ≤ m < 2 ^ k → Zdigits2 m ≤ k.
Proof.
  intros Hk [H0 Hm]. destruct (Z.eq_dec m 0) as [->|Hne]; [simpl; lia|].
  pose proof (Zdigits2_ge m ltac:(lia)) as Hge.
  destruct (Z.le_gt_cases (Zdigits2 m) k) as [|Hgt]; [done|].
  assert (2 ^ k ≤ 2 ^ (Zdigits2 m - 1)) by (apply Z.pow_le_mono_r; lia). lia.
Qed.

Lemma Zdigits2_mono m n : 0 ≤ m ≤ n → Zdigits2 m ≤ Zdigits2 n.
Proof.
  intros [H0 H1]. apply Zdigits2_le_of_lt; [apply Zdigits2_nonneg|].
  split; [done|]. pose proof (Zdigits2_lt n ltac:(lia)). lia.
Qed.

Lemma Zdigits2_succ m : 0 ≤ m → Zdigits2 (m + 1) ≤ Zdigits2 m + 1.
Proof.
  intros H0. apply Zdigits2_le_of_lt; [pose proof (Zdigits2_nonneg m); lia|].
  split; [lia|]. pose proof (Zdigits2_lt m H0).
  rewrite Z.pow_add_r by (pose proof (Zdigits2_nonneg m); lia). lia.
Qed.

Lemma Zdigits2_mul m n : 0 ≤ m → 0 ≤ n → Zdigits2 (m * n) ≤ Zdigits2 m + Zdigits2 n.
Proof.
  intros Hm Hn. pose proof (Zdigits2_nonneg m). pose proof (Zdigits2_nonneg n).
  apply Zdigits2_le_of_lt; [lia|]. split; [lia|].
  rewrite Z.pow_add_r by lia.
  pose proof (Zdigits2_lt m Hm). pose proof (Zdigits2_lt n Hn). nia.
Qed.

Lemma Zdigits2_add m n : 0 ≤ m → 0 ≤ n →
  Zdigits2 (m + n) ≤ Z.max (Zdigits2 m) (Zdigits2 n) + 1.
Proof.
  intros Hm Hn. pose proof (Zdigits2_nonneg m). pose proof (Zdigits2_nonneg n).
  apply Zdigits2_le_of_lt; [lia|]. split; [lia|].
  rewrite Z.pow_add_r by lia.
  pose proof (Zdigits2_lt m Hm). pose proof (Zdigits2_lt n Hn).
  assert (2 ^ Zdigits2 m ≤ 2 ^ Z.max (Zdigits2 m) (Zdigits2 n)) by (apply Z.pow_le_mono_r; lia).
  assert (2 ^ Zdigits2 n ≤ 2 ^ Z.max (Zdigits2 m) (Zdigits2 n)) by (apply Z.pow_le_mono_r; lia).
  lia.
Qed.

(** ** Shifts and rounding on magnitudes *)

Lemma shr_1_digits r :
  0 ≤ shr_m r →
  0 ≤ shr_m (shr_1 r) ∧ Zdigits2 (shr_m (shr_1 r)) = Z.max 0 (Zdigits2 (shr_m r) - 1).
Proof.
  destruct r as [m rb sb]; simpl. destruct m as [|[p|p|]|p]; simpl; try lia.
Qed.

Lemma iter_shr_1_digits n : ∀ r,
  0 ≤ shr_m r →
  0 ≤ shr_m (iter_pos shr_1 n r) ∧
  Zdigits2 (shr_m (iter_pos shr_1 n r)) = Z.max 0 (Zdigits2 (shr_m r) - Z.pos n).
Proof.
  induction n as [n IH|n IH|]; intros r Hr; simpl.
  - destruct (shr_1_digits r Hr) as [H1 E1].
    destruct (IH _ H1) as [H2 E2]. destruct (IH _ H2) as [H3 E3].
    split; [done|]. rewrite E3, E2, E1. lia.
  - destruct (IH _ Hr) as [H2 E2]. destruct (IH _ H2) as [H3 E3].
    split; [done|]. rewrite E3, E2. lia.
  - destruct (shr_1_digits r Hr) as [H1 E1]. split; [done|]. rewrite E1. lia.
Qed.

Lemma shr_digits r e n :
  0 ≤ shr_m r →
  0 ≤ shr_m (shr r e n).1 ∧ (shr r e n).2 = e + Z.max 0 n ∧
  Zdigits2 (shr_m (shr r e n).1) = Z.max 0 (Zdigits2 (shr_m r) - Z.max 0 n).
Proof.
  intros Hr. pose proof (Zdigits2_nonneg (shr_m r)).
  destruct n as [|n|n]; simpl; [split_and!; lia| |split_and!; lia].
  destruct (iter_shr_1_digits n r Hr) as [H1 E1]. split_and!; [done|lia|rewrite E1; lia].
Qed.

Lemma shr_m_of_loc m l : shr_m (shr_record_of_loc m l) = m.
Proof. by destruct l as [|[]]. Qed.

Lemma shr_fexp_digits m e l :
  0 ≤ m →
  let n := fexp prec emax (Zdigits2 m + e) - e in
  0 ≤ shr_m (shr_fexp prec emax m e l).1 ∧
  (shr_fexp prec emax m e l).2 = e + Z.max 0 n ∧
  Zdigits2 (shr_m (shr_fexp prec emax m e l).1) = Z.max 0 (Zdigits2 m - Z.max 0 n).
Proof.
  intros Hm n. unfold shr_fexp. fold n.
  pose proof (shr_digits (shr_record_of_loc m l) e n) as H.
  rewrite shr_m_of_loc in H. by apply H.
Qed.

Lemma round_nearest_even_digits m l :
  0 ≤ m → 0 ≤ round_nearest_even m l ∧ Zdigits2 (round_nearest_even m l) ≤ Zdigits2 m + 1.
Proof.
  intros Hm. pose proof (Zdigits2_succ m Hm).
  destruct l as [|[]]; simpl; try destruct (Z.even m); split; lia.
Qed.

Lemma binary_round_aux_bnd s m e l lo hi :
  0 ≤ m → lo ≤ e → Zdigits2 m + e ≤ hi → -1074 ≤ hi → hi ≤ 970 →
  bnd lo (hi + 1) (binary_round_aux prec emax s m e l).
Proof.
  intros Hm Hlo Hhi Hmin Hmax. unfold binary_round_aux.
  destruct (shr_fexp_digits m e l Hm) as (H1 & E1 & D1).
  destruct (shr_fexp prec emax m e l) as [r1 e1]; simpl in *.
  destruct (round_nearest_even_digits (shr_m r1) (loc_of_shr_record r1) H1) as [H2 D2].
  set (m2 := round_nearest_even (shr_m r1) (loc_of_shr_record r1)) in *.
  destruct (shr_fexp_digits m2 e1 loc_Exact H2) as (H3 & E3 & D3).
  destruct (shr_fexp prec emax m2 e1 loc_Exact) as [r3 e3]; simpl in *.
  pose proof (Zdigits2_nonneg m). 
  unfold fexp, emin, prec, emax in *.
  destruct (shr_m r3) as [|p|p] eqn:Ep; simpl; [done| |lia].
  simpl in D3.
  destruct (Z.leb_spec e3 (1024 - 53)); simpl; lia.
Qed.

(** ** The operations on bounded doubles *)

Lemma bnd_weaken lo hi lo' hi' x : bnd lo hi x → lo' ≤ lo → hi ≤ hi' → bnd lo' hi' x.
Proof. destruct x; simpl; try done. lia. Qed.

Lemma digits2_pos_iter_xO m d :
  Z.pos (digits2_pos (Pos.iter xO m d)) = Z.pos (digits2_pos m) + Z.pos d.
Proof.
  induction d as [|d IH] using Pos.peano_ind.
  - simpl. lia.
  - rewrite Pos.iter_succ. simpl. lia.
Qed.

Lemma shl_align_digits mx ex ex' :
  (shl_align mx ex ex').2 = Z.min ex ex' ∧
  Z.pos (digits2_pos (shl_align mx ex ex').1) + (shl_align mx ex ex').2
    = Z.pos (digits2_pos mx) + ex.
Proof.
  unfold shl_align. destruct (ex' - ex) as [|d|d] eqn:E; simpl; [lia|lia|].
  rewrite digits2_pos_iter_xO. lia.
Qed.

Lemma binary_round_bnd s mx ex lo hi :
  lo ≤ ex → Z.pos (digits2_pos mx) + ex ≤ hi → -1074 ≤ hi → hi ≤ 970 →
  bnd (lo - 52) (hi + 1) (binary_round prec emax s mx ex).
Proof.
  intros Hlo Hhi Hmin Hmax. unfold binary_round.
  destruct (shl_align_digits mx ex (fexp prec emax (Z.pos (digits2_pos mx) + ex))) as [E1 E2].
  destruct (shl_align mx ex _) as [mz ez]; simpl in *.
  apply binary_round_aux_bnd; simpl; try lia.
  unfold fexp, emin, prec, emax in *. lia.
Qed.

Lemma binary_normalize_bnd z e lo hi sz :
  lo ≤ e → Zdigits2 z + e ≤ hi → -1074 ≤ hi → hi ≤ 970 →
  bnd (lo - 52) (hi + 1) (binary_normalize prec emax z e sz).
Proof.
  intros. destruct z; simpl in *; [done|by apply binary_round_bnd..].
Qed.

Lemma Zdigits2_opp z : Zdigits2 (- z) = Zdigits2 z.
Proof. by destruct z. Qed.

Lemma Zdigits2_signed_sum sx sy a b :
  Zdigits2 (cond_Zopp sx (Z.pos a) + cond_Zopp sy (Z.pos b))
    ≤ Z.max (Z.pos (digits2_pos a)) (Z.pos (digits2_pos b)) + 1.
Proof.
  pose proof (Zdigits2_add (Z.pos a) (Z.pos b) ltac:(lia) ltac:(lia)) as Hadd.
  change (Zdigits2 (Z.pos a)) with (Z.pos (digits2_pos a)) in Hadd.
  change (Zdigits2 (Z.pos b)) with (Z.pos (digits2_pos b)) in Hadd.
  assert (∀ u v : positive, Zdigits2 (Z.pos u - Z.pos v)
            ≤ Z.max (Z.pos (digits2_pos u)) (Z.pos (digits2_pos v))) as Hsub.
  { intros u v. destruct (Z.le_gt_cases (Z.pos v) (Z.pos u)).
    - pose proof (Zdigits2_mono (Z.pos u - Z.pos v) (Z.pos u) ltac:(lia)) as Hm.
      change (Zdigits2 (Z.pos u)) with (Z.pos (digits2_pos u)) in Hm. lia.
    - rewrite <- Zdigits2_opp.
      pose proof (Zdigits2_mono (- (Z.pos u - Z.pos v)) (Z.pos v) ltac:(lia)) as Hm.
      change (Zdigits2 (Z.pos v)) with (Z.pos (digits2_pos v)) in Hm. lia. }
  destruct sx, sy; unfold cond_Zopp.
  - replace (- Z.pos a + - Z.pos b) with (- (Z.pos a + Z.pos b)) by lia.
    rewrite Zdigits2_opp. lia.
  - replace (- Z.pos a + Z.pos b) with (Z.pos b - Z.pos a) by lia.
    specialize (Hsub b a). lia.
  - replace (Z.pos a + - Z.pos b) with (Z.pos a - Z.pos b) by lia.
    specialize (Hsub a b). lia.
  - lia.
Qed.

Lemma SFadd_bnd lo hi x y :
  bnd lo hi x → bnd lo hi y → -1075 ≤ hi → hi ≤ 969 →
  bnd (lo - 52) (hi + 2) (SFadd prec emax x y).
Proof.
  intros Hx Hy Hmin Hmax.
  destruct x as [sx|sx| |sx mx ex], y as [sy|sy| |sy my ey]; simpl in Hx, Hy; try done.
  - simpl. by destruct sx, sy.
  - simpl. lia.
  - simpl. lia.
  - unfold SFadd.
    destruct (shl_align_digits mx ex (Z.min ex ey)) as [E1 E2].
    destruct (shl_align_digits my ey (Z.min ex ey)) as [E3 E4].
    pose proof (Zdigits2_signed_sum sx sy (shl_align mx ex (Z.min ex ey)).1
                  (shl_align my ey (Z.min ex ey)).1) as HD.
    destruct (shl_align mx ex (Z.min ex ey)) as [ma ea].
    destruct (shl_align my ey (Z.min ex ey)) as [mb eb]. simpl in *.
    replace (hi + 2) with ((hi + 1) + 1) by lia.
    apply binary_normalize_bnd; fold_Z; lia.
Qed.

Lemma SFopp_bnd lo hi x : bnd lo hi x → bnd lo hi (SFopp x).
Proof. by destruct x. Qed.

Lemma SFsub_bnd lo hi x y :
  bnd lo hi x → bnd lo hi y → -1075 ≤ hi → hi ≤ 969 →
  bnd (lo - 52) (hi + 2) (SFsub prec emax x y).
Proof.
  intros Hx Hy Hmin Hmax.
  destruct x as [sx|sx| |sx mx ex], y as [sy|sy| |sy my ey]; simpl in Hx, Hy; try done.
  - simpl. by destruct sx, sy.
  - simpl. lia.
  - simpl. lia.
  - unfold SFsub.
    destruct (shl_align_digits mx ex (Z.min ex ey)) as [E1 E2].
    destruct (shl_align_digits my ey (Z.min ex ey)) as [E3 E4].
    pose proof (Zdigits2_signed_sum sx (negb sy) (shl_align mx ex (Z.min ex ey)).1
                  (shl_align my ey (Z.min ex ey)).1) as HD.
    destruct (shl_align mx ex (Z.min ex ey)) as [ma ea].
    destruct (shl_align my ey (Z.min ex ey)) as [mb eb]. simpl in *.
    replace (hi + 2) with ((hi + 1) + 1) by lia.
    apply binary_normalize_bnd; fold_Z; try lia.
    replace (cond_Zopp sx (Z.pos ma) - cond_Zopp sy (Z.pos mb))
      with (cond_Zopp sx (Z.pos ma) + cond_Zopp (negb sy) (Z.pos mb))
      by (destruct sy; simpl; lia).
    lia.
Qed.

Lemma SFmul_bnd lx hx ly hy x y :
  bnd lx hx x → bnd ly hy y → -1074 ≤ hx + hy → hx + hy ≤ 970 →
  bnd (lx + ly) (hx + hy + 1) (SFmul prec emax x y).
Proof.
  intros Hx Hy Hmin Hmax.
  destruct x as [sx|sx| |sx mx ex], y as [sy|sy| |sy my ey]; simpl in Hx, Hy; try done.
  unfold SFmul. fold_Z.
  pose proof (Zdigits2_mul (Z.pos mx) (Z.pos my) ltac:(lia) ltac:(lia)) as HD.
  simpl in HD.
  apply binary_round_aux_bnd; simpl; lia.
Qed.

Lemma SFdiv_bnd lx hx ly hy x sy my ey :
  bnd lx hx x → bnd ly hy (S754_finite sy my ey) →
  -1074 ≤ hx - ly → hx - ly ≤ 970 →
  bnd (lx - hy - 52) (hx - ly + 1) (SFdiv prec emax x (S754_finite sy my ey)).
Proof.
  intros Hx Hy Hmin Hmax.
  destruct x as [sx|sx| |sx mx ex]; simpl in Hx, Hy; try done.
  unfold SFdiv, SFdiv_core_binary. fold_Z.
  set (d1 := Zdigits2 (Z.pos mx)). set (d2 := Zdigits2 (Z.pos my)).
  set (e' := Z.min (fexp prec emax (d1 + ex - (d2 + ey))) (ex - ey)).
  set (s := ex - ey - e').
  set (m' := match s with Z.pos _ => Z.shiftl (Z.pos mx) s | 0 => Z.pos mx | Z.neg _ => 0 end).
  assert (0 ≤ s) as Hs by (unfold s, e'; lia).
  assert (m' = Z.pos mx * 2 ^ s) as Hm'.
  { unfold m'. destruct s as [|p|p] eqn:Es; [simpl; lia| |lia].
    by rewrite Z.shiftl_mul_pow2. }
  assert (d1 = Z.pos (digits2_pos mx)) as Hd1 by done.
  assert (d2 = Z.pos (digits2_pos my)) as Hd2 by done.
  assert (0 < 2 ^ s) as Hpow by (apply Z.pow_pos_nonneg; lia).
  assert (0 ≤ m') as Hm'0 by lia.
  assert (Zdigits2 m' ≤ d1 + s) as HDm'.
  { apply Zdigits2_le_of_lt; [lia|]. split; [done|].
    rewrite Hm', Z.pow_add_r by lia.
    pose proof (Zdigits2_lt (Z.pos mx) ltac:(lia)). fold d1 in H. nia. }
  pose proof (Z_div_mod m' (Z.pos my) ltac:(lia)) as Hdm.
  destruct (Z.div_eucl m' (Z.pos my)) as [q r].
  destruct Hdm as [Hq Hr].
  assert (0 ≤ q) as Hq0 by nia.
  assert (q ≤ m') as Hqm by nia.
  pose proof (Zdigits2_mono q m' ltac:(lia)) as HDq.
  assert (lx - hy - 52 ≤ e') as He'.
  { unfold e', fexp, emin, prec, emax. lia. }
  apply binary_round_aux_bnd; lia.
Qed.

(** ** Exact rounding *)

Lemma Zpos_iter_xO p d : Z.pos (Pos.iter xO p d) = Z.pos p * 2 ^ Z.pos d.
Proof.
  induction d as [|d IH] using Pos.peano_ind.
  - simpl. lia.
  - rewrite Pos.iter_succ, Pos2Z.inj_xO, IH, Pos2Z.inj_succ, Z.pow_succ_r by lia. lia.
Qed.

Lemma pos_eq_shift M p d : Z.pos M = Z.pos p * 2 ^ Z.pos d → M = Pos.iter xO p d.
Proof. rewrite <- Zpos_iter_xO. congruence. Qed.

Lemma iter_shr_1_exact n : ∀ p,
  iter_pos shr_1 n (Build_shr_record (Z.pos (Pos.iter xO p n)) false false)
    = Build_shr_record (Z.pos p) false false.
Proof.
  induction n as [n IH|n IH|]; intros p; simpl.
  - by rewrite !IH.
  - by rewrite !IH.
  - done.
Qed.

Lemma shr_fexp_unfold m e l :
  shr_fexp prec emax m e l
  = shr (shr_record_of_loc m l) e (fexp prec emax (Zdigits2 m + e) - e).
Proof. done. Qed.

Lemma fexp_eq x : -1021 ≤ x → fexp prec emax x = x - 53.
Proof. unfold fexp, emin, prec, emax. lia. Qed.

(** Rounding a 53-digit mantissa is the identity. *)
Lemma binary_round_aux_canonical s p e :
  Z.pos (digits2_pos p) = 53 → -1074 ≤ e ≤ 971 →
  binary_round_aux prec emax s (Z.pos p) e loc_Exact = S754_finite s p e.
Proof.
  intros HD He. unfold binary_round_aux.
  assert (shr_fexp prec emax (Z.pos p) e loc_Exact
          = (Build_shr_record (Z.pos p) false false, e)) as E.
  { rewrite shr_fexp_unfold. simpl Zdigits2. rewrite HD, fexp_eq by lia.
    replace (53 + e - 53 - e) with 0 by lia. done. }
  rewrite E. simpl. rewrite E. simpl.
  fold_Z. destruct (Z.leb_spec e (emax - prec)); [done|]. unfold emax, prec in *. lia.
Qed.

(** Rounding a 53-digit mantissa followed by [n] zero bits drops the zeros. *)
Lemma binary_round_aux_shifted s p n e :
  Z.pos (digits2_pos p) = 53 → -1074 ≤ e + Z.pos n ≤ 971 →
  binary_round_aux prec emax s (Z.pos (Pos.iter xO p n)) e loc_Exact
    = S754_finite s p (e + Z.pos n).
Proof.
  intros HD He. unfold binary_round_aux.
  assert (shr_fexp prec emax (Z.pos (Pos.iter xO p n)) e loc_Exact
          = (Build_shr_record (Z.pos p) false false, e + Z.pos n)) as E.
  { rewrite shr_fexp_unfold. simpl Zdigits2. rewrite digits2_pos_iter_xO, HD, fexp_eq by lia.
    replace (53 + Z.pos n + e - 53 - e) with (Z.pos n) by lia.
    simpl. by rewrite iter_shr_1_exact. }
  rewrite E. simpl.
  assert (shr_fexp prec emax (Z.pos p) (e + Z.pos n) loc_Exact
          = (Build_shr_record (Z.pos p) false false, e + Z.pos n)) as E2.
  { rewrite shr_fexp_unfold. simpl Zdigits2. rewrite HD, fexp_eq by lia.
    replace (53 + (e + Z.pos n) - 53 - (e + Z.pos n)) with 0 by lia. done. }
  fold_Z. rewrite E2. simpl.
  fold_Z. destruct (Z.leb_spec (e + Z.pos n) (emax - prec)); [done|]. unfold emax, prec in *. lia.
Qed.

Lemma normal_finite s p e :
  Z.pos (digits2_pos p) ≤ 53 →
  ∃ M, normal s p e = S754_finite s M (e - (53 - Z.pos (digits2_pos p)))
       ∧ Z.pos (digits2_pos M) = 53
       ∧ Z.pos M = Z.pos p * 2 ^ (53 - Z.pos (digits2_pos p)).
Proof.
  intros HD. unfold normal.
  destruct (53 - Z.pos (digits2_pos p)) as [|d|d] eqn:E; [|clear HD|lia].
  - exists p. split_and!; [f_equal; lia|lia|lia].
  - exists (Pos.iter xO p d). split_and!; [done| |apply Zpos_iter_xO].
    rewrite digits2_pos_iter_xO. lia.
Qed.

Lemma normal_intro s p e M E :
  Z.pos (digits2_pos p) ≤ 53 →
  Z.pos M = Z.pos p * 2 ^ (53 - Z.pos (digits2_pos p)) →
  E = e - (53 - Z.pos (digits2_pos p)) →
  S754_finite s M E = normal s p e.
Proof.
  intros HD HM ->. destruct (normal_finite s p e HD) as (M' & -> & _ & HM').
  f_equal. lia.
Qed.

(** [binary_round] only depends on the represented value. *)
Lemma binary_round_dyadic s m p k e :
  Z.pos (digits2_pos p) ≤ 53 → 0 ≤ k → Z.pos m = Z.pos p * 2 ^ k →
  -1000 ≤ e ≤ 900 →
  binary_round prec emax s m (e - k) = normal s p e.
Proof.
  intros HD Hk Hm He.
  assert (Z.pos (digits2_pos m) = Z.pos (digits2_pos p) + k) as HDm.
  { destruct k as [|k|k]; [|clear Hk|lia].
    - rewrite Z.pow_0_r in Hm. assert (m = p) by lia. subst. lia.
    - apply pos_eq_shift in Hm. subst m. apply digits2_pos_iter_xO. }
  unfold binary_round. fold_Z. rewrite HDm, fexp_eq by lia.
  unfold shl_align. fold_Z.
  destruct (Z.pos (digits2_pos p) + k + (e - k) - 53 - (e - k)) as [|n|d] eqn:En.
  - rewrite binary_round_aux_canonical by lia.
    apply normal_intro; [done| |lia].
    rewrite Hm. f_equal. f_equal. lia.
  - (* mantissa too long: the low [n] bits are zero *)
    assert (0 ≤ k - Z.pos n) as Hkn by lia.
    assert (∃ P, Z.pos P = Z.pos p * 2 ^ (k - Z.pos n)) as [P HP].
    { assert (0 < Z.pos p * 2 ^ (k - Z.pos n)) as Hpos.
      { apply Z.mul_pos_pos; [lia|]. apply Z.pow_pos_nonneg; lia. }
      destruct (Z.pos p * 2 ^ (k - Z.pos n)) as [|P|P] eqn:EP; [lia| |lia]. by exists P. }
    assert (m = Pos.iter xO P n) as ->.
    { apply pos_eq_shift. rewrite Hm, HP, <- Z.mul_assoc, <- Z.pow_add_r by lia.
      f_equal. f_equal. lia. }
    assert (Z.pos (digits2_pos P) = 53) as HDP.
    { rewrite digits2_pos_iter_xO in HDm. lia. }
    rewrite binary_round_aux_shifted by lia.
    apply normal_intro; [done| |lia].
    rewrite HP. f_equal. f_equal. lia.
  - rewrite binary_round_aux_canonical; [| rewrite digits2_pos_iter_xO; lia | lia].
    apply normal_intro; [done| |lia].
    rewrite Zpos_iter_xO, Hm, <- Z.mul_assoc, <- Z.pow_add_r by lia.
    f_equal. f_equal. lia.
Qed.

Lemma binary_normalize_dyadic z k e :
  Zdigits2 z ≤ 53 → 0 ≤ k → -1000 ≤ e ≤ 900 →
  binary_normalize prec emax (z * 2 ^ k) (e - k) false = dyadic z e.
Proof.
  intros HD Hk He.
  assert (0 < 2 ^ k) as Hpow by (apply Z.pow_pos_nonneg; lia).
  destruct z as [|p|p]; simpl in HD.
  - done.
  - destruct (Z.pos p * 2 ^ k) as [|m|m] eqn:Em; [lia| |lia]. simpl.
    by apply binary_round_dyadic with (k := k).
  - destruct (Z.neg p * 2 ^ k) as [|m|m] eqn:Em; [lia|lia|]. simpl.
    apply binary_round_dyadic with (k := k); [done..|lia|done].
Qed.

(** ** Exact sums and differences *)

Lemma dyadic_finite z e :
  z ≠ 0 → Zdigits2 z ≤ 53 →
  ∃ M, dyadic z e = S754_finite (z <? 0) M (e - (53 - Zdigits2 z))
       ∧ Z.pos (digits2_pos M) = 53
       ∧ cond_Zopp (z <? 0) (Z.pos M) = z * 2 ^ (53 - Zdigits2 z).
Proof.
  intros Hz HD. destruct z as [|p|p]; [done|..]; simpl in *.
  - destruct (normal_finite false p e HD) as (M & E & HM & HV). exists M. by rewrite HV.
  - destruct (normal_finite true p e HD) as (M & E & HM & HV). exists M.
    split_and!; [done..|]. rewrite HV. lia.
Qed.

Lemma shl_align_value m e e' :
  Z.pos (shl_align m e e').1 = Z.pos m * 2 ^ (e - Z.min e e') ∧
  (shl_align m e e').2 = Z.min e e'.
Proof.
  unfold shl_align. fold_Z. destruct (e' - e) as [|d|d] eqn:E; simpl.
  - replace (e - Z.min e e') with 0 by lia. lia.
  - replace (e - Z.min e e') with 0 by lia. lia.
  - rewrite Zpos_iter_xO. split; [|lia]. f_equal. f_equal. lia.
Qed.

Lemma of_int_dyadic z :
  Zdigits2 z ≤ 53 → binary_normalize prec emax z 0 false = dyadic z 0.
Proof.
  intros HD. pose proof (binary_normalize_dyadic z 0 0 HD) as H.
  rewrite Z.pow_0_r, Z.mul_1_r in H. apply H; lia.
Qed.

Lemma cond_Zopp_mul s z k : cond_Zopp s z * k = cond_Zopp s (z * k).
Proof. destruct s; simpl; lia. Qed.

Lemma aligned_sum_dyadic (op : Z → Z → Z) a b e Ma Mb :
  (∀ x y k, op (x * k) (y * k) = op x y * k) →
  Zdigits2 a ≤ 53 → Zdigits2 b ≤ 53 → Zdigits2 (op a b) ≤ 53 →
  a ≠ 0 → b ≠ 0 → -900 ≤ e ≤ 900 →
  Z.pos (digits2_pos Ma) = 53 → Z.pos (digits2_pos Mb) = 53 →
  cond_Zopp (a <? 0) (Z.pos Ma) = a * 2 ^ (53 - Zdigits2 a) →
  cond_Zopp (b <? 0) (Z.pos Mb) = b * 2 ^ (53 - Zdigits2 b) →
  let Ea := e - (53 - Zdigits2 a) in
  let Eb := e - (53 - Zdigits2 b) in
  let ez := Z.min Ea Eb in
  binary_normalize prec emax
    (op (cond_Zopp (a <? 0) (Z.pos (shl_align Ma Ea ez).1))
        (cond_Zopp (b <? 0) (Z.pos (shl_align Mb Eb ez).1))) ez false
  = dyadic (op a b) e.
Proof.
  intros Hop HDa HDb HDs Ha Hb He HMa HMb HVa HVb Ea Eb ez.
  assert (1 ≤ Zdigits2 a) by (destruct a; simpl; lia).
  assert (1 ≤ Zdigits2 b) by (destruct b; simpl; lia).
  destruct (shl_align_value Ma Ea ez) as [Va _].
  destruct (shl_align_value Mb Eb ez) as [Vb _].
  replace (Z.min Ea ez) with ez in Va by lia.
  replace (Z.min Eb ez) with ez in Vb by lia.
  rewrite Va, Vb, <- !cond_Zopp_mul, HVa, HVb.
  rewrite <- !Z.mul_assoc, <- !Z.pow_add_r by lia.
  replace (53 - Zdigits2 a + (Ea - ez)) with (e - ez) by lia.
  replace (53 - Zdigits2 b + (Eb - ez)) with (e - ez) by lia.
  rewrite Hop.
  replace ez with (e - (e - ez)) at 2 by lia.
  apply binary_normalize_dyadic; lia.
Qed.

Lemma SFadd_dyadic a b e :
  Zdigits2 a ≤ 53 → Zdigits2 b ≤ 53 → Zdigits2 (a + b) ≤ 53 → -900 ≤ e ≤ 900 →
  SFadd prec emax (dyadic a e) (dyadic b e) = dyadic (a + b) e.
Proof.
  intros HDa HDb HDs He.
  destruct (Z.eq_dec a 0) as [->|Ha].
  { rewrite Z.add_0_l. destruct (Z.eq_dec b 0) as [->|Hb]; [done|].
    destruct (dyadic_finite b e Hb HDb) as (M & -> & _). reflexivity. }
  destruct (Z.eq_dec b 0) as [->|Hb].
  { rewrite Z.add_0_r. destruct (dyadic_finite a e Ha HDa) as (M & -> & _). reflexivity. }
  destruct (dyadic_finite a e Ha HDa) as (Ma & -> & HMa & HVa).
  destruct (dyadic_finite b e Hb HDb) as (Mb & -> & HMb & HVb).
  unfold SFadd. fold_Z.
  apply (aligned_sum_dyadic Z.add); try done. intros; lia.
Qed.

Lemma SFsub_dyadic a b e :
  Zdigits2 a ≤ 53 → Zdigits2 b ≤ 53 → Zdigits2 (a - b) ≤ 53 → -900 ≤ e ≤ 900 →
  SFsub prec emax (dyadic a e) (dyadic b e) = dyadic (a - b) e.
Proof.
  intros HDa HDb HDs He.
  destruct (Z.eq_dec a 0) as [->|Ha].
  { destruct b as [|p|p]; [done|..]; simpl in HDb |- *.
    - destruct (normal_finite false p e HDb) as (M & E & _ & V).
      destruct (normal_finite true p e HDb) as (M' & E' & _ & V').
      rewrite E, E'. simpl. f_equal. lia.
    - destruct (normal_finite false p e HDb) as (M & E & _ & V).
      destruct (normal_finite true p e HDb) as (M' & E' & _ & V').
      rewrite E, E'. simpl. f_equal. lia. }
  destruct (Z.eq_dec b 0) as [->|Hb].
  { rewrite Z.sub_0_r. destruct (dyadic_finite a e Ha HDa) as (M & -> & _). reflexivity. }
  destruct (dyadic_finite a e Ha HDa) as (Ma & -> & HMa & HVa).
  destruct (dyadic_finite b e Hb HDb) as (Mb & -> & HMb & HVb).
  unfold SFsub. fold_Z.
  apply (aligned_sum_dyadic Z.sub); try done. intros; lia.
Qed.

(** ** Exact products, quotients and integer rounding *)

Lemma rhe_div_scale a b c : 0 < b → 0 < c → rhe_div (a * c) (b * c) = rhe_div a b.
Proof.
  intros Hb Hc. unfold rhe_div.
  rewrite Z.div_mul_cancel_r, Z.mul_mod_distr_r by lia.
  replace (2 * (a mod b * c)) with (2 * (a mod b) * c) by lia.
  destruct (Z.compare_spec (2 * (a mod b) * c) (b * c)),
    (Z.compare_spec (2 * (a mod b)) b); try done; nia.
Qed.

Lemma rhe_div_1 a : rhe_div a 1 = a.
Proof. unfold rhe_div. rewrite Z.div_1_r, Z.mod_1_r. done. Qed.

Lemma round_half_even_dyadic z e :
  Zdigits2 z ≤ 53 → e ≤ 0 →
  round_half_even (dyadic z e) = rhe_div z (2 ^ (- e)).
Proof.
  intros HD He.
  assert (0 < 2 ^ (- e)) as Hpow by (apply Z.pow_pos_nonneg; lia).
  destruct (Z.eq_dec z 0) as [->|Hz].
  { simpl. unfold rhe_div. rewrite Z.div_0_l, Z.mod_0_l by lia.
    by destruct (Z.compare_spec (2 * 0) (2 ^ (- e))); try lia. }
  destruct (dyadic_finite z e Hz HD) as (M & -> & HM & HV).
  unfold round_half_even. rewrite HV.
  assert (1 ≤ Zdigits2 z) by (destruct z; simpl; lia).
  set (k := 53 - Zdigits2 z) in *.
  destruct (Z.leb_spec 0 (e - k)).
  - assert (e = 0) as -> by lia. assert (k = 0) as -> by lia.
    simpl. rewrite rhe_div_1. lia.
  - replace (- (e - k)) with (- e + k) by lia. rewrite Z.pow_add_r by lia.
    apply rhe_div_scale; [done|]. apply Z.pow_pos_nonneg; lia.
Qed.

Lemma SFmul_dyadic_1 z e :
  Zdigits2 z ≤ 53 → -900 ≤ e ≤ 900 →
  SFmul prec emax (dyadic z e) f_1_0 = dyadic z e.
Proof.
  intros HD He. destruct (Z.eq_dec z 0) as [->|Hz]; [done|].
  assert (1 ≤ Zdigits2 z) by (destruct z; simpl; lia).
  destruct (dyadic_finite z e Hz HD) as (M & -> & HM & HV).
  unfold SFmul, f_1_0. fold_Z.
  replace (M * 4503599627370496)%positive with (Pos.iter xO M 52).
  2:{ symmetry. apply pos_eq_shift. rewrite Pos2Z.inj_mul. done. }
  rewrite binary_round_aux_shifted by lia.
  rewrite xorb_false_r. f_equal. lia.
Qed.

Lemma Z_div_eucl_div_mod a b : Z.div_eucl a b = (a / b, a mod b).
Proof. unfold Z.div, Z.modulo. by destruct (Z.div_eucl a b). Qed.

Lemma SFdiv_dyadic_2 z e :
  Zdigits2 z ≤ 53 → -900 ≤ e ≤ 900 →
  SFdiv prec emax (dyadic z e) f_2_0 = dyadic z (e - 1).
Proof.
  intros HD He. destruct (Z.eq_dec z 0) as [->|Hz]; [done|].
  assert (1 ≤ Zdigits2 z) by (destruct z; simpl; lia).
  destruct (dyadic_finite z e Hz HD) as (M & -> & HM & HV).
  destruct (dyadic_finite z (e - 1) Hz HD) as (M' & -> & HM' & HV').
  assert (M' = M) as ->.
  { rewrite <- HV' in HV. destruct (z <? 0); simpl in HV; lia. }
  set (E := e - (53 - Zdigits2 z)).
  replace (e - 1 - (53 - Zdigits2 z)) with (E - 1) by lia.
  assert (-1000 ≤ E ≤ 900) as HE by lia. clearbody E.
  unfold SFdiv, f_2_0.
  assert (SFdiv_core_binary prec emax (Z.pos M) E 4503599627370496 (-51)
          = (Z.pos (Pos.iter xO M 1), E - 2, loc_Exact)) as ->.
  { unfold SFdiv_core_binary. fold_Z.
    change (Zdigits2 (Z.pos M)) with (Z.pos (digits2_pos M)). rewrite HM.
    change (Zdigits2 4503599627370496) with 53.
    rewrite fexp_eq by lia.
    replace (Z.min (53 + E - (53 + -51) - 53) (E - -51)) with (E - 2) by lia.
    replace (E - -51 - (E - 2)) with 53 by lia.
    rewrite Z_div_eucl_div_mod, Z.shiftl_mul_pow2 by lia.
    replace (Z.pos M * 2 ^ 53) with (Z.pos (Pos.iter xO M 1) * 4503599627370496)
      by (simpl Pos.iter; lia).
    rewrite Z.div_mul, Z.mod_mul by lia. done. }
  rewrite binary_round_aux_shifted by lia.
  rewrite xorb_false_r. f_equal. lia.
Qed.

(** ** The operations of the interpreter on small numbers *)

Lemma Zdigits2_bound z k : 0 ≤ k → - 2 ^ k < z < 2 ^ k → Zdigits2 z ≤ k.
Proof.
  intros Hk Hz. destruct (Z.le_gt_cases 0 z).
  - apply Zdigits2_le_of_lt; lia.
  - rewrite <- Zdigits2_opp. apply Zdigits2_le_of_lt; lia.
Qed.

Lemma dyadic_bnd z e : Zdigits2 z ≤ 53 → bnd (e - 52) (Zdigits2 z + e) (dyadic z e).
Proof.
  intros HD. destruct (Z.eq_dec z 0) as [->|Hz]; [done|].
  assert (1 ≤ Zdigits2 z) by (destruct z; simpl; lia).
  destruct (dyadic_finite z e Hz HD) as (M & -> & HM & _). simpl. lia.
Qed.

Lemma dyadic_pos_finite z e :
  0 < z → Zdigits2 z ≤ 53 → ∃ M E, dyadic z e = S754_finite false M E.
Proof.
  intros Hz HD. destruct (dyadic_finite z e ltac:(lia) HD) as (M & E & _).
  rewrite E. replace (z <? 0) with false by lia. eauto.
Qed.

Lemma of_int_small z : Zdigits2 z ≤ 53 → of_int z = Ok (dyadic z 0).
Proof.
  intros HD. unfold of_int. rewrite of_int_dyadic by done.
  pose proof (dyadic_bnd z 0 HD) as Hb. by destruct (dyadic z 0).
Qed.

Lemma truediv_2 z e :
  Zdigits2 z ≤ 53 → -900 ≤ e ≤ 900 →
  truediv (dyadic z e) f_2_0 = Ok (dyadic z (e - 1)).
Proof. intros. unfold truediv, div. simpl. by rewrite SFdiv_dyadic_2. Qed.

Lemma py_round_bnd lo hi x : bnd lo hi x → py_round x = Ok (round_half_even x).
Proof. by destruct x. Qed.

Lemma py_round_dyadic z e :
  Zdigits2 z ≤ 53 → e ≤ 0 → py_round (dyadic z e) = Ok (rhe_div z (2 ^ (- e))).
Proof.
  intros HD He. rewrite (py_round_bnd _ _ _ (dyadic_bnd z e HD)).
  by rewrite round_half_even_dyadic.
Qed.

Lemma rhe_div_2_bounds n : 0 ≤ n → 0 ≤ rhe_div n 2 ≤ (n + 1) / 2.
Proof.
  intros Hn. unfold rhe_div.
  pose proof (Z.div_mod n 2 ltac:(lia)). pose proof (Z.mod_pos_bound n 2 ltac:(lia)).
  assert ((n + 1) / 2 = n / 2 + n mod 2) as ->.
  { symmetry. apply Z.div_unique with (r := (n + 1) mod 2 ).
    - left. apply Z.mod_pos_bound. lia.
    - pose proof (Z.div_mod (n + 1) 2 ltac:(lia)).
      assert ((n + 1) mod 2 = 1 - n mod 2) as ->; [|lia].
      rewrite Z.add_mod by lia.
      destruct (Z.eq_dec (n mod 2) 0) as [->| ]; [done|].
      assert (n mod 2 = 1) as -> by lia. done. }
  destruct (Z.compare_spec (2 * (n mod 2)) 2); destruct (Z.even (n / 2)); lia.
Qed.

(** The intensities halved and recombined are exact: the alpha before
    rounding is [(255 - g_val + r_val) / 2]. *)
Lemma byte_digits z : -510 ≤ z ≤ 510 → Zdigits2 z ≤ 53.
Proof.
  intros. etrans; [apply (Zdigits2_bound z 9); [lia|]|lia].
  change (2 ^ 9) with 512. lia.
Qed.

Lemma add_dyadic a b e :
  Zdigits2 a ≤ 53 → Zdigits2 b ≤ 53 → Zdigits2 (a + b) ≤ 53 → -900 ≤ e ≤ 900 →
  add (dyadic a e) (dyadic b e) = dyadic (a + b) e.
Proof. apply SFadd_dyadic. Qed.

Lemma sub_dyadic a b e :
  Zdigits2 a ≤ 53 → Zdigits2 b ≤ 53 → Zdigits2 (a - b) ≤ 53 → -900 ≤ e ≤ 900 →
  sub (dyadic a e) (dyadic b e) = dyadic (a - b) e.
Proof. apply SFsub_dyadic. Qed.

Lemma alpha_exact r_val g_val :
  0 ≤ r_val ≤ 255 → 0 ≤ g_val ≤ 255 →
  add (sub f_255_0 (add (dyadic g_val (-1)) f_127_5)) (dyadic r_val (-1))
  = dyadic (255 - g_val + r_val) (-1).
Proof.
  intros Hr Hg.
  change f_127_5 with (dyadic 255 (-1)). change f_255_0 with (dyadic 510 (-1)).
  rewrite add_dyadic, sub_dyadic, add_dyadic; try (apply byte_digits; lia); try lia.
  f_equal. lia.
Qed.

Lemma gt_0_dyadic n e :
  0 ≤ n → Zdigits2 n ≤ 53 → gt_0 (dyadic n e) = bool_decide (0 < n).
Proof.
  intros Hn HD. destruct (Z.eq_dec n 0) as [->|Hne]; [done|].
  destruct (dyadic_pos_finite n e ltac:(lia) HD) as (M & E & ->).
  rewrite bool_decide_eq_true_2 by lia. done.
Qed.

Lemma le_0_dyadic n e :
  0 ≤ n → Zdigits2 n ≤ 53 → le_0 (dyadic n e) = bool_decide (n = 0).
Proof.
  intros Hn HD. destruct (Z.eq_dec n 0) as [->|Hne]; [done|].
  destruct (dyadic_pos_finite n e ltac:(lia) HD) as (M & E & ->).
  rewrite bool_decide_eq_false_2 by lia. done.
Qed.

Lemma fraction_bnd r n :
  0 ≤ r ≤ 255 → 0 < n ≤ 510 →
  bnd (-114) 62 (div (dyadic r (-1)) (dyadic n (-1))).
Proof.
  intros Hr Hn.
  pose proof (dyadic_bnd r (-1) (byte_digits r ltac:(lia))) as Hx.
  pose proof (dyadic_bnd n (-1) (byte_digits n ltac:(lia))) as Hy.
  pose proof (Zdigits2_nonneg r). pose proof (Zdigits2_nonneg n).
  assert (Zdigits2 r ≤ 9) by (apply Zdigits2_bound; [lia|]; change (2 ^ 9) with 512; lia).
  assert (Zdigits2 n ≤ 9) by (apply Zdigits2_bound; [lia|]; change (2 ^ 9) with 512; lia).
  destruct (dyadic_pos_finite n (-1) ltac:(lia) (byte_digits n ltac:(lia)))
    as (M & E & HE).
  rewrite HE in *.
  eapply bnd_weaken; [apply (SFdiv_bnd (-53) 8 (-53) 8)|..];
    try (eapply bnd_weaken; [eassumption|lia..]); lia.
Qed.

End FloatFacts.

(** * The pixel compositor *)

Section compositor.
Import Float FloatFacts.

Lemma bind_Ok {A B} (f : A → result B) (a : A) : Ok a ≫= f = f a.
Proof. done. Qed.

Lemma alpha_and_fraction_exact r_val g_val :
  0 ≤ r_val ≤ 255 → 0 ≤ g_val ≤ 255 →
  alpha_and_fraction r_val g_val
  = Ok (dyadic (255 - g_val + r_val) (-1),
        fraction r_val g_val).
Proof.
  intros Hr Hg. unfold fraction. set (n := 255 - g_val + r_val).
  unfold alpha_and_fraction.
  rewrite (of_int_small r_val), bind_Ok by (apply byte_digits; lia).
  rewrite truediv_2, bind_Ok by (try apply byte_digits; lia).
  rewrite (of_int_small g_val), bind_Ok by (apply byte_digits; lia).
  rewrite truediv_2, bind_Ok by (try apply byte_digits; lia).
  change (0 - 1) with (-1).
  rewrite alpha_exact by done. fold n.
  rewrite gt_0_dyadic by (try apply byte_digits; lia).
  case_bool_decide as Hn; [|done].
  destruct (dyadic_pos_finite n (-1) Hn (byte_digits n ltac:(lia))) as (M & E & HE).
  unfold truediv. rewrite HE. done.
Qed.

Lemma fraction_is_bounded r_val g_val a b :
  0 ≤ r_val ≤ 255 → 0 ≤ g_val ≤ 255 →
  alpha_and_fraction r_val g_val = Ok (a, b) → bnd (-114) 62 b.
Proof.
  intros Hr Hg. rewrite alpha_and_fraction_exact by done.
  intros [= <- <-]. unfold fraction. case_bool_decide; [|done].
  apply fraction_bnd; lia.
Qed.

Lemma spec_float_small z : -510 ≤ z ≤ 510 → Spec.float z = dyadic z 0.
Proof. intros. apply of_int_dyadic, byte_digits. lia. Qed.

Lemma lerp_channel_ok c1 c2 t :
  in_byte c1 → in_byte c2 → bnd (-114) 62 t →
  lerp_channel c1 c2 t = Ok (add (Spec.float c1) (mul (Spec.float (c2 - c1)) t))
  ∧ bnd (-218) 73 (add (Spec.float c1) (mul (Spec.float (c2 - c1)) t)).
Proof.
  unfold in_byte. intros H1 H2 Ht. unfold lerp_channel.
  rewrite (of_int_small (c2 - c1)), bind_Ok by (apply byte_digits; lia).
  rewrite (of_int_small c1), bind_Ok by (apply byte_digits; lia).
  rewrite !spec_float_small by lia. split; [done|].
  pose proof (dyadic_bnd (c2 - c1) 0 (byte_digits (c2 - c1) ltac:(lia))) as Hd.
  pose proof (dyadic_bnd c1 0 (byte_digits c1 ltac:(lia))) as Hc.
  assert (Zdigits2 (c2 - c1) ≤ 8) by (apply Zdigits2_bound; [lia|]; change (2 ^ 8) with 256; lia).
  assert (Zdigits2 c1 ≤ 8) by (apply Zdigits2_bound; [lia|]; change (2 ^ 8) with 256; lia).
  pose proof (Zdigits2_nonneg c1). pose proof (Zdigits2_nonneg (c2 - c1)).
  eapply bnd_weaken; [apply (SFadd_bnd (-166) 71)|..]; try lia.
  - eapply bnd_weaken; [exact Hc|lia..].
  - eapply bnd_weaken; [apply (SFmul_bnd (-52) 8 (-114) 62)|..]; try done; try lia.
    eapply bnd_weaken; [exact Hd|lia..].
Qed.

Lemma interpolate_ok t bc1 bc2 :
  valid_color bc1 → valid_color bc2 → bnd (-114) 62 t →
  interpolate t bc1 bc2
  = Ok (Spec.lerp bc1.1.1 bc2.1.1 t, Spec.lerp bc1.1.2 bc2.1.2 t,
        Spec.lerp bc1.2 bc2.2 t).
Proof.
  intros (Hr1 & Hg1 & Hb1) (Hr2 & Hg2 & Hb2) Ht. unfold interpolate.
  destruct (lerp_channel_ok _ _ t Hr1 Hr2 Ht) as [-> Br].
  destruct (lerp_channel_ok _ _ t Hg1 Hg2 Ht) as [-> Bg].
  destruct (lerp_channel_ok _ _ t Hb1 Hb2 Ht) as [-> Bb].
  rewrite !bind_Ok.
  rewrite (py_round_bnd _ _ _ Br), (py_round_bnd _ _ _ Bg), (py_round_bnd _ _ _ Bb).
  done.
Qed.


Lemma rhe_div_2_byte n : 0 ≤ n ≤ 510 → 0 ≤ rhe_div n 2 ≤ 255.
Proof.
  intros Hn. pose proof (rhe_div_2_bounds n ltac:(lia)) as H.
  assert ((n + 1) / 2 < 256) by (apply Z.div_lt_upper_bound; lia). lia.
Qed.

(** The pixel the scan writes, in closed form. *)
Lemma composite_pixel_value r_val g_val bc1 bc2 :
  0 ≤ r_val ≤ 255 → 0 ≤ g_val ≤ 255 → valid_color bc1 → valid_color bc2 →
  composite_pixel r_val g_val bc1 bc2
  = Ok (Spec.lerp bc1.1.1 bc2.1.1 (fraction r_val g_val),
        Spec.lerp bc1.1.2 bc2.1.2 (fraction r_val g_val),
        Spec.lerp bc1.2 bc2.2 (fraction r_val g_val),
        rhe_div (255 - g_val + r_val) 2).
Proof.
  intros Hr Hg Hc1 Hc2.
  pose proof (alpha_and_fraction_exact r_val g_val Hr Hg) as Hab.
  pose proof (fraction_is_bounded r_val g_val _ _ Hr Hg Hab) as Hb.
  unfold composite_pixel. rewrite Hab, bind_Ok.
  rewrite (interpolate_ok _ _ _ Hc1 Hc2 Hb), bind_Ok.
  set (n := 255 - g_val + r_val) in *.
  rewrite py_round_dyadic, bind_Ok by (try apply byte_digits; lia).
  cbn [fst snd mret result_ret]. change (2 ^ (- -1)) with 2.
  pose proof (rhe_div_2_byte n ltac:(lia)). do 2 f_equal. lia.
Qed.

(** C1: on 8-bit intensities and colours the compositor returns, without
    raising, the pixel of the specification's algorithm read in binary64
    arithmetic with ties rounded to even: the three channels are
    [round(bc1 + (bc2 - bc1) * t)] with [t = 0] if [a <= 0] and [b1 / a]
    otherwise, and the alpha is [round(a)] clamped to [0, 255]. *)
Theorem composite_pixel_refines_spec r_val g_val bc1 bc2 :
  0 ≤ r_val ≤ 255 → 0 ≤ g_val ≤ 255 → valid_color bc1 → valid_color bc2 →
  composite_pixel r_val g_val bc1 bc2 = Ok (Spec.pixel r_val g_val bc1 bc2).
Proof.
  intros Hr Hg Hc1 Hc2. rewrite composite_pixel_value by done.
  set (n := 255 - g_val + r_val).
  unfold Spec.pixel, Spec.clamp.
  rewrite (spec_float_small r_val), (spec_float_small g_val) by lia.
  unfold div at 1 2 3. rewrite !SFdiv_dyadic_2 by (try apply byte_digits; lia).
  change (0 - 1) with (-1).
  rewrite alpha_exact by done. fold n.
  rewrite le_0_dyadic, round_half_even_dyadic by (try apply byte_digits; lia).
  change (2 ^ (- -1)) with 2.
  pose proof (rhe_div_2_byte n ltac:(lia)).
  replace (Z.max 0 (Z.min 255 (rhe_div n 2))) with (rhe_div n 2) by lia.
  unfold fraction. fold n.
  repeat case_bool_decide; try lia; done.
Qed.

(** The channels are the rounding of the double that the interpreter
    computes, not of the exact quotient: at intensities (1, 158) and channel
    values 0 and 147 the exact value [147 * 1 / 98] is one and a half, which
    rounds to 2 under every tie rule, while the product in binary64 falls
    just below and rounds to 1. *)
Remark lerp_rounds_the_double :
  composite_pixel 1 158 (0, 0, 0) (147, 147, 147) = Ok (1, 1, 1, 49)
  ∧ rhe_div (0 * 98 + (147 - 0) * 1) 98 = 2.
Proof. split; vm_compute; reflexivity. Qed.

Lemma composite_pixel_refines_spec_witness :
  composite_pixel 255 0 (10, 20, 30) (200, 100, 50)
  = Ok (Spec.pixel 255 0 (10, 20, 30) (200, 100, 50)).
Proof.
  apply composite_pixel_refines_spec; unfold valid_color, in_byte; simpl; lia.
Defined.

(** C2: for 8-bit intensities (and 8-bit colours) the pixel body raises
    nothing, neither [ZeroDivisionError] nor any other exception, and the
    alpha it writes lies in [0, 255]. *)
Theorem composite_pixel_safe r_val g_val bc1 bc2 :
  0 ≤ r_val ≤ 255 → 0 ≤ g_val ≤ 255 → valid_color bc1 → valid_color bc2 →
  ∃ px, composite_pixel r_val g_val bc1 bc2 = Ok px ∧ 0 ≤ alpha_of px ≤ 255.
Proof.
  intros Hr Hg Hc1 Hc2. eexists. split; [by apply composite_pixel_value|].
  apply rhe_div_2_byte. lia.
Qed.

Lemma composite_pixel_safe_witness :
  ∃ px, composite_pixel 0 255 (10, 20, 30) (200, 100, 50) = Ok px
        ∧ 0 ≤ alpha_of px ≤ 255.
Proof.
  apply composite_pixel_safe; unfold valid_color, in_byte; simpl; lia.
Defined.

Lemma lerp_fraction_one c1 c2 :
  in_byte c1 → in_byte c2 → Spec.lerp c1 c2 f_1_0 = c2.
Proof.
  unfold in_byte. intros H1 H2. unfold Spec.lerp.
  rewrite !spec_float_small by lia.
  unfold mul. rewrite SFmul_dyadic_1 by (try apply byte_digits; lia).
  rewrite add_dyadic by (try apply byte_digits; lia).
  replace (c1 + (c2 - c1)) with c2 by lia.
  rewrite round_half_even_dyadic by (try apply byte_digits; lia).
  apply rhe_div_1.
Qed.

(** C9: whenever [255 - g_val + r_val = 1] the alpha before rounding is one
    half, which rounds to the even integer 0, so the pixel is fully
    transparent; that is the case at (0, 254), an input other than (0, 255);
    and at (1, 255) the fraction is 1 and the colour written is [bc2]. *)
Theorem half_alpha_rounds_to_zero :
  (∀ r_val g_val bc1 bc2,
     0 ≤ r_val ≤ 255 → 0 ≤ g_val ≤ 255 → valid_color bc1 → valid_color bc2 →
     255 - g_val + r_val = 1 →
     (∃ b, alpha_and_fraction r_val g_val = Ok (dyadic 1 (-1), b))
     ∧ py_round (dyadic 1 (-1)) = Ok 0
     ∧ ∃ rgb, composite_pixel r_val g_val bc1 bc2 = Ok (rgb, 0))
  ∧ (∀ bc1 bc2, valid_color bc1 → valid_color bc2 →
       (∃ rgb, composite_pixel 0 254 bc1 bc2 = Ok (rgb, 0))
       ∧ composite_pixel 1 255 bc1 bc2 = Ok (bc2, 0)).
Proof.
  split.
  - intros r_val g_val bc1 bc2 Hr Hg Hc1 Hc2 Hn. split_and!.
    + eexists. rewrite alpha_and_fraction_exact by done. by rewrite Hn.
    + done.
    + eexists. rewrite composite_pixel_value by done. by rewrite Hn.
  - intros bc1 bc2 Hc1 Hc2. split.
    + eexists. by rewrite composite_pixel_value by (done || lia).
    + rewrite composite_pixel_value by (done || lia).
      change (fraction 1 255) with f_1_0.
      destruct Hc1 as (? & ? & ?), Hc2 as (? & ? & ?).
      rewrite !lerp_fraction_one by done.
      by destruct bc2 as [[??]?].
Qed.

Lemma half_alpha_rounds_to_zero_witness :
  (∃ b, alpha_and_fraction 0 254 = Ok (dyadic 1 (-1), b))
  ∧ py_round (dyadic 1 (-1)) = Ok 0
  ∧ ∃ rgb, composite_pixel 0 254 (10, 20, 30) (200, 100, 50) = Ok (rgb, 0).
Proof.
  apply (proj1 half_alpha_rounds_to_zero);
    unfold valid_color, in_byte; simpl; lia.
Defined.

Lemma lerp_channel_same_color c t :
  in_byte c → is_finite t = true →
  ∃ v, lerp_channel c c t = Ok v ∧ py_round v = Ok c.
Proof.
  unfold in_byte. intros Hc Ht. unfold lerp_channel.
  rewrite Z.sub_diag, (of_int_small 0), bind_Ok by done.
  rewrite (of_int_small c), bind_Ok by (apply byte_digits; lia).
  eexists. split; [done|].
  assert (∃ s, mul (dyadic 0 0) t = S754_zero s) as [s ->].
  { destruct t; try done; simpl; eauto. }
  assert (add (dyadic c 0) (S754_zero s) = dyadic c 0) as ->.
  { destruct (Z.eq_dec c 0) as [->|Hne]; [by destruct s|].
    destruct (dyadic_pos_finite c 0 ltac:(lia) (byte_digits c ltac:(lia)))
      as (M & E & ->). done. }
  rewrite py_round_dyadic by (try apply byte_digits; lia).
  f_equal. apply rhe_div_1.
Qed.

(** With one colour for both backgrounds, [interpolate] returns that colour
    whatever the (finite) fraction. *)
Lemma interpolate_same_color t bc :
  valid_color bc → is_finite t = true → interpolate t bc bc = Ok bc.
Proof.
  intros (Hr & Hg & Hb) Ht. unfold interpolate.
  destruct (lerp_channel_same_color _ t Hr Ht) as (vr & -> & Er).
  destruct (lerp_channel_same_color _ t Hg Ht) as (vg & -> & Eg).
  destruct (lerp_channel_same_color _ t Hb Ht) as (vb & -> & Eb).
  rewrite !bind_Ok, Er, bind_Ok, Eg, bind_Ok, Eb, bind_Ok.
  by destruct bc as [[??]?].
Qed.

Lemma composite_pixel_same_color r_val g_val bc :
  0 ≤ r_val ≤ 255 → 0 ≤ g_val ≤ 255 → valid_color bc →
  composite_pixel r_val g_val bc bc = Ok (bc, rhe_div (255 - g_val + r_val) 2).
Proof.
  intros Hr Hg Hc.
  pose proof (alpha_and_fraction_exact r_val g_val Hr Hg) as Hab.
  pose proof (fraction_is_bounded r_val g_val _ _ Hr Hg Hab) as Hb.
  unfold composite_pixel. rewrite Hab, bind_Ok.
  rewrite interpolate_same_color, bind_Ok;
    [|done|by destruct (fraction r_val g_val)].
  rewrite py_round_dyadic, bind_Ok by (try apply byte_digits; lia).
  cbn [mret result_ret]. change (2 ^ (- -1)) with 2.
  pose proof (rhe_div_2_byte (255 - g_val + r_val) ltac:(lia)).
  destruct bc as [[??]?]. simpl. do 2 f_equal. lia.
Qed.

Lemma fraction_is_finite r_val g_val :
  0 ≤ r_val ≤ 255 → 0 ≤ g_val ≤ 255 → is_finite (fraction r_val g_val) = true.
Proof.
  intros Hr Hg.
  pose proof (fraction_is_bounded r_val g_val _ _ Hr Hg
                (alpha_and_fraction_exact r_val g_val Hr Hg)) as Hb.
  by destruct (fraction r_val g_val).
Qed.

End compositor.

(** * Images *)

Section images.
Context {A : Type}.
Implicit Types im dst src : image A.

Lemma wf_image_spec im :
  wf_image im = true ↔
  0 ≤ width im ∧ 0 ≤ height im ∧ length (rows im) = Z.to_nat (height im)
  ∧ Forall (λ row, length row = Z.to_nat (width im)) (rows im).
Proof.
  unfold wf_image. rewrite !andb_true_iff, !bool_decide_eq_true.
  rewrite <- Is_true_true, forallb_True.
  assert (Forall (λ row, bool_decide (length row = Z.to_nat (width im))) (rows im)
          ↔ Forall (λ row, length row = Z.to_nat (width im)) (rows im)) as ->.
  { apply Forall_proper; [|done]. intros row. apply bool_decide_spec. }
  tauto.
Qed.

Lemma in_boundsb_spec im x y : in_boundsb im x y = true ↔ in_bounds im x y.
Proof.
  unfold in_boundsb, in_bounds. by rewrite andb_true_iff, !bool_decide_eq_true.
Qed.

Lemma getpixel_in_bounds im x y v : getpixel im x y = Some v → in_bounds im x y.
Proof.
  unfold getpixel. destruct (in_boundsb im x y) eqn:E; [|done].
  intros _. by apply in_boundsb_spec.
Qed.

Lemma getpixel_out_of_bounds im x y : ¬ in_bounds im x y → getpixel im x y = None.
Proof.
  intros H. destruct (getpixel im x y) eqn:E; [|done].
  by apply getpixel_in_bounds in E.
Qed.

Lemma getpixel_is_Some im x y :
  wf_image im = true → in_bounds im x y → is_Some (getpixel im x y).
Proof.
  intros (Hw & Hh & Hlen & Hrows)%wf_image_spec Hb.
  unfold getpixel. rewrite (proj2 (in_boundsb_spec im x y) Hb).
  destruct Hb as [Hx Hy].
  destruct (lookup_lt_is_Some_2 (rows im) (Z.to_nat y)) as [row Hrow]; [lia|].
  rewrite Hrow. simpl.
  apply lookup_lt_is_Some_2.
  rewrite (Forall_lookup_1 _ _ _ _ Hrows Hrow). lia.
Qed.

Lemma getpixel_new w h (c : A) x y :
  getpixel (Image_new w h c) x y
  = if bool_decide (0 ≤ x < w ∧ 0 ≤ y < h) then Some c else None.
Proof.
  unfold getpixel, in_boundsb. simpl.
  destruct (bool_decide (0 ≤ x < w)) eqn:E1; simpl.
  2:{ apply bool_decide_eq_false in E1. rewrite bool_decide_eq_false_2; [done|tauto]. }
  destruct (bool_decide (0 ≤ y < h)) eqn:E2; simpl.
  2:{ apply bool_decide_eq_false in E2. rewrite bool_decide_eq_false_2; [done|tauto]. }
  apply bool_decide_eq_true in E1, E2.
  rewrite bool_decide_eq_true_2 by done.
  rewrite lookup_replicate_2 by lia. simpl.
  by rewrite lookup_replicate_2 by lia.
Qed.

Lemma wf_new w h (c : A) : 0 ≤ w → 0 ≤ h → wf_image (Image_new w h c) = true.
Proof.
  intros. apply wf_image_spec. simpl. rewrite length_replicate.
  split_and!; try done. apply Forall_replicate, length_replicate.
Qed.

Lemma getpixel_imap (f : Z → Z → A → A) im x y :
  getpixel (image_imap f im) x y = f x y <$> getpixel im x y.
Proof.
  unfold getpixel, in_boundsb. simpl.
  destruct (bool_decide (0 ≤ x < width im)) eqn:E1; [|done].
  destruct (bool_decide (0 ≤ y < height im)) eqn:E2; [|done]. simpl.
  apply bool_decide_eq_true in E1, E2.
  rewrite list_lookup_imap. destruct (rows im !! Z.to_nat y) as [row|]; [|done].
  simpl. rewrite list_lookup_imap.
  destruct (row !! Z.to_nat x); [|done]. simpl.
  by rewrite !Z2Nat.id by lia.
Qed.

Lemma wf_imap (f : Z → Z → A → A) im :
  wf_image im = true → wf_image (image_imap f im) = true.
Proof.
  rewrite !wf_image_spec. simpl. intros (? & ? & ? & Hrows).
  rewrite length_imap. split_and!; try done.
  apply Forall_lookup. intros i row (row' & Hrow' & ->)%list_lookup_imap_Some.
  rewrite length_imap. exact (Forall_lookup_1 _ _ _ _ Hrows Hrow').
Qed.

Lemma getpixel_paste dst src offset x y :
  getpixel (paste dst src offset) x y
  = (λ old, default old (getpixel src (x - offset.1) (y - offset.2)))
      <$> getpixel dst x y.
Proof. apply getpixel_imap. Qed.

Lemma setitem_spec im x y v :
  wf_image im = true → in_bounds im x y →
  ∃ im', setitem im x y v = Ok im'
         ∧ width im' = width im ∧ height im' = height im
         ∧ wf_image im' = true
         ∧ ∀ x' y', getpixel im' x' y'
                    = if decide (x' = x ∧ y' = y) then Some v
                      else getpixel im x' y'.
Proof.
  intros Hwf Hb. pose proof Hwf as (Hw & Hh & Hlen & Hrows)%wf_image_spec.
  unfold setitem. rewrite (proj2 (in_boundsb_spec im x y) Hb).
  eexists. split; [done|]. simpl. split_and!; try done.
  - apply wf_image_spec. simpl. rewrite length_alter. split_and!; try done.
    apply Forall_alter; [done|]. intros row Hrow ?. rewrite length_insert.
    exact (Forall_lookup_1 _ _ _ _ Hrows Hrow).
  - intros x' y'. unfold getpixel, in_boundsb. simpl.
    destruct (bool_decide (0 ≤ x' < width im)) eqn:E1; simpl.
    2:{ apply bool_decide_eq_false in E1. destruct Hb. by rewrite decide_False by lia. }
    destruct (bool_decide (0 ≤ y' < height im)) eqn:E2; simpl.
    2:{ apply bool_decide_eq_false in E2. destruct Hb. by rewrite decide_False by lia. }
    apply bool_decide_eq_true in E1, E2. destruct Hb as [Hx Hy].
    rewrite list_lookup_alter.
    destruct (lookup_lt_is_Some_2 (rows im) (Z.to_nat y)) as [row Hrow]; [lia|].
    pose proof (Forall_lookup_1 _ _ _ _ Hrows Hrow) as Hlrow. simpl in Hlrow.
    destruct (decide (Z.to_nat y = Z.to_nat y')) as [Ey|Ey].
    + rewrite Hrow. simpl. rewrite list_lookup_insert.
      assert (y' = y) as -> by lia. rewrite Hrow. simpl.
      destruct (decide (Z.to_nat x = Z.to_nat x' ∧ (Z.to_nat x < length row)%nat))
        as [[Ex _]|Ex].
      * rewrite decide_True by lia. done.
      * rewrite decide_False by lia. done.
    + rewrite decide_False by lia. done.
Qed.

End images.

Lemma getpixel_map {A B} (f : A → B) (im : image A) x y :
  getpixel (image_map f im) x y = f <$> getpixel im x y.
Proof.
  unfold getpixel, in_boundsb. simpl.
  destruct (_ && _); [|done]. simpl.
  rewrite list_lookup_fmap. destruct (rows im !! Z.to_nat y) as [row|]; [|done].
  simpl. by rewrite list_lookup_fmap.
Qed.

Lemma wf_map {A B} (f : A → B) (im : image A) :
  wf_image im = true → wf_image (image_map f im) = true.
Proof.
  rewrite !wf_image_spec. simpl. intros (? & ? & ? & Hrows).
  rewrite length_fmap. split_and!; try done.
  apply Forall_fmap. eapply Forall_impl; [exact Hrows|].
  intros row Hrow. simpl. by rewrite length_fmap.
Qed.

Lemma Image_merge_spec (r g b : image Z) :
  wf_image r = true → wf_image g = true → wf_image b = true →
  width r = width g → width g = width b →
  height r = height g → height g = height b →
  ∃ m, Image_merge r g b = Ok m
       ∧ width m = width r ∧ height m = height r
       ∧ ∀ x y, getpixel m x y
                = (rv ← getpixel r x y; gv ← getpixel g x y;
                   bv ← getpixel b x y; Some (rv, gv, bv)).
Proof.
  intros Hr Hg Hb W1 W2 H1 H2. unfold Image_merge.
  rewrite bool_decide_eq_true_2 by done.
  eexists. split; [done|]. simpl. split_and!; try done.
  intros x y. unfold getpixel, in_boundsb. simpl.
  rewrite <- W2, <- W1, <- H2, <- H1.
  destruct (_ && _); [|done]. simpl.
  rewrite !lookup_zip_with.
  destruct (rows r !! Z.to_nat y) as [rr|]; [|done]. simpl.
  destruct (rows g !! Z.to_nat y) as [gr|]; simpl;
    [|by destruct (rr !! Z.to_nat x)].
  destruct (rows b !! Z.to_nat y) as [br|]; simpl;
    [|by destruct (rr !! Z.to_nat x), (gr !! Z.to_nat x)].
  rewrite !lookup_zip_with.
  destruct (rr !! Z.to_nat x) as [rv|]; [|done]. simpl.
  destruct (gr !! Z.to_nat x) as [gv|]; [|done]. simpl.
  destruct (br !! Z.to_nat x) as [bv|]; done.
Qed.

(** * The loops *)

Lemma for_range_invariant {St : Type} (I : nat → St → Prop)
    (body : Z → St → result St) (range : list Z) (s : St) :
  I 0%nat s →
  (∀ i k s, range !! i = Some k → I i s → ∃ s', body k s = Ok s' ∧ I (S i) s') →
  ∃ s', for_range body range s = Ok s' ∧ I (length range) s'.
Proof.
  revert I s. induction range as [|k range IH]; intros I s H0 Hstep.
  - exists s. done.
  - destruct (Hstep 0%nat k s eq_refl H0) as (s1 & Hs1 & H1).
    destruct (IH (λ i, I (S i)) s1 H1) as (s' & Hs' & Hend).
    { intros i k' s2 Hk' Hi. by apply (Hstep (S i)). }
    exists s'. simpl. rewrite Hs1. done.
Qed.

Section scan.
Variables (merged : image color) (bc1 bc2 : color) (W H : Z).
Hypothesis merged_total :
  ∀ x y, 0 ≤ x < W → 0 ≤ y < H → is_Some (scanned_pixel merged bc1 bc2 x y).

(** The state of the scan: an image of the size of the canvas. *)
#[local] Abbreviation scan_state res :=
  (wf_image res = true ∧ width res = W ∧ height res = H).

Lemma scan_step res x y :
  scan_state res → 0 ≤ x < W → 0 ≤ y < H →
  ∃ px res',
    scanned_pixel merged bc1 bc2 x y = Some px
    ∧ ('(r_val, g_val, _) ← getitem merged x y;
       px ← composite_pixel r_val g_val bc1 bc2;
       setitem res x y px) = Ok res'
    ∧ scan_state res'
    ∧ ∀ x' y', getpixel res' x' y'
               = if decide (x' = x ∧ y' = y) then Some px
                 else getpixel res x' y'.
Proof.
  intros (Hwf & Hw & Hh) Hx Hy.
  destruct (merged_total x y Hx Hy) as [px Hpx].
  unfold scanned_pixel in Hpx |- *. unfold getitem.
  destruct (getpixel merged x y) as [[[r_val g_val] b_val]|]; [|done].
  destruct (composite_pixel r_val g_val bc1 bc2) as [px'|] eqn:Epx; [|done].
  injection Hpx as ->.
  destruct (setitem_spec res x y px Hwf) as (res' & Hset & Hw' & Hh' & Hwf' & Hget).
  { unfold in_bounds. lia. }
  exists px, res'. split_and!; try done; try congruence.
  cbn beta iota. rewrite bind_Ok. cbn beta iota. rewrite Epx, bind_Ok. done.
Qed.

Lemma scan_row res0 y :
  scan_state res0 → 0 ≤ y < H →
  ∃ res,
    for_range (λ x res,
      '(r_val, g_val, _) ← getitem merged x y;
      px ← composite_pixel r_val g_val bc1 bc2;
      setitem res x y px) (seqZ 0 W) res0 = Ok res
    ∧ scan_state res
    ∧ ∀ x' y', getpixel res x' y'
               = if decide (y' = y ∧ 0 ≤ x' < W)
                 then scanned_pixel merged bc1 bc2 x' y'
                 else getpixel res0 x' y'.
Proof.
  intros Hst Hy.
  destruct (for_range_invariant
    (λ i res, scan_state res
       ∧ ∀ x' y', getpixel res x' y'
                  = if decide (y' = y ∧ 0 ≤ x' < Z.of_nat i)
                    then scanned_pixel merged bc1 bc2 x' y'
                    else getpixel res0 x' y')
    (λ x res,
      '(r_val, g_val, _) ← getitem merged x y;
      px ← composite_pixel r_val g_val bc1 bc2;
      setitem res x y px) (seqZ 0 W) res0) as (res & Hres & (? & ? & ?) & Hget).
  - split; [done|]. intros x' y'. rewrite decide_False by lia. done.
  - intros i k res [-> Hk]%lookup_seqZ [Hst' Hget].
    destruct (scan_step res (0 + Z.of_nat i) y Hst' ltac:(lia) Hy)
      as (px & res' & Hpx & Hbody & (? & ? & ?) & Hget').
    exists res'. split_and!; try done.
    intros x' y'. rewrite Hget', Hget.
    destruct (decide (x' = 0 + Z.of_nat i ∧ y' = y)) as [[-> ->]|Hne].
    + rewrite decide_True by lia. done.
    + destruct (decide (y' = y ∧ 0 ≤ x' < Z.of_nat i)) as [[-> ?]|?].
      * rewrite decide_True by lia. done.
      * rewrite decide_False by lia. done.
  - exists res. rewrite length_seqZ in Hget.
    destruct (Z.le_gt_cases 0 W).
    + rewrite Z2Nat.id in Hget by done. split_and!; done.
    + split_and!; try done. intros x' y'. rewrite Hget.
      rewrite !decide_False by lia. done.
Qed.

Lemma pixel_scan_spec res0 :
  scan_state res0 →
  ∃ res,
    pixel_scan merged bc1 bc2 W H res0 = Ok res
    ∧ scan_state res
    ∧ ∀ x y, getpixel res x y
             = if decide (0 ≤ y < H ∧ 0 ≤ x < W)
               then scanned_pixel merged bc1 bc2 x y
               else getpixel res0 x y.
Proof.
  intros Hst. unfold pixel_scan.
  destruct (for_range_invariant
    (λ j res, scan_state res
       ∧ ∀ x y, getpixel res x y
                = if decide (0 ≤ y < Z.of_nat j ∧ 0 ≤ x < W)
                  then scanned_pixel merged bc1 bc2 x y
                  else getpixel res0 x y)
    (λ y res, for_range (λ x res,
      '(r_val, g_val, _) ← getitem merged x y;
      px ← composite_pixel r_val g_val bc1 bc2;
      setitem res x y px) (seqZ 0 W) res) (seqZ 0 H) res0)
    as (res & Hres & (? & ? & ?) & Hget).
  - split; [done|]. intros x y. rewrite decide_False by lia. done.
  - intros j k res [-> Hk]%lookup_seqZ [Hst' Hget].
    destruct (scan_row res (0 + Z.of_nat j) Hst' ltac:(lia))
      as (res' & Hrow & (? & ? & ?) & Hget').
    exists res'. split_and!; try done.
    intros x y. rewrite Hget', Hget.
    destruct (decide (y = 0 + Z.of_nat j ∧ 0 ≤ x < W)) as [[-> ?]|Hne].
    + rewrite decide_True by lia. done.
    + destruct (decide (0 ≤ y < Z.of_nat j ∧ 0 ≤ x < W)) as [?|?].
      * rewrite decide_True by lia. done.
      * rewrite decide_False by lia. done.
  - exists res. rewrite length_seqZ in Hget.
    destruct (Z.le_gt_cases 0 H).
    + rewrite Z2Nat.id in Hget by done. split_and!; done.
    + split_and!; try done. intros x y. rewrite Hget.
      rewrite !decide_False by lia. done.
Qed.

End scan.

(** * The composited image *)

Lemma all_pixels_getpixel {A} (P : A → bool) (im : image A) x y v :
  all_pixels P im = true → getpixel im x y = Some v → P v = true.
Proof.
  unfold all_pixels, getpixel. intros Hall.
  destruct (in_boundsb im x y); [|done].
  destruct (rows im !! Z.to_nat y) as [row|] eqn:Hrow; [|done]. simpl.
  intros Hv.
  apply Is_true_true, forallb_True in Hall.
  pose proof (Forall_lookup_1 _ _ _ _ Hall Hrow) as Hr. simpl in Hr.
  apply forallb_True in Hr.
  apply Is_true_true. exact (Forall_lookup_1 _ _ _ _ Hr Hv).
Qed.

Lemma valid_gray_spec (im : image Z) :
  valid_gray im = true →
  wf_image im = true
  ∧ (∀ x y v, getpixel im x y = Some v → 0 ≤ v ≤ 255)
  ∧ width im < size_limit ∧ height im < size_limit.
Proof.
  unfold valid_gray. rewrite !andb_true_iff, !bool_decide_eq_true.
  intros [[[Hwf Hall] Hw] Hh]. split_and!; try done.
  intros x y v Hv. pose proof (all_pixels_getpixel _ _ _ _ _ Hall Hv) as Hb.
  by apply bool_decide_eq_true in Hb.
Qed.

Lemma valid_colorb_spec c : valid_colorb c = true → valid_color c.
Proof.
  unfold valid_colorb, valid_color, in_byte.
  rewrite !andb_true_iff, !bool_decide_eq_true. tauto.
Qed.

(** The scan of two layers of one size ends, and leaves at every place the
    pixel composed from the two intensities at that place. *)
Lemma composite_layers_spec base1 base2 bc1 bc2 :
  valid_gray base1 = true → valid_gray base2 = true →
  width base1 = width base2 → height base1 = height base2 →
  valid_color bc1 → valid_color bc2 →
  ∃ res, composite_layers base1 base2 bc1 bc2 = Ok res
    ∧ wf_image res = true
    ∧ width res = width base1 ∧ height res = height base1
    ∧ ∀ x y, in_bounds res x y →
        ∃ r_val g_val px,
          getpixel base1 x y = Some r_val ∧ getpixel base2 x y = Some g_val
          ∧ composite_pixel r_val g_val bc1 bc2 = Ok px
          ∧ getpixel res x y = Some px.
Proof.
  intros (Hwf1 & Hb1 & _)%valid_gray_spec (Hwf2 & Hb2 & _)%valid_gray_spec
    HW HH Hc1 Hc2.
  pose proof Hwf1 as (Hw0 & Hh0 & _)%wf_image_spec.
  unfold composite_layers.
  destruct (Image_merge_spec base1 base2 (Image_new (width base1) (height base1) 0))
    as (merged & -> & Hmw & Hmh & Hmget); try done.
  { by apply wf_new. }
  rewrite bind_Ok.
  assert (∀ x y, 0 ≤ x < width base1 → 0 ≤ y < height base1 →
            ∃ r_val g_val px,
              getpixel base1 x y = Some r_val ∧ getpixel base2 x y = Some g_val
              ∧ composite_pixel r_val g_val bc1 bc2 = Ok px
              ∧ scanned_pixel merged bc1 bc2 x y = Some px) as Hpix.
  { intros x y Hx Hy.
    destruct (getpixel_is_Some base1 x y Hwf1) as [r_val Hr]; [done|].
    destruct (getpixel_is_Some base2 x y Hwf2) as [g_val Hg].
    { unfold in_bounds. lia. }
    pose proof (composite_pixel_value r_val g_val bc1 bc2
                  (Hb1 _ _ _ Hr) (Hb2 _ _ _ Hg) Hc1 Hc2) as Hpx.
    eexists r_val, g_val, _. split_and!; try done.
    unfold scanned_pixel. rewrite Hmget, Hr, Hg, getpixel_new.
    rewrite bool_decide_eq_true_2 by done. simpl. by rewrite Hpx. }
  destruct (pixel_scan_spec merged bc1 bc2 (width base1) (height base1))
    with (res0 := Image_new (width base1) (height base1) (0, 0, 0, 0))
    as (res & -> & (Hwf & Hw & Hh) & Hget).
  { intros x y Hx Hy. destruct (Hpix x y Hx Hy) as (? & ? & px & _ & _ & _ & ->).
    by exists px. }
  { split_and!; [by apply wf_new|done..]. }
  exists res. split_and!; try done.
  intros x y [Hx Hy]. rewrite Hw in Hx. rewrite Hh in Hy.
  destruct (Hpix x y Hx Hy) as (r_val & g_val & px & ? & ? & ? & Hs).
  exists r_val, g_val, px. split_and!; try done.
  rewrite Hget, decide_True by lia. done.
Qed.

(** For layers of one size the scan ends, and the pixel it leaves at a
    place is [composite_pixel] of the two intensities at that place and of
    the two colours; so two scans whose layers agree at a place agree on the
    pixel there. *)
Lemma composite_layers_pixelwise base1 base2 bc1 bc2 :
  valid_gray base1 = true → valid_gray base2 = true →
  width base1 = width base2 → height base1 = height base2 →
  valid_colorb bc1 = true → valid_colorb bc2 = true →
  ∃ res, composite_layers base1 base2 bc1 bc2 = Ok res
    ∧ width res = width base1 ∧ height res = height base1
    ∧ (∀ x y, in_bounds res x y →
         ∃ r_val g_val px,
           getpixel base1 x y = Some r_val ∧ getpixel base2 x y = Some g_val
           ∧ composite_pixel r_val g_val bc1 bc2 = Ok px
           ∧ getpixel res x y = Some px)
    ∧ (∀ base1' base2',
         valid_gray base1' = true → valid_gray base2' = true →
         width base1' = width base1 → height base1' = height base1 →
         width base2' = width base1 → height base2' = height base1 →
         ∃ res', composite_layers base1' base2' bc1 bc2 = Ok res'
           ∧ ∀ x y, getpixel base1' x y = getpixel base1 x y →
                    getpixel base2' x y = getpixel base2 x y →
                    getpixel res' x y = getpixel res x y).
Proof.
  intros Hv1 Hv2 HW HH Hc1%valid_colorb_spec Hc2%valid_colorb_spec.
  destruct (composite_layers_spec base1 base2 bc1 bc2)
    as (res & Hres & Hwf & Hw & Hh & Hpix); try done.
  exists res. split_and!; try done.
  intros base1' base2' Hv1' Hv2' HW1 HH1 HW2 HH2.
  destruct (composite_layers_spec base1' base2' bc1 bc2)
    as (res' & Hres' & Hwf' & Hw' & Hh' & Hpix'); try congruence.
  exists res'. split; [done|]. intros x y E1 E2.
  destruct (decide (in_bounds res x y)) as [Hin|Hout].
  - assert (in_bounds res' x y) as Hin'.
    { unfold in_bounds in *. rewrite Hw', Hh', HW1, HH1, <- Hw, <- Hh. done. }
    destruct (Hpix x y Hin) as (r & g & px & Hr & Hg & Hpx & ->).
    destruct (Hpix' x y Hin') as (r' & g' & px' & Hr' & Hg' & Hpx' & ->).
    congruence.
  - rewrite !getpixel_out_of_bounds; [done|done|].
    unfold in_bounds in *. rewrite Hw', Hh', HW1, HH1, <- Hw, <- Hh. done.
Qed.

(** * The border *)

Lemma add_border_interior (result_image : image rgba) x y :
  wf_image result_image = true → in_bounds result_image x y →
  getpixel (add_border result_image) (x + 1) (y + 1) = getpixel result_image x y.
Proof.
  intros Hwf Hin. unfold add_border. rewrite getpixel_paste, getpixel_new.
  destruct Hin as [Hx Hy]. rewrite bool_decide_eq_true_2 by lia. simpl.
  replace (x + 1 - 1) with x by lia. replace (y + 1 - 1) with y by lia.
  destruct (getpixel_is_Some result_image x y Hwf) as [v ->]; done.
Qed.

(** C5: the bordered image is two pixels wider and higher than the
    composited image, every pixel of its outer ring has alpha 0, and its
    interior is the composited image moved by (1, 1). *)
Theorem add_border_spec (result_image : image rgba) :
  wf_image result_image = true →
  width (add_border result_image) = width result_image + 2
  ∧ height (add_border result_image) = height result_image + 2
  ∧ (∀ x y, in_bounds (add_border result_image) x y →
       x = 0 ∨ y = 0 ∨ x = width result_image + 1 ∨ y = height result_image + 1 →
       ∃ px, getpixel (add_border result_image) x y = Some px ∧ alpha_of px = 0)
  ∧ (∀ x y, in_bounds result_image x y →
       getpixel (add_border result_image) (x + 1) (y + 1)
       = getpixel result_image x y
       ∧ is_Some (getpixel result_image x y)).
Proof.
  intros Hwf. split_and!; try done.
  - intros x y [Hx Hy] Hring. simpl in Hx, Hy.
    unfold add_border. rewrite getpixel_paste, getpixel_new.
    rewrite bool_decide_eq_true_2 by done. simpl.
    rewrite getpixel_out_of_bounds; [by eexists|].
    unfold in_bounds. simpl. lia.
  - intros x y Hin. split; [by apply add_border_interior|].
    by apply getpixel_is_Some.
Qed.

Lemma add_border_spec_witness :
  width (add_border (Image 2 1 [[(1, 2, 3, 4); (5, 6, 7, 8)]])) = 2 + 2
  ∧ height (add_border (Image 2 1 [[(1, 2, 3, 4); (5, 6, 7, 8)]])) = 1 + 2
  ∧ (∀ x y, in_bounds (add_border (Image 2 1 [[(1, 2, 3, 4); (5, 6, 7, 8)]])) x y →
       x = 0 ∨ y = 0 ∨ x = 2 + 1 ∨ y = 1 + 1 →
       ∃ px, getpixel (add_border (Image 2 1 [[(1, 2, 3, 4); (5, 6, 7, 8)]])) x y
             = Some px ∧ alpha_of px = 0)
  ∧ (∀ x y, in_bounds (Image 2 1 [[(1, 2, 3, 4); (5, 6, 7, 8)]]) x y →
       getpixel (add_border (Image 2 1 [[(1, 2, 3, 4); (5, 6, 7, 8)]])) (x + 1) (y + 1)
       = getpixel (Image 2 1 [[(1, 2, 3, 4); (5, 6, 7, 8)]]) x y
       ∧ is_Some (getpixel (Image 2 1 [[(1, 2, 3, 4); (5, 6, 7, 8)]]) x y)).
Proof.
  apply (add_border_spec (Image 2 1 [[(1, 2, 3, 4); (5, 6, 7, 8)]])). reflexivity.
Defined.

(** * The canvas *)

Section canvas.
Import Float FloatFacts.

Lemma size_digits k : 0 ≤ k < size_limit → Zdigits2 k ≤ 53.
Proof.
  intros Hk. etrans; [apply (Zdigits2_le_of_lt k 31); [lia|done]|lia].
Qed.

Lemma int_truediv_2_round k :
  0 ≤ k < size_limit →
  ∃ q, int_truediv k 2 = Ok q ∧ py_round q = Ok (rhe_div k 2).
Proof.
  intros Hk. unfold int_truediv. rewrite bool_decide_eq_false_2 by done.
  rewrite (of_int_small k), bind_Ok by by apply size_digits.
  change (of_int 2) with (Ok f_2_0). rewrite bind_Ok.
  rewrite truediv_2 by (try apply size_digits; lia).
  eexists. split; [done|].
  rewrite py_round_dyadic by (try apply size_digits; lia). done.
Qed.

Lemma rhe_div_2_le k : 0 ≤ k → 0 ≤ rhe_div k 2 ≤ k.
Proof.
  intros Hk. pose proof (rhe_div_2_bounds k Hk).
  assert ((k + 1) / 2 ≤ k); [|lia].
  destruct (Z.eq_dec k 0) as [->|]; [done|].
  apply Z.div_le_upper_bound; lia.
Qed.

Lemma center_offset_value W H (img : image Z) :
  0 ≤ W - width img < size_limit → 0 ≤ H - height img < size_limit →
  center_offset W H img
  = Ok (Spec.center_offset W (width img), Spec.center_offset H (height img)).
Proof.
  intros HW HH. unfold center_offset.
  destruct (int_truediv_2_round _ HW) as (qx & -> & EW).
  destruct (int_truediv_2_round _ HH) as (qy & -> & EH).
  rewrite bind_Ok, EW, bind_Ok, bind_Ok, EH, bind_Ok. done.
Qed.

(** C6: the canvas has the larger width and the larger height; image1 lies
    on a canvas of intensity 0 and image2 on one of intensity 255, each at
    the offset [round((canvasDim - imgDim) / 2)] with ties to even on both
    axes, wholly inside the canvas; every other place keeps the fill. *)
Theorem canvas_layers_centered img1 img2 :
  valid_gray img1 = true → valid_gray img2 = true →
  ∃ base1 base2,
    canvas_layers img1 img2 = Ok (base1, base2)
    ∧ width base1 = Z.max (width img1) (width img2)
    ∧ height base1 = Z.max (height img1) (height img2)
    ∧ width base2 = Z.max (width img1) (width img2)
    ∧ height base2 = Z.max (height img1) (height img2)
    ∧ (∀ x y, in_bounds base1 x y →
         getpixel base1 x y
         = Some (default 0
                   (getpixel img1
                      (x - Spec.center_offset (width base1) (width img1))
                      (y - Spec.center_offset (height base1) (height img1)))))
    ∧ (∀ x y, in_bounds base2 x y →
         getpixel base2 x y
         = Some (default 255
                   (getpixel img2
                      (x - Spec.center_offset (width base2) (width img2))
                      (y - Spec.center_offset (height base2) (height img2)))))
    ∧ 0 ≤ Spec.center_offset (width base1) (width img1)
          ≤ width base1 - width img1
    ∧ 0 ≤ Spec.center_offset (height base1) (height img1)
          ≤ height base1 - height img1
    ∧ 0 ≤ Spec.center_offset (width base2) (width img2)
          ≤ width base2 - width img2
    ∧ 0 ≤ Spec.center_offset (height base2) (height img2)
          ≤ height base2 - height img2.
Proof.
  intros (Hwf1 & _ & Hw1 & Hh1)%valid_gray_spec
    (Hwf2 & _ & Hw2 & Hh2)%valid_gray_spec.
  pose proof Hwf1 as (? & ? & _)%wf_image_spec.
  pose proof Hwf2 as (? & ? & _)%wf_image_spec.
  unfold canvas_layers.
  set (cw := Z.max (width img1) (width img2)).
  set (ch := Z.max (height img1) (height img2)).
  rewrite !center_offset_value by lia. rewrite !bind_Ok.
  eexists _, _. split; [done|]. simpl.
  split_and!; try done;
    try (unfold Spec.center_offset; apply rhe_div_2_le; lia).
  - intros x y [Hx Hy]. simpl in Hx, Hy.
    rewrite getpixel_paste, getpixel_new, bool_decide_eq_true_2 by done. done.
  - intros x y [Hx Hy]. simpl in Hx, Hy.
    rewrite getpixel_paste, getpixel_new, bool_decide_eq_true_2 by done. done.
Qed.

Lemma canvas_layers_centered_witness :
  ∃ base1 base2,
    canvas_layers (Image 1 1 [[7]]) (Image 4 2 [[1; 2; 3; 4]; [5; 6; 7; 8]])
    = Ok (base1, base2)
    ∧ width base1 = 4 ∧ height base1 = 2 ∧ width base2 = 4 ∧ height base2 = 2
    ∧ getpixel base1 2 0 = Some 7 ∧ getpixel base1 1 0 = Some 0
    ∧ getpixel base2 3 1 = Some 8.
Proof.
  destruct (canvas_layers_centered (Image 1 1 [[7]])
              (Image 4 2 [[1; 2; 3; 4]; [5; 6; 7; 8]]))
    as (base1 & base2 & E & W1 & H1 & W2 & H2 & G1 & G2 & _);
    [reflexivity..|].
  simpl in W1, H1, W2, H2.
  exists base1, base2. split_and!; try done.
  - rewrite G1, W1, H1 by (unfold in_bounds; rewrite W1, H1; lia). reflexivity.
  - rewrite G1, W1, H1 by (unfold in_bounds; rewrite W1, H1; lia). reflexivity.
  - rewrite G2, W2, H2 by (unfold in_bounds; rewrite W2, H2; lia). reflexivity.
Defined.

End canvas.

(** C10: with one colour [bc] for both backgrounds, [interpolate] returns
    [bc] for every finite fraction, and every pixel of the composited image,
    which is the interior of the bordered image, has the colour [bc]. *)
Theorem same_background_color bc :
  valid_color bc →
  (∀ t, Float.is_finite t = true → interpolate t bc bc = Ok bc)
  ∧ (∀ base1 base2,
       valid_gray base1 = true → valid_gray base2 = true →
       width base1 = width base2 → height base1 = height base2 →
       ∃ res, composite_layers base1 base2 bc bc = Ok res
         ∧ ∀ x y, in_bounds res x y →
             ∃ px, getpixel res x y = Some px ∧ rgb_of px = bc
                   ∧ getpixel (add_border res) (x + 1) (y + 1) = Some px).
Proof.
  intros Hc. split.
  - intros t Ht. by apply interpolate_same_color.
  - intros base1 base2 Hv1 Hv2 HW HH.
    destruct (composite_layers_spec base1 base2 bc bc)
      as (res & Hres & Hwf & Hw & Hh & Hpix); try done.
    exists res. split; [done|]. intros x y Hin.
    destruct (Hpix x y Hin) as (r & g & px & Hr & Hg & Hpx & Hget).
    apply valid_gray_spec in Hv1 as (_ & Hb1 & _).
    apply valid_gray_spec in Hv2 as (_ & Hb2 & _).
    rewrite composite_pixel_same_color in Hpx by eauto.
    injection Hpx as <-. exists (bc, Float.rhe_div (255 - g + r) 2).
    split_and!; try done. by rewrite add_border_interior.
Qed.

Lemma same_background_color_witness :
  (∀ t, Float.is_finite t = true →
        interpolate t (10, 20, 30) (10, 20, 30) = Ok (10, 20, 30))
  ∧ (∀ base1 base2,
       valid_gray base1 = true → valid_gray base2 = true →
       width base1 = width base2 → height base1 = height base2 →
       ∃ res, composite_layers base1 base2 (10, 20, 30) (10, 20, 30) = Ok res
         ∧ ∀ x y, in_bounds res x y →
             ∃ px, getpixel res x y = Some px ∧ rgb_of px = (10, 20, 30)
                   ∧ getpixel (add_border res) (x + 1) (y + 1) = Some px).
Proof.
  apply (same_background_color (10, 20, 30)).
  unfold valid_color, in_byte; simpl; lia.
Defined.

(** * The loader *)

(** A paste without a mask over a background of the size of the source
    leaves the source. *)
Lemma paste_covers {A} (src : image A) (fill : A) :
  wf_image src = true →
  paste (Image_new (width src) (height src) fill) src (0, 0) = src.
Proof.
  intros Hwf. pose proof Hwf as (Hw & Hh & Hlen & Hrows)%wf_image_spec.
  destruct src as [w h rs]. unfold paste, image_imap, Image_new. simpl in *.
  f_equal. apply list_eq. intros i. rewrite list_lookup_imap.
  destruct (decide (i < Z.to_nat h)%nat) as [Hi|Hi].
  - rewrite lookup_replicate_2 by done. simpl.
    destruct (lookup_lt_is_Some_2 rs i) as [row Hrow]; [lia|].
    rewrite Hrow. f_equal.
    pose proof (Forall_lookup_1 _ _ _ _ Hrows Hrow) as Hl. simpl in Hl.
    apply list_eq. intros j. rewrite list_lookup_imap.
    destruct (decide (j < Z.to_nat w)%nat) as [Hj|Hj].
    + rewrite lookup_replicate_2 by done. simpl.
      destruct (lookup_lt_is_Some_2 row j) as [v Hv]; [lia|].
      rewrite Hv. f_equal.
      unfold getpixel, in_boundsb. simpl.
      rewrite !bool_decide_eq_true_2 by lia. simpl.
      rewrite !Z.sub_0_r, !Nat2Z.id, Hrow. simpl. by rewrite Hv.
    + rewrite (proj1 (lookup_replicate_None _ _ _)) by lia. simpl.
      symmetry. apply lookup_ge_None. lia.
  - rewrite (proj1 (lookup_replicate_None _ _ _)) by lia. simpl.
    symmetry. apply lookup_ge_None. lia.
Qed.

(** Where Pillow refuses the image as a mask, the flattened image is the
    image itself. *)
Lemma flatten_refused_mask_as_is (img : source_image) :
  wf_image (to_rgb img) = true →
  (∃ e, mask_of img = Raise e) →
  flatten_onto_white img = to_rgb img.
Proof.
  intros Hwf [e He]. unfold flatten_onto_white. rewrite He. simpl.
  by apply paste_covers.
Qed.

Lemma flatten_rgb_as_is (im : image color) :
  wf_image im = true → flatten_onto_white (ModeRGB im) = im.
Proof. intros. apply (flatten_refused_mask_as_is (ModeRGB im)); simpl; eauto. Qed.

(** C4: a grayscale source (mode ["L"], no alpha channel) is not used as it
    is: Pillow accepts it as its own mask, so each pixel is blended with
    white by its own intensity; black becomes white and 128 becomes 191. *)
Theorem flatten_changes_grayscale :
  has_alpha (ModeL (Image 2 1 [[0; 128]])) = false
  ∧ to_rgb (ModeL (Image 2 1 [[0; 128]]))
    = Image 2 1 [[(0, 0, 0); (128, 128, 128)]]
  ∧ flatten_onto_white (ModeL (Image 2 1 [[0; 128]]))
    = Image 2 1 [[(255, 255, 255); (191, 191, 191)]]
  ∧ flatten_onto_white (Mode1 (Image 2 1 [[false; true]]))
    = Image 2 1 [[(255, 255, 255); (255, 255, 255)]].
Proof. split_and!; reflexivity. Qed.

(** * The program *)

(** C3: when the image cannot be written the error is printed, but the
    program returns normally: the exit status is 0. *)
Theorem save_failure_exits_zero :
  Image_save sample_world
    (Image 4 3 (replicate 3 (replicate 4 (0, 0, 0, 0)))) "out.xyz"
  = Raise (OtherError "unknown file extension")
  ∧ run sample_world (sample_arguments "a.png" "out.xyz" "#000")
    = (Ok (),
       [MsgStart; MsgLoading1 "a.png"; MsgLoading2 "b.png";
        MsgBackground1 (0, 0, 0); MsgBackground2 (255, 255, 255);
        MsgCanvas 2 1; MsgMerging; MsgScan; MsgComplete; MsgBorder;
        MsgSaving; MsgSaveError (OtherError "unknown file extension")])
  ∧ exit_code (run sample_world (sample_arguments "a.png" "out.xyz" "#000")).1
    = 0.
Proof. split_and!; vm_compute; reflexivity. Qed.

(** The same holds of every run: once the scan is over, a failed save
    prints its error and the handler falls through to the end of
    [composite_images]. *)
Lemma try_save_exit_code (w : world) (bordered : image rgba) (path : string)
    (out : list line) (e : exn) :
  Image_save w bordered path = Raise e → is_Exception e = true →
  try_except
    (lift (Image_save w bordered path);; print (MsgSuccess path))
    (λ e, print (MsgSaveError e)) out
  = (Ok (), out ++ [MsgSaveError e]).
Proof.
  intros Hsave He. unfold try_except, mbind, prog_bind, lift.
  rewrite Hsave, He. done.
Qed.

(** C7, as the program runs: an invalid colour string is rejected only
    after both images have been loaded. With a missing first image the
    colour is never looked at; with both images present the two loading
    lines precede the diagnostic. *)
Lemma invalid_color_rejected_after_loading :
  ImageColor_getrgb sample_world "notacolor" = None
  ∧ run sample_world (sample_arguments "missing.png" "out.png" "notacolor")
    = (Raise (SystemExit 1),
       [MsgStart; MsgLoading1 "missing.png"; MsgNotFound "missing.png"])
  ∧ run sample_world (sample_arguments "a.png" "out.png" "notacolor")
    = (Raise (SystemExit 1),
       [MsgStart; MsgLoading1 "a.png"; MsgLoading2 "b.png";
        MsgInvalidColor "notacolor"]).
Proof. split_and!; vm_compute; reflexivity. Qed.

Lemma load_and_prepare_image_opened w image_path size src img out :
  Image_open w image_path = Ok src →
  Image_thumbnail w size (convert_L (flatten_onto_white src)) = Ok img →
  load_and_prepare_image w image_path size out = (Ok img, out).
Proof.
  intros Hopen Hthumb. unfold load_and_prepare_image, mbind, prog_bind, lift.
  rewrite Hopen. simpl. by rewrite Hthumb.
Qed.

Lemma hex_to_rgb_invalid w hex_str out :
  ImageColor_getrgb w hex_str = None →
  hex_to_rgb w hex_str out
  = (Raise (SystemExit 1), out ++ [MsgInvalidColor hex_str]).
Proof. intros H. unfold hex_to_rgb. rewrite H. done. Qed.

Lemma hex_to_rgb_valid w hex_str c out :
  ImageColor_getrgb w hex_str = Some c → hex_to_rgb w hex_str out = (Ok c, out).
Proof. intros H. unfold hex_to_rgb. rewrite H. done. Qed.

(** C7, amended: when both images load, an invalid colour string ends the
    program with exit status 1 and the diagnostic as its last line, printed
    after the two loading lines and before anything is composited; [#FFF]
    and [#FFFFFF] read as white, and [notacolor] is refused whenever the
    library has no other reading of it. *)
Theorem invalid_color_exits_after_loading w args src1 src2 img1 img2 :
  Image_open w (image1 args) = Ok src1 →
  Image_thumbnail w (size args) (convert_L (flatten_onto_white src1)) = Ok img1 →
  Image_open w (image2 args) = Ok src2 →
  Image_thumbnail w (size args) (convert_L (flatten_onto_white src2)) = Ok img2 →
  (ImageColor_getrgb w (color1 args) = None →
   run w args
   = (Raise (SystemExit 1),
      [MsgStart; MsgLoading1 (image1 args); MsgLoading2 (image2 args);
       MsgInvalidColor (color1 args)])
   ∧ exit_code (run w args).1 = 1)
  ∧ (∀ bc1, ImageColor_getrgb w (color1 args) = Some bc1 →
       ImageColor_getrgb w (color2 args) = None →
       run w args
       = (Raise (SystemExit 1),
          [MsgStart; MsgLoading1 (image1 args); MsgLoading2 (image2 args);
           MsgInvalidColor (color2 args)])
       ∧ exit_code (run w args).1 = 1)
  ∧ ImageColor_getrgb w "#FFF" = Some (255, 255, 255)
  ∧ ImageColor_getrgb w "#FFFFFF" = Some (255, 255, 255)
  ∧ (getrgb_other w "notacolor" = None →
     ImageColor_getrgb w "notacolor" = None).
Proof.
  intros H1 T1 H2 T2.
  split_and!; try done.
  - intros Hc1.
    assert (run w args
            = (Raise (SystemExit 1),
               [MsgStart; MsgLoading1 (image1 args); MsgLoading2 (image2 args);
                MsgInvalidColor (color1 args)])) as ->; [|done].
    unfold run, main, composite_images, mbind, prog_bind, print.
    rewrite (load_and_prepare_image_opened _ _ _ _ _ _ H1 T1).
    rewrite (load_and_prepare_image_opened _ _ _ _ _ _ H2 T2).
    rewrite (hex_to_rgb_invalid _ _ _ Hc1). done.
  - intros bc1 Hc1 Hc2.
    assert (run w args
            = (Raise (SystemExit 1),
               [MsgStart; MsgLoading1 (image1 args); MsgLoading2 (image2 args);
                MsgInvalidColor (color2 args)])) as ->; [|done].
    unfold run, main, composite_images, mbind, prog_bind, print.
    rewrite (load_and_prepare_image_opened _ _ _ _ _ _ H1 T1).
    rewrite (load_and_prepare_image_opened _ _ _ _ _ _ H2 T2).
    rewrite (hex_to_rgb_valid _ _ _ _ Hc1).
    rewrite (hex_to_rgb_invalid _ _ _ Hc2). done.
Qed.

Lemma invalid_color_exits_after_loading_witness :
  run sample_world (sample_arguments "a.png" "out.png" "notacolor")
  = (Raise (SystemExit 1),
     [MsgStart; MsgLoading1 "a.png"; MsgLoading2 "b.png";
      MsgInvalidColor "notacolor"])
  ∧ exit_code (run sample_world (sample_arguments "a.png" "out.png" "notacolor")).1
    = 1.
Proof.
  apply (invalid_color_exits_after_loading sample_world
           (sample_arguments "a.png" "out.png" "notacolor")
           (ModeL (Image 1 1 [[0]]))
           (ModeRGB (Image 2 1 [[(10, 20, 30); (255, 255, 255)]]))
           (Image 1 1 [[255]]) (Image 2 1 [[18; 255]]));
    reflexivity.
Defined.

(** ** The exit status after a failed save, on every input *)

Section save_error.

(** [m] prints no save error. *)
#[local] Abbreviation silent m :=
  (∀ out r out' e, m out = (r, out') → MsgSaveError e ∈ out' → MsgSaveError e ∈ out).

(** Whenever [m] prints a save error, it returns normally. *)
#[local] Abbreviation returns_if_reported m :=
  (∀ out r out' e, m out = (r, out') → MsgSaveError e ∉ out →
     MsgSaveError e ∈ out' → exit_code r = 0).

Lemma returns_if_reported_bind {A B} (m : prog A) (k : A → prog B) :
  silent m → (∀ a, returns_if_reported (k a)) → returns_if_reported (m ≫= k).
Proof.
  intros Hm Hk out r out' e. unfold mbind, prog_bind.
  destruct (m out) as [[a|e'] out1] eqn:Em.
  - intros Ek Hout Hin. apply (Hk a out1 r out' e Ek); [|done].
    intros Hin1. apply Hout. by apply (Hm out (Ok a) out1 e).
  - intros [= <- <-] Hout Hin. destruct Hout. by apply (Hm out (Raise e') out1 e).
Qed.

Lemma silent_bind {A B} (m : prog A) (k : A → prog B) :
  silent m → (∀ a, silent (k a)) → silent (m ≫= k).
Proof.
  intros Hm Hk out r out' e. unfold mbind, prog_bind.
  destruct (m out) as [[a|e'] out1] eqn:Em.
  - intros Ek Hin. apply (Hm out (Ok a) out1 e Em). by apply (Hk a out1 r out' e).
  - intros [= <- <-] Hin. by apply (Hm out (Raise e') out1 e).
Qed.

Lemma silent_print l : (∀ e, l ≠ MsgSaveError e) → silent (print l).
Proof.
  intros Hl out r out' e [= <- <-] [Hin|Hin%list_elem_of_singleton]%elem_of_app;
    [done|]. by destruct (Hl e).
Qed.

Lemma silent_lift {A} (r : result A) : silent (lift r).
Proof. by intros out r' out' e [= <- <-]. Qed.

Lemma silent_ret {A} (a : A) : silent (mret a : prog A).
Proof. by intros out r' out' e [= <- <-]. Qed.

Lemma silent_load w image_path size :
  silent (load_and_prepare_image w image_path size).
Proof.
  intros out r out' e.
  unfold load_and_prepare_image, mbind, prog_bind, print, lift, sys_exit.
  destruct (Image_open w image_path) as [src|ex].
  - simpl. by intros [= <- <-].
  - destruct ex; simpl; intros [= <- <-] Hin; try done;
      by apply elem_of_app in Hin as [?|Hin%list_elem_of_singleton].
Qed.

Lemma silent_hex_to_rgb w hex_str : silent (hex_to_rgb w hex_str).
Proof.
  intros out r out' e.
  unfold hex_to_rgb, mbind, prog_bind, print, lift, sys_exit.
  destruct (ImageColor_getrgb w hex_str).
  - by intros [= <- <-].
  - simpl. intros [= <- <-] Hin.
    by apply elem_of_app in Hin as [?|Hin%list_elem_of_singleton].
Qed.

Lemma save_returns_if_reported w bordered path :
  returns_if_reported
    (try_except (lift (Image_save w bordered path);; print (MsgSuccess path))
       (λ e, print (MsgSaveError e))).
Proof.
  intros out r out' e. unfold try_except, mbind, prog_bind, lift, print.
  destruct (Image_save w bordered path) as [[]|e'].
  - intros [= <- <-] Hout [Hin|Hin%list_elem_of_singleton]%elem_of_app; done.
  - destruct (is_Exception e'); by intros [= <- <-].
Qed.

(** X18: Whatever the input, a run that reports a save error ends with exit
    status 0. *)
Lemma reported_save_error_exits_zero w args e :
  MsgSaveError e ∈ (run w args).2 → exit_code (run w args).1 = 0.
Proof.
  assert (returns_if_reported (composite_images w args)) as Hrep.
  { unfold composite_images.
    repeat first
      [ apply save_returns_if_reported
      | apply returns_if_reported_bind;
          [ first [ by apply silent_print | apply silent_load
                  | apply silent_hex_to_rgb | apply silent_lift ]
          | intros ? ]
      | match goal with |- context [let '(_, _) := ?p in _] => destruct p end ]. }
  intros Hin. destruct (run w args) as [r out'] eqn:Erun.
  exact (Hrep [] r out' e Erun (not_elem_of_nil _) Hin).
Qed.

End save_error.

(** * Rounding between two integers *)

Module FloatOrder.
Import Float FloatFacts.

(** ** What a right shift keeps *)

Lemma shr_1_value r : 0 ≤ shr_m r → shr_m (shr_1 r) = shr_m r / 2.
Proof.
  destruct r as [m rb sb]. cbn [shr_m]. intros Hm.
  destruct m as [|[p|p|]|p]; cbn [shr_1 shr_m];
    first [ reflexivity
          | apply Z.div_unique with (r := 1); lia
          | apply Z.div_unique with (r := 0); lia
          | lia ].
Qed.

Lemma iter_shr_1_value n : ∀ r,
  0 ≤ shr_m r → shr_m (iter_pos shr_1 n r) = shr_m r / 2 ^ Z.pos n.
Proof.
  induction n as [n IH|n IH|]; intros r Hr; simpl iter_pos.
  - destruct (shr_1_digits r Hr) as [H1 _].
    destruct (iter_shr_1_digits n _ H1) as [H2 _].
    rewrite IH, IH, shr_1_value by done.
    rewrite !Z.div_div by (try apply Z.pow_pos_nonneg; lia).
    f_equal. rewrite Pos2Z.inj_xI, Z.pow_add_r, Z.pow_mul_r by lia.
    change (2 ^ 2) with 4. change (2 ^ 1) with 2.
    replace (4 ^ Z.pos n) with (2 ^ Z.pos n * 2 ^ Z.pos n); [lia|].
    rewrite <- Z.pow_add_r by lia. change 4 with (2 ^ 2).
    rewrite <- Z.pow_mul_r by lia. f_equal. lia.
  - destruct (iter_shr_1_digits n _ Hr) as [H2 _].
    rewrite IH, IH by done.
    rewrite !Z.div_div by (try apply Z.pow_pos_nonneg; lia).
    f_equal. rewrite Pos2Z.inj_xO, <- Z.pow_add_r by lia. f_equal. lia.
  - by apply shr_1_value.
Qed.

Lemma shr_value r e n :
  0 ≤ shr_m r → shr_m (shr r e n).1 = shr_m r / 2 ^ Z.max 0 n.
Proof.
  intros Hr. destruct n as [|n|n]; simpl.
  - by rewrite Z.div_1_r.
  - by apply iter_shr_1_value.
  - by rewrite Z.div_1_r.
Qed.

(** A shift that drops only zero bits of an exact number stays exact. *)
Lemma shr_1_exact m :
  0 ≤ m → m mod 2 = 0 →
  shr_1 (Build_shr_record m false false) = Build_shr_record (m / 2) false false.
Proof.
  intros Hm Hmod. destruct m as [|[p|p|]|p]; cbn [shr_1]; try lia.
  - done.
  - exfalso. change (Z.pos p~1) with (2 * Z.pos p + 1) in Hmod.
    rewrite Z.add_comm, Z.mul_comm, Z.mod_add in Hmod by lia. discriminate.
  - f_equal. apply Z.div_unique with (r := 0); lia.
  - discriminate.
Qed.

Lemma iter_shr_1_exact_div n : ∀ m,
  0 ≤ m → m mod 2 ^ Z.pos n = 0 →
  iter_pos shr_1 n (Build_shr_record m false false)
  = Build_shr_record (m / 2 ^ Z.pos n) false false.
Proof.
  intros m Hm Hmod.
  assert (0 < 2 ^ Z.pos n) by (apply Z.pow_pos_nonneg; lia).
  assert (m = m / 2 ^ Z.pos n * 2 ^ Z.pos n) as Em.
  { pose proof (Z.div_mod m (2 ^ Z.pos n) ltac:(lia)). lia. }
  destruct (Z.eq_dec (m / 2 ^ Z.pos n) 0) as [E0|Hne].
  - assert (m = 0) as -> by lia. rewrite Z.div_0_l by lia.
    clear. induction n as [n IH|n IH|]; simpl; by rewrite ?IH.
  - destruct (m / 2 ^ Z.pos n) as [|q|q] eqn:Eq; [done| |].
    + assert (m = Z.pos (Pos.iter xO q n)) as ->
        by (rewrite Zpos_iter_xO; lia).
      apply iter_shr_1_exact.
    + pose proof (Z.div_pos m (2 ^ Z.pos n) Hm ltac:(lia)). lia.
Qed.

Lemma shr_exact m e n :
  0 ≤ m → m mod 2 ^ Z.max 0 n = 0 →
  (shr (Build_shr_record m false false) e n).1
  = Build_shr_record (m / 2 ^ Z.max 0 n) false false.
Proof.
  intros Hm Hmod. destruct n as [|n|n]; simpl in *.
  - by rewrite Z.div_1_r.
  - by apply iter_shr_1_exact_div.
  - by rewrite Z.div_1_r.
Qed.

Lemma round_nearest_even_cases m l :
  round_nearest_even m l = m ∨ round_nearest_even m l = m + 1.
Proof. destruct l as [|[]]; simpl; try destruct (Z.even m); auto. Qed.

(** ** Rounding keeps integer bounds *)

Lemma shift_between mx ex N A B δ :
  0 ≤ mx → 0 ≤ N → ex + N ≤ 0 → 0 ≤ δ →
  A * 2 ^ (- ex) ≤ mx → mx + δ ≤ B * 2 ^ (- ex) →
  A * 2 ^ (- (ex + N)) ≤ mx / 2 ^ N
  ∧ mx / 2 ^ N ≤ B * 2 ^ (- (ex + N))
  ∧ (δ = 1 ∨ mx mod 2 ^ N ≠ 0 → mx / 2 ^ N + 1 ≤ B * 2 ^ (- (ex + N))).
Proof.
  intros Hmx HN He Hδ HA HB.
  assert (2 ^ (- ex) = 2 ^ (- (ex + N)) * 2 ^ N) as EP.
  { rewrite <- Z.pow_add_r by lia. f_equal. lia. }
  assert (0 < 2 ^ N) as HQ by (apply Z.pow_pos_nonneg; lia).
  assert (0 < 2 ^ (- (ex + N))) as HP1 by (apply Z.pow_pos_nonneg; lia).
  rewrite EP in HA, HB.
  set (P1 := 2 ^ (- (ex + N))) in *. set (Q := 2 ^ N) in *.
  pose proof (Z.div_mod mx Q ltac:(lia)) as Hdm.
  pose proof (Z.mod_pos_bound mx Q HQ) as Hmod.
  set (m1 := mx / Q) in *. set (r := mx mod Q) in *.
  split_and!.
  - assert (A * P1 < m1 + 1); [|lia]. nia.
  - nia.
  - intros [->|Hr]; nia.
Qed.

Lemma small_exponent m e B :
  0 ≤ m → e ≤ 0 → B < 2 ^ 53 → m ≤ B * 2 ^ (- e) →
  fexp prec emax (Zdigits2 m + e) ≤ 0.
Proof.
  intros Hm He HB Hle.
  assert (0 < 2 ^ (- e)) by (apply Z.pow_pos_nonneg; lia).
  assert (Zdigits2 m ≤ 53 - e).
  { apply Zdigits2_le_of_lt; [lia|]. split; [done|].
    replace (53 - e) with (53 + - e) by lia. rewrite Z.pow_add_r by lia. nia. }
  unfold fexp, emin, prec, emax. lia.
Qed.

Lemma binary_round_aux_between s mx ex lx A B :
  0 ≤ mx → ex ≤ 0 → 0 ≤ A → B < 2 ^ 53 →
  A * 2 ^ (- ex) ≤ mx →
  mx + (if lx is loc_Exact then 0 else 1) ≤ B * 2 ^ (- ex) →
  match binary_round_aux prec emax s mx ex lx with
  | S754_zero _ => A = 0
  | S754_finite s' m e =>
      s' = s ∧ e ≤ 0 ∧ A * 2 ^ (- e) ≤ Z.pos m ≤ B * 2 ^ (- e)
  | _ => False
  end.
Proof.
  intros Hmx Hex HA HB HlA HlB.
  set (δ := if lx is loc_Exact then 0 else 1) in *.
  assert (0 ≤ δ ≤ 1) as Hδ by (unfold δ; destruct lx; lia).
  (* the first shift *)
  set (n1 := fexp prec emax (Zdigits2 mx + ex) - ex).
  pose proof (small_exponent mx ex B Hmx Hex HB ltac:(lia)) as Hf1.
  assert (ex + Z.max 0 n1 ≤ 0) as He1 by (unfold n1; lia).
  destruct (shift_between mx ex (Z.max 0 n1) A B δ) as (L1 & U1 & S1); try lia.
  pose proof (shr_digits (shr_record_of_loc mx lx) ex n1) as (H1 & E1 & _);
    [by rewrite shr_m_of_loc|].
  pose proof (shr_value (shr_record_of_loc mx lx) ex n1) as V1.
  rewrite shr_m_of_loc in V1. specialize (V1 Hmx).
  assert (lx = loc_Exact → mx mod 2 ^ Z.max 0 n1 = 0 →
          loc_of_shr_record (shr (shr_record_of_loc mx lx) ex n1).1 = loc_Exact)
    as X1.
  { intros -> Hmod. simpl shr_record_of_loc. by rewrite shr_exact. }
  unfold binary_round_aux. rewrite (shr_fexp_unfold mx ex lx). fold n1.
  destruct (shr (shr_record_of_loc mx lx) ex n1) as [r1 e1]. simpl in H1, E1, V1, X1.
  subst e1.
  (* rounding to nearest *)
  set (m2 := round_nearest_even (shr_m r1) (loc_of_shr_record r1)).
  assert (A * 2 ^ (- (ex + Z.max 0 n1)) ≤ m2 ≤ B * 2 ^ (- (ex + Z.max 0 n1))) as [L2 U2].
  { unfold m2. destruct (round_nearest_even_cases (shr_m r1) (loc_of_shr_record r1)) as [->| E].
    - lia.
    - rewrite E. split; [lia|]. rewrite V1. apply S1.
      destruct (decide (δ = 1)) as [|Hδ0]; [by left|right].
      intros Hmod. assert (lx = loc_Exact) as Hlx.
      { unfold δ in Hδ0. by destruct lx. }
      rewrite (X1 Hlx Hmod) in E. simpl in E. lia. }
  assert (0 ≤ m2) as Hm2.
  { assert (0 < 2 ^ (- (ex + Z.max 0 n1))) by (apply Z.pow_pos_nonneg; lia). nia. }
  (* the second shift *)
  set (e1 := ex + Z.max 0 n1) in *.
  set (n2 := fexp prec emax (Zdigits2 m2 + e1) - e1).
  pose proof (small_exponent m2 e1 B Hm2 He1 HB U2) as Hf2.
  assert (e1 + Z.max 0 n2 ≤ 0) as He3 by (unfold n2; lia).
  destruct (shift_between m2 e1 (Z.max 0 n2) A B 0) as (L3 & U3 & _); try lia.
  pose proof (shr_digits (shr_record_of_loc m2 loc_Exact) e1 n2) as (H3 & E3 & _);
    [by rewrite shr_m_of_loc|].
  pose proof (shr_value (shr_record_of_loc m2 loc_Exact) e1 n2) as V3.
  rewrite shr_m_of_loc in V3. specialize (V3 Hm2).
  rewrite shr_fexp_unfold. fold n2.
  destruct (shr (shr_record_of_loc m2 loc_Exact) e1 n2) as [r3 e3].
  simpl in H3, E3, V3. subst e3. rewrite <- V3 in L3, U3.
  assert (0 < 2 ^ (- (e1 + Z.max 0 n2))) by (apply Z.pow_pos_nonneg; lia).
  simpl. destruct (shr_m r3) as [|m|m]; [nia| |lia].
  fold_Z. destruct (Z.leb_spec (e1 + Z.max 0 n2) (emax - prec)) as [|Hgt].
  - done.
  - unfold emax, prec in Hgt. lia.
Qed.

(** ** The operations between integer bounds *)

Lemma between_weaken A B A' B' x : between A B x → A' ≤ A → B ≤ B' → between A' B' x.
Proof.
  destruct x as [| | |s m e]; simpl; try done; [lia|].
  intros (He & HA & HB) ? ?.
  assert (0 < 2 ^ (- e)) by (apply Z.pow_pos_nonneg; lia).
  split_and!; [done|nia..].
Qed.

Lemma between_finite A B x : between A B x → is_finite x = true.
Proof. by destruct x. Qed.

Lemma between_dyadic A B z e :
  Zdigits2 z ≤ 53 → e ≤ 0 → A * 2 ^ (- e) ≤ z ≤ B * 2 ^ (- e) →
  between A B (dyadic z e).
Proof.
  intros HD He [HA HB].
  assert (0 < 2 ^ (- e)) by (apply Z.pow_pos_nonneg; lia).
  destruct (Z.eq_dec z 0) as [->|Hz]; [simpl; nia|].
  assert (1 ≤ Zdigits2 z) by (destruct z; simpl; lia).
  destruct (dyadic_finite z e Hz HD) as (M & -> & HM & HV). simpl.
  rewrite HV.
  replace (- (e - (53 - Zdigits2 z))) with (- e + (53 - Zdigits2 z)) by lia.
  rewrite Z.pow_add_r by lia.
  assert (0 < 2 ^ (53 - Zdigits2 z)) by (apply Z.pow_pos_nonneg; lia).
  split_and!; [lia|nia..].
Qed.

Lemma round_half_even_between A B x :
  between A B x → A ≤ round_half_even x ≤ B.
Proof.
  destruct x as [| | |s m e]; simpl; try done.
  intros (He & HA & HB).
  set (z := cond_Zopp s (Z.pos m)) in *.
  destruct (Z.leb_spec 0 e) as [H0|H0].
  - assert (e = 0) as -> by lia. simpl in *. lia.
  - assert (0 < 2 ^ (- e)) as HP by (apply Z.pow_pos_nonneg; lia).
    unfold rhe_div. set (P := 2 ^ (- e)) in *.
    pose proof (Z.div_mod z P ltac:(lia)) as Hdm.
    pose proof (Z.mod_pos_bound z P HP) as Hmod.
    set (q := z / P) in *. set (r := z mod P) in *.
    assert (A ≤ q) by nia.
    assert (q ≤ B) by nia.
    assert (0 < r → q + 1 ≤ B) by nia.
    destruct (Z.compare_spec (2 * r) P); [|lia|];
      try destruct (Z.even q); lia.
Qed.

Lemma py_round_between A B x :
  between A B x → ∃ v, py_round x = Ok v ∧ A ≤ v ≤ B.
Proof.
  intros Hx. exists (round_half_even x). split.
  - by destruct x.
  - by apply round_half_even_between.
Qed.

(** The product of an integer and of a fraction between two integers. *)
Lemma mul_between d a b t :
  Zdigits2 d ≤ 53 → 0 ≤ a ≤ b → b * Z.abs d < 2 ^ 53 → between a b t →
  between (Z.min (a * d) (b * d)) (Z.max (a * d) (b * d)) (mul (dyadic d 0) t).
Proof.
  intros HD Hab Hbd Ht.
  destruct (Z.eq_dec d 0) as [->|Hd].
  { rewrite !Z.mul_0_r. destruct t; try done; simpl; lia. }
  assert (1 ≤ Zdigits2 d) by (destruct d; simpl; lia).
  destruct (dyadic_finite d 0 Hd HD) as (M & -> & HM & HV).
  set (k := 53 - Zdigits2 d) in *.
  assert (0 < 2 ^ k) as Hk by (apply Z.pow_pos_nonneg; lia).
  destruct t as [st| | |st mt et]; try done.
  { simpl in *. nia. }
  destruct Ht as (Het & Hta & Htb).
  assert (0 < 2 ^ (- et)) as Hpt by (apply Z.pow_pos_nonneg; lia).
  assert (st = false) as ->.
  { destruct st; [|done]. simpl in Hta. nia. }
  simpl in Hta, Htb.
  assert (Z.pos M = Z.abs d * 2 ^ k) as EM.
  { destruct (d <? 0) eqn:Es; simpl in HV; lia. }
  unfold mul, SFmul. fold_Z. rewrite xorb_false_r.
  pose proof (binary_round_aux_between (d <? 0) (Z.pos (M * mt)) (0 - k + et)
                loc_Exact (a * Z.abs d) (b * Z.abs d)) as Hr.
  replace (- (0 - k + et)) with (k + - et) in Hr by lia.
  rewrite Z.pow_add_r, Pos2Z.inj_mul in Hr by lia.
  specialize (Hr ltac:(lia) ltac:(lia) ltac:(nia) Hbd ltac:(nia) ltac:(nia)).
  rewrite Pos2Z.inj_mul.
  destruct (binary_round_aux prec emax (d <? 0) (Z.pos M * Z.pos mt) (0 - k + et)
              loc_Exact) as [| | |s' m' e']; try done.
  - simpl. nia.
  - destruct Hr as (-> & He' & HA' & HB').
    assert (0 < 2 ^ (- e')) by (apply Z.pow_pos_nonneg; lia).
    simpl. split; [done|].
    destruct (d <? 0) eqn:Es; simpl; nia.
Qed.

(** The sum of two doubles between integer bounds. *)
Lemma normalize_between z e A B :
  e ≤ 0 → - 2 ^ 53 < A → B < 2 ^ 53 →
  A * 2 ^ (- e) ≤ z ≤ B * 2 ^ (- e) →
  between A B (binary_normalize prec emax z e false).
Proof.
  intros He HA HB [Hl Hu].
  assert (0 < 2 ^ (- e)) as HP by (apply Z.pow_pos_nonneg; lia).
  assert (∀ s m, (s = false ∧ z = Z.pos m) ∨ (s = true ∧ z = Z.neg m) →
            between A B (binary_round prec emax s m e)) as Hround.
  { intros s m Hs. unfold binary_round.
    destruct (shl_align_value m e (fexp prec emax (Z.pos (digits2_pos m) + e)))
      as [Vm Ve].
    destruct (shl_align m e _) as [mz ez]. simpl in Vm, Ve.
    assert (ez ≤ e) by lia.
    assert (2 ^ (- ez) = 2 ^ (- e) * 2 ^ (e - ez)) as EP.
    { rewrite <- Z.pow_add_r by lia. f_equal. lia. }
    assert (0 < 2 ^ (e - ez)) as HQ by (apply Z.pow_pos_nonneg; lia).
    rewrite <- Ve in Vm.
    pose proof (binary_round_aux_between s (Z.pos mz) ez loc_Exact
                  (Z.max 0 (if s then - B else A)) (if s then - A else B)) as Hr.
    rewrite EP in Hr.
    destruct Hs as [[-> Hz]|[-> Hz]]; subst z.
    - specialize (Hr ltac:(lia) ltac:(lia) ltac:(lia) ltac:(lia)
                     ltac:(rewrite Vm; nia) ltac:(rewrite Vm; nia)).
      destruct (binary_round_aux _ _ _ _ _ _) as [| | |s' m' e']; try done.
      + simpl. nia.
      + destruct Hr as (-> & He' & HA' & HB'). simpl.
        assert (0 < 2 ^ (- e')) by (apply Z.pow_pos_nonneg; lia).
        split; [done|]. nia.
    - specialize (Hr ltac:(lia) ltac:(lia) ltac:(lia) ltac:(lia)
                     ltac:(rewrite Vm; nia) ltac:(rewrite Vm; nia)).
      destruct (binary_round_aux _ _ _ _ _ _) as [| | |s' m' e']; try done.
      + simpl. nia.
      + destruct Hr as (-> & He' & HA' & HB'). simpl.
        assert (0 < 2 ^ (- e')) by (apply Z.pow_pos_nonneg; lia).
        split; [done|]. nia. }
  destruct z as [|m|m]; simpl.
  - nia.
  - apply Hround. by left.
  - apply Hround. by right.
Qed.

Lemma add_between A1 B1 A2 B2 x y :
  between A1 B1 x → between A2 B2 y →
  - 2 ^ 53 < A1 + A2 → B1 + B2 < 2 ^ 53 →
  between (A1 + A2) (B1 + B2) (add x y).
Proof.
  intros Hx Hy HA HB.
  destruct x as [sx| | |sx mx ex], y as [sy| | |sy my ey]; try done.
  - simpl in *. destruct sx, sy; simpl; lia.
  - simpl in Hx. eapply between_weaken; [exact Hy|lia..].
  - simpl in Hy. eapply between_weaken; [exact Hx|lia..].
  - destruct Hx as (Hex & HxA & HxB), Hy as (Hey & HyA & HyB).
    unfold add, SFadd. fold_Z.
    set (ez := Z.min ex ey).
    destruct (shl_align_value mx ex ez) as [Vx _].
    destruct (shl_align_value my ey ez) as [Vy _].
    replace (Z.min ex ez) with ez in Vx by lia.
    replace (Z.min ey ez) with ez in Vy by lia.
    assert (2 ^ (- ez) = 2 ^ (- ex) * 2 ^ (ex - ez)) as EPx.
    { rewrite <- Z.pow_add_r by lia. f_equal. lia. }
    assert (2 ^ (- ez) = 2 ^ (- ey) * 2 ^ (ey - ez)) as EPy.
    { rewrite <- Z.pow_add_r by lia. f_equal. lia. }
    assert (0 < 2 ^ (ex - ez)) by (apply Z.pow_pos_nonneg; lia).
    assert (0 < 2 ^ (ey - ez)) by (apply Z.pow_pos_nonneg; lia).
    apply normalize_between; try lia.
    rewrite !Z.mul_add_distr_r.
    assert (A1 * 2 ^ (- ez) ≤ cond_Zopp sx (Z.pos (shl_align mx ex ez).1)
            ≤ B1 * 2 ^ (- ez)).
    { rewrite EPx, Vx. destruct sx; simpl in *; nia. }
    assert (A2 * 2 ^ (- ez) ≤ cond_Zopp sy (Z.pos (shl_align my ey ez).1)
            ≤ B2 * 2 ^ (- ez)).
    { rewrite EPy, Vy. destruct sy; simpl in *; nia. }
    lia.
Qed.

(** The quotient of two half-integers, the smaller over the larger. *)
Lemma div_between r n :
  0 ≤ r ≤ n → 0 < n → Zdigits2 n ≤ 53 →
  between 0 1 (div (dyadic r (-1)) (dyadic n (-1))).
Proof.
  intros Hr Hn HDn.
  assert (Zdigits2 r ≤ Zdigits2 n) as HDrn by (apply Zdigits2_mono; lia).
  destruct (dyadic_finite n (-1) ltac:(lia) HDn) as (My & Ey & HMy & HVy).
  replace (n <? 0) with false in * by lia. simpl in HVy.
  destruct (Z.eq_dec r 0) as [->|Hr0].
  { rewrite Ey. simpl. lia. }
  destruct (dyadic_finite r (-1) Hr0 ltac:(lia)) as (Mx & Ex & HMx & HVx).
  replace (r <? 0) with false in * by lia. simpl in HVx.
  assert (1 ≤ Zdigits2 r) by (destruct r; simpl; lia).
  rewrite Ex, Ey. unfold div, SFdiv, SFdiv_core_binary. fold_Z.
  change (Zdigits2 (Z.pos Mx)) with (Z.pos (digits2_pos Mx)).
  change (Zdigits2 (Z.pos My)) with (Z.pos (digits2_pos My)).
  rewrite HMx, HMy.
  set (kx := 53 - Zdigits2 r) in *. set (ky := 53 - Zdigits2 n) in *.
  rewrite fexp_eq by lia.
  replace (Z.min (53 + (-1 - kx) - (53 + (-1 - ky)) - 53) (-1 - kx - (-1 - ky)))
    with (ky - kx - 53) by lia.
  replace (-1 - kx - (-1 - ky) - (ky - kx - 53)) with 53 by lia.
  rewrite Z_div_eucl_div_mod, Z.shiftl_mul_pow2 by lia.
  set (m' := Z.pos Mx * 2 ^ 53).
  pose proof (Z.div_mod m' (Z.pos My) ltac:(lia)) as Hdm.
  pose proof (Z.mod_pos_bound m' (Z.pos My) ltac:(lia)) as Hmod.
  set (q := m' / Z.pos My) in *. set (rem := m' mod Z.pos My) in *.
  assert (0 < 2 ^ kx) by (apply Z.pow_pos_nonneg; lia).
  assert (0 < 2 ^ ky) by (apply Z.pow_pos_nonneg; lia).
  assert (2 ^ kx = 2 ^ ky * 2 ^ (kx - ky)) as Ek.
  { rewrite <- Z.pow_add_r by lia. f_equal. lia. }
  assert (0 < 2 ^ (kx - ky)) by (apply Z.pow_pos_nonneg; lia).
  assert (2 ^ (- (ky - kx - 53)) = 2 ^ (kx - ky) * 2 ^ 53) as EP.
  { rewrite <- Z.pow_add_r by lia. f_equal. lia. }
  assert (m' ≤ Z.pos My * 2 ^ (- (ky - kx - 53))) as Hle.
  { unfold m'. rewrite EP, HVx, HVy, Ek. nia. }
  assert (0 ≤ q) by (apply Z.div_pos; lia).
  assert ((if new_location (Z.pos My) rem is loc_Exact then 0 else 1)
          = (if Z.eqb rem 0 then 0 else 1)) as Eloc.
  { unfold new_location, new_location_even, new_location_odd. fold_Z.
    destruct (Z.even (Z.pos My)); by destruct (Z.eqb rem 0). }
  pose proof (binary_round_aux_between (xorb false false) q (ky - kx - 53)
                (new_location (Z.pos My) rem) 0 1) as Hres.
  rewrite Eloc in Hres.
  assert (0 < 2 ^ (- (ky - kx - 53))) by (apply Z.pow_pos_nonneg; lia).
  specialize (Hres ltac:(lia) ltac:(lia) ltac:(lia) ltac:(done) ltac:(lia)).
  destruct (Z.eqb_spec rem 0) as [E0|Hne].
  - specialize (Hres ltac:(nia)).
    destruct (binary_round_aux _ _ _ _ _ _) as [| | |s' m e]; try done.
    destruct Hres as (-> & ? & ? & ?). simpl. split_and!; lia.
  - specialize (Hres ltac:(nia)).
    destruct (binary_round_aux _ _ _ _ _ _) as [| | |s' m e]; try done.
    destruct Hres as (-> & ? & ? & ?). simpl. split_and!; lia.
Qed.

End FloatOrder.

(** * The range of the pixel *)

Section pixel_range.
Import Float FloatFacts FloatOrder.

Lemma fraction_between r_val g_val :
  0 ≤ r_val ≤ 255 → 0 ≤ g_val ≤ 255 → between 0 1 (fraction r_val g_val).
Proof.
  intros Hr Hg. unfold fraction. case_bool_decide as Hn; [|simpl; lia].
  apply div_between; [lia|lia|apply byte_digits; lia].
Qed.

Lemma lerp_sum_between c1 c2 t :
  in_byte c1 → in_byte c2 → between 0 1 t →
  between (Z.min c1 c2) (Z.max c1 c2)
    (add (dyadic c1 0) (mul (dyadic (c2 - c1) 0) t)).
Proof.
  unfold in_byte. intros H1 H2 Ht.
  assert (2 ^ 53 = 9007199254740992) as E53 by done.
  eapply between_weaken.
  - apply (add_between c1 c1 (Z.min 0 (c2 - c1)) (Z.max 0 (c2 - c1))).
    + apply between_dyadic; [apply byte_digits; lia|done|simpl; lia].
    + pose proof (mul_between (c2 - c1) 0 1 t) as Hm.
      rewrite !Z.mul_0_l, !Z.mul_1_l in Hm.
      apply Hm; [apply byte_digits; lia|lia|lia|done].
    + lia.
    + lia.
  - lia.
  - lia.
Qed.

Lemma lerp_channel_between c1 c2 t :
  in_byte c1 → in_byte c2 → between 0 1 t →
  ∃ v, lerp_channel c1 c2 t = Ok v ∧ between (Z.min c1 c2) (Z.max c1 c2) v.
Proof.
  intros H1 H2 Ht. pose proof (lerp_sum_between c1 c2 t H1 H2 Ht) as Hb.
  unfold in_byte in *. unfold lerp_channel.
  rewrite (of_int_small (c2 - c1)), bind_Ok by (apply byte_digits; lia).
  rewrite (of_int_small c1), bind_Ok by (apply byte_digits; lia).
  eexists. split; done.
Qed.

Lemma lerp_in_range c1 c2 t :
  in_byte c1 → in_byte c2 → between 0 1 t →
  Z.min c1 c2 ≤ Spec.lerp c1 c2 t ≤ Z.max c1 c2.
Proof.
  intros H1 H2 Ht. unfold Spec.lerp.
  unfold in_byte in *. rewrite !spec_float_small by lia.
  by apply round_half_even_between, lerp_sum_between.
Qed.

(** X1: For a factor between 0.0 and 1.0 [interpolate] raises nothing, and each
    channel of the colour it returns lies between the same channels of the
    two colours: the result is an 8-bit colour again. *)
Theorem interpolate_between t bc1 bc2 :
  between 0 1 t → valid_color bc1 → valid_color bc2 →
  ∃ c, interpolate t bc1 bc2 = Ok c
    ∧ Z.min bc1.1.1 bc2.1.1 ≤ c.1.1 ≤ Z.max bc1.1.1 bc2.1.1
    ∧ Z.min bc1.1.2 bc2.1.2 ≤ c.1.2 ≤ Z.max bc1.1.2 bc2.1.2
    ∧ Z.min bc1.2 bc2.2 ≤ c.2 ≤ Z.max bc1.2 bc2.2
    ∧ valid_color c.
Proof.
  intros Ht (Hr1 & Hg1 & Hb1) (Hr2 & Hg2 & Hb2). unfold interpolate.
  destruct (lerp_channel_between _ _ t Hr1 Hr2 Ht) as (r & -> & Br).
  destruct (lerp_channel_between _ _ t Hg1 Hg2 Ht) as (g & -> & Bg).
  destruct (lerp_channel_between _ _ t Hb1 Hb2 Ht) as (b & -> & Bb).
  destruct (py_round_between _ _ _ Br) as (r' & Er & ?).
  destruct (py_round_between _ _ _ Bg) as (g' & Eg & ?).
  destruct (py_round_between _ _ _ Bb) as (b' & Eb & ?).
  rewrite !bind_Ok, Er, bind_Ok, Eg, bind_Ok, Eb, bind_Ok.
  exists (r', g', b'). unfold valid_color, in_byte in *. simpl.
  split_and!; try done; lia.
Qed.

Lemma interpolate_between_witness :
  ∃ c, interpolate (S754_finite false 4503599627370496 (-53))
         (10, 20, 30) (200, 100, 50) = Ok c
    ∧ Z.min 10 200 ≤ c.1.1 ≤ Z.max 10 200
    ∧ Z.min 20 100 ≤ c.1.2 ≤ Z.max 20 100
    ∧ Z.min 30 50 ≤ c.2 ≤ Z.max 30 50
    ∧ valid_color c.
Proof.
  apply (interpolate_between (S754_finite false 4503599627370496 (-53))
           (10, 20, 30) (200, 100, 50));
    unfold valid_color, in_byte; simpl; lia.
Defined.

Lemma lerp_fraction_zero c1 c2 :
  in_byte c1 → in_byte c2 → Spec.lerp c1 c2 f_0_0 = c1.
Proof.
  unfold in_byte. intros H1 H2. unfold Spec.lerp.
  rewrite !spec_float_small by lia.
  assert (∃ s, mul (dyadic (c2 - c1) 0) f_0_0 = S754_zero s) as [s ->].
  { destruct (Z.eq_dec (c2 - c1) 0) as [->|Hne]; [by eexists|].
    destruct (dyadic_finite (c2 - c1) 0 Hne (byte_digits (c2 - c1) ltac:(lia)))
      as (M & -> & _). by eexists. }
  assert (add (dyadic c1 0) (S754_zero s) = dyadic c1 0) as ->.
  { destruct (Z.eq_dec c1 0) as [->|Hne]; [by destruct s|].
    destruct (dyadic_pos_finite c1 0 ltac:(lia) (byte_digits c1 ltac:(lia)))
      as (M & E & ->). done. }
  rewrite round_half_even_dyadic by (try apply byte_digits; lia).
  apply rhe_div_1.
Qed.

(** X2: At the factor 0.0 [interpolate] returns the first colour, at 1.0 the
    second, exactly. *)
Theorem interpolate_endpoints bc1 bc2 :
  valid_color bc1 → valid_color bc2 →
  interpolate f_0_0 bc1 bc2 = Ok bc1 ∧ interpolate f_1_0 bc1 bc2 = Ok bc2.
Proof.
  intros Hc1 Hc2. rewrite !interpolate_ok by (done || (simpl; lia)).
  destruct Hc1 as (? & ? & ?), Hc2 as (? & ? & ?).
  rewrite !lerp_fraction_zero, !lerp_fraction_one by done.
  by destruct bc1 as [[??]?], bc2 as [[??]?].
Qed.

Lemma interpolate_endpoints_witness :
  interpolate f_0_0 (10, 20, 30) (200, 100, 50) = Ok (10, 20, 30)
  ∧ interpolate f_1_0 (10, 20, 30) (200, 100, 50) = Ok (200, 100, 50).
Proof.
  apply (interpolate_endpoints (10, 20, 30) (200, 100, 50));
    unfold valid_color, in_byte; simpl; lia.
Defined.

Lemma composite_pixel_channels r_val g_val bc1 bc2 :
  0 ≤ r_val ≤ 255 → 0 ≤ g_val ≤ 255 → valid_color bc1 → valid_color bc2 →
  ∃ r g b a, composite_pixel r_val g_val bc1 bc2 = Ok (r, g, b, a)
    ∧ Z.min bc1.1.1 bc2.1.1 ≤ r ≤ Z.max bc1.1.1 bc2.1.1
    ∧ Z.min bc1.1.2 bc2.1.2 ≤ g ≤ Z.max bc1.1.2 bc2.1.2
    ∧ Z.min bc1.2 bc2.2 ≤ b ≤ Z.max bc1.2 bc2.2
    ∧ 0 ≤ a ≤ 255.
Proof.
  intros Hr Hg Hc1 Hc2. rewrite composite_pixel_value by done.
  pose proof (fraction_between r_val g_val Hr Hg) as Ht.
  pose proof Hc1 as (Hr1 & Hg1 & Hb1). pose proof Hc2 as (Hr2 & Hg2 & Hb2).
  pose proof (lerp_in_range _ _ _ Hr1 Hr2 Ht).
  pose proof (lerp_in_range _ _ _ Hg1 Hg2 Ht).
  pose proof (lerp_in_range _ _ _ Hb1 Hb2 Ht).
  pose proof (rhe_div_2_byte (255 - g_val + r_val) ltac:(lia)).
  eexists _, _, _, _. split; [done|]. split_and!; lia.
Qed.

Lemma composite_pixel_valid_rgba r_val g_val bc1 bc2 px :
  0 ≤ r_val ≤ 255 → 0 ≤ g_val ≤ 255 → valid_color bc1 → valid_color bc2 →
  composite_pixel r_val g_val bc1 bc2 = Ok px → valid_rgbab px = true.
Proof.
  intros Hr Hg Hc1 Hc2.
  destruct (composite_pixel_channels r_val g_val bc1 bc2)
    as (r & g & b & a & -> & ? & ? & ? & ?); try done.
  intros [= <-]. destruct Hc1 as (? & ? & ?), Hc2 as (? & ? & ?).
  unfold valid_rgbab, valid_colorb, byteb, in_byte in *. simpl.
  rewrite !bool_decide_eq_true_2 by lia. done.
Qed.

(** X4: Every pixel the scan composes from two 8-bit intensities and two 8-bit
    colours is an 8-bit RGBA pixel, and each of its colour channels lies
    between the same channels of the two background colours. *)
Theorem composite_pixel_in_range r_val g_val bc1 bc2 :
  0 ≤ r_val ≤ 255 → 0 ≤ g_val ≤ 255 → valid_color bc1 → valid_color bc2 →
  ∃ r g b a, composite_pixel r_val g_val bc1 bc2 = Ok (r, g, b, a)
    ∧ Z.min bc1.1.1 bc2.1.1 ≤ r ≤ Z.max bc1.1.1 bc2.1.1
    ∧ Z.min bc1.1.2 bc2.1.2 ≤ g ≤ Z.max bc1.1.2 bc2.1.2
    ∧ Z.min bc1.2 bc2.2 ≤ b ≤ Z.max bc1.2 bc2.2
    ∧ 0 ≤ a ≤ 255
    ∧ valid_rgbab (r, g, b, a) = true.
Proof.
  intros Hr Hg Hc1 Hc2.
  destruct (composite_pixel_channels r_val g_val bc1 bc2)
    as (r & g & b & a & E & ? & ? & ? & ?); try done.
  exists r, g, b, a. split_and!; try done; try lia.
  by apply (composite_pixel_valid_rgba r_val g_val bc1 bc2).
Qed.

Lemma composite_pixel_in_range_witness :
  ∃ r g b a, composite_pixel 100 200 (10, 20, 30) (200, 100, 50) = Ok (r, g, b, a)
    ∧ Z.min 10 200 ≤ r ≤ Z.max 10 200
    ∧ Z.min 20 100 ≤ g ≤ Z.max 20 100
    ∧ Z.min 30 50 ≤ b ≤ Z.max 30 50
    ∧ 0 ≤ a ≤ 255
    ∧ valid_rgbab (r, g, b, a) = true.
Proof.
  apply (composite_pixel_in_range 100 200 (10, 20, 30) (200, 100, 50));
    unfold valid_color, in_byte; simpl; lia.
Defined.

Lemma fraction_zero g_val : 0 ≤ g_val ≤ 255 → fraction 0 g_val = f_0_0.
Proof.
  intros Hg. unfold fraction. case_bool_decide as Hn; [|done].
  destruct (dyadic_pos_finite (255 - g_val + 0) (-1) Hn
              (byte_digits (255 - g_val + 0) ltac:(lia))) as (M & E & ->).
  done.
Qed.

(** The quotient of a double by itself is 1.0. *)
Lemma div_diag r : 0 < r → Zdigits2 r ≤ 53 →
  div (dyadic r (-1)) (dyadic r (-1)) = f_1_0.
Proof.
  intros Hr HD.
  destruct (dyadic_finite r (-1) ltac:(lia) HD) as (M & -> & HM & HV).
  replace (r <? 0) with false in * by lia.
  unfold div, SFdiv, SFdiv_core_binary. fold_Z.
  change (Zdigits2 (Z.pos M)) with (Z.pos (digits2_pos M)). rewrite HM.
  set (e := -1 - (53 - Zdigits2 r)).
  replace (53 + e - (53 + e)) with 0 by lia.
  replace (e - e) with 0 by lia.
  change (Z.min (fexp prec emax 0) 0) with (-53).
  change (0 - -53) with 53.
  rewrite Z_div_eucl_div_mod, Z.shiftl_mul_pow2 by lia.
  rewrite (Z.mul_comm (Z.pos M)), Z.div_mul, Z.mod_mul by lia.
  assert (new_location (Z.pos M) 0 = loc_Exact) as ->.
  { unfold new_location, new_location_even, new_location_odd. fold_Z.
    by destruct (Z.even (Z.pos M)). }
  vm_compute. reflexivity.
Qed.

Lemma fraction_one r_val : 0 < r_val ≤ 255 → fraction r_val 255 = f_1_0.
Proof.
  intros Hr. unfold fraction. rewrite bool_decide_eq_true_2 by lia.
  replace (255 - 255 + r_val) with r_val by lia.
  apply div_diag; [lia|apply byte_digits; lia].
Qed.

Lemma composite_pixel_zero_red g_val bc1 bc2 :
  0 ≤ g_val ≤ 255 → valid_color bc1 → valid_color bc2 →
  composite_pixel 0 g_val bc1 bc2 = Ok (bc1, rhe_div (255 - g_val) 2).
Proof.
  intros Hg Hc1 Hc2. rewrite composite_pixel_value by (done || lia).
  rewrite fraction_zero by done.
  destruct Hc1 as (? & ? & ?), Hc2 as (? & ? & ?).
  rewrite !lerp_fraction_zero by done.
  rewrite Z.add_0_r. by destruct bc1 as [[??]?].
Qed.

(** X5: Where the first image is black the pixel has the first background
    colour, whatever the second image and the second colour; its alpha is
    half the darkness of the second image. *)
Theorem composite_pixel_first_black g_val bc1 bc2 :
  0 ≤ g_val ≤ 255 → valid_color bc1 → valid_color bc2 →
  ∃ a, composite_pixel 0 g_val bc1 bc2 = Ok (bc1, a)
       ∧ a = rhe_div (255 - g_val) 2 ∧ (255 - g_val) / 2 ≤ a ≤ (255 - g_val + 1) / 2.
Proof.
  intros Hg Hc1 Hc2. eexists. split; [by apply composite_pixel_zero_red|].
  split; [done|]. unfold rhe_div.
  pose proof (Z.div_mod (255 - g_val) 2 ltac:(done)).
  pose proof (Z.mod_pos_bound (255 - g_val) 2 ltac:(done)).
  assert ((255 - g_val + 1) / 2 = (255 - g_val) / 2 + (255 - g_val) mod 2) as ->.
  { Z.div_mod_to_equations. lia. }
  destruct (Z.compare_spec (2 * ((255 - g_val) mod 2)) 2);
    try destruct (Z.even _); lia.
Qed.

Lemma composite_pixel_first_black_witness :
  ∃ a, composite_pixel 0 100 (10, 20, 30) (200, 100, 50) = Ok ((10, 20, 30), a)
       ∧ a = rhe_div (255 - 100) 2 ∧ (255 - 100) / 2 ≤ a ≤ (255 - 100 + 1) / 2.
Proof.
  apply (composite_pixel_first_black 100 (10, 20, 30) (200, 100, 50));
    unfold valid_color, in_byte; simpl; lia.
Defined.

(** X6: Where the second image is white and the first is not black the pixel
    has the second background colour; its alpha is half the intensity of the
    first image. *)
Theorem composite_pixel_second_white r_val bc1 bc2 :
  0 < r_val ≤ 255 → valid_color bc1 → valid_color bc2 →
  composite_pixel r_val 255 bc1 bc2 = Ok (bc2, rhe_div r_val 2).
Proof.
  intros Hr Hc1 Hc2. rewrite composite_pixel_value by (done || lia).
  rewrite fraction_one by done.
  destruct Hc1 as (? & ? & ?), Hc2 as (? & ? & ?).
  rewrite !lerp_fraction_one by done.
  replace (255 - 255 + r_val) with r_val by lia.
  by destruct bc2 as [[??]?].
Qed.

Lemma composite_pixel_second_white_witness :
  composite_pixel 100 255 (10, 20, 30) (200, 100, 50)
  = Ok ((200, 100, 50), rhe_div 100 2).
Proof.
  apply (composite_pixel_second_white 100 (10, 20, 30) (200, 100, 50));
    unfold valid_color, in_byte; simpl; lia.
Defined.

Lemma rhe_div_2_mono a b : a ≤ b → rhe_div a 2 ≤ rhe_div b 2.
Proof.
  intros Hab. destruct (Z.eq_dec a b) as [->|Hne]; [done|].
  unfold rhe_div.
  pose proof (Z.div_mod a 2 ltac:(done)). pose proof (Z.mod_pos_bound a 2 ltac:(done)).
  pose proof (Z.div_mod b 2 ltac:(done)). pose proof (Z.mod_pos_bound b 2 ltac:(done)).
  destruct (Z.compare_spec (2 * (a mod 2)) 2), (Z.compare_spec (2 * (b mod 2)) 2);
    try destruct (Z.even (a / 2)); try destruct (Z.even (b / 2)); lia.
Qed.

(** X7: The alpha grows with the first image and falls with the second, and
    does not depend on the colours. *)
Theorem alpha_monotone r_val g_val r_val' g_val' bc1 bc2 bc1' bc2' px px' :
  0 ≤ r_val → r_val ≤ r_val' → r_val' ≤ 255 →
  0 ≤ g_val' → g_val' ≤ g_val → g_val ≤ 255 →
  valid_color bc1 → valid_color bc2 → valid_color bc1' → valid_color bc2' →
  composite_pixel r_val g_val bc1 bc2 = Ok px →
  composite_pixel r_val' g_val' bc1' bc2' = Ok px' →
  alpha_of px ≤ alpha_of px'.
Proof.
  intros ? ? ? ? ? ? Hc1 Hc2 Hc1' Hc2'.
  rewrite !composite_pixel_value by (done || lia).
  intros [= <-] [= <-]. unfold alpha_of. simpl.
  apply rhe_div_2_mono. lia.
Qed.

Lemma alpha_monotone_witness :
  alpha_of (10, 20, 30, 78) ≤ alpha_of (117, 65, 41, 178).
Proof.
  apply (alpha_monotone 0 100 200 100 (10, 20, 30) (200, 100, 50)
           (10, 20, 30) (200, 100, 50));
    unfold valid_color, in_byte; simpl; try lia; vm_compute; reflexivity.
Defined.

(** X8: The pixel is fully opaque exactly where the first image is white and
    the second black, and fully transparent exactly where the second image
    exceeds the first by 254 or more. *)
Theorem alpha_extremes r_val g_val bc1 bc2 px :
  0 ≤ r_val ≤ 255 → 0 ≤ g_val ≤ 255 → valid_color bc1 → valid_color bc2 →
  composite_pixel r_val g_val bc1 bc2 = Ok px →
  (alpha_of px = 255 ↔ r_val = 255 ∧ g_val = 0)
  ∧ (alpha_of px = 0 ↔ 254 ≤ g_val - r_val).
Proof.
  intros Hr Hg Hc1 Hc2. rewrite composite_pixel_value by done.
  intros [= <-]. unfold alpha_of. simpl.
  set (n := 255 - g_val + r_val).
  assert (0 ≤ n ≤ 510) as Hn by lia.
  assert ((rhe_div n 2 = 255 ↔ n = 510) ∧ (rhe_div n 2 = 0 ↔ n ≤ 1)); [|lia].
  clearbody n. unfold rhe_div.
  pose proof (Z.div_mod n 2 ltac:(done)) as Hdm.
  pose proof (Z.mod_pos_bound n 2 ltac:(done)) as Hmod.
  destruct (Z.compare_spec (2 * (n mod 2)) 2) as [E|E|E]; [|lia..].
  destruct (Z.even (n / 2)) eqn:Ev; [lia|].
  assert (n / 2 ≠ 254) by (intros E'; by rewrite E' in Ev).
  assert (n / 2 ≠ 0) by (intros E'; by rewrite E' in Ev).
  lia.
Qed.

Lemma alpha_extremes_witness :
  (alpha_of (105, 60, 40, 255) = 255 ↔ 255 = 255 ∧ 0 = 0)
  ∧ (alpha_of (105, 60, 40, 255) = 0 ↔ 254 ≤ 0 - 255).
Proof.
  apply (alpha_extremes 255 0 (10, 20, 30) (200, 100, 50));
    unfold valid_color, in_byte; simpl; try lia; vm_compute; reflexivity.
Defined.

Lemma lerp_channel_value c1 c2 t :
  in_byte c1 → in_byte c2 →
  lerp_channel c1 c2 t = Ok (add (dyadic c1 0) (mul (dyadic (c2 - c1) 0) t)).
Proof.
  unfold in_byte. intros H1 H2. unfold lerp_channel.
  rewrite (of_int_small (c2 - c1)), bind_Ok by (apply byte_digits; lia).
  by rewrite (of_int_small c1), bind_Ok by (apply byte_digits; lia).
Qed.

Lemma dyadic_cases z e :
  Zdigits2 z ≤ 53 →
  (z = 0 ∧ dyadic z e = S754_zero false)
  ∨ (z ≠ 0 ∧ ∃ M E, dyadic z e = S754_finite (z <? 0) M E).
Proof.
  intros HD. destruct (Z.eq_dec z 0) as [->|Hz]; [by left|right].
  split; [done|]. destruct (dyadic_finite z e Hz HD) as (M & -> & _). eauto.
Qed.

Lemma lerp_nan c1 c2 :
  in_byte c1 → in_byte c2 →
  add (dyadic c1 0) (mul (dyadic (c2 - c1) 0) S754_nan) = S754_nan.
Proof.
  unfold in_byte. intros H1 H2.
  destruct (dyadic_cases (c2 - c1) 0 (byte_digits (c2 - c1) ltac:(lia)))
    as [[_ ->]|(_ & M & E & ->)];
    destruct (dyadic_cases c1 0 (byte_digits c1 ltac:(lia)))
      as [[_ ->]|(_ & M' & E' & ->)]; done.
Qed.

Lemma lerp_infinity c1 c2 s :
  in_byte c1 → in_byte c2 →
  add (dyadic c1 0) (mul (dyadic (c2 - c1) 0) (S754_infinity s))
  = if bool_decide (c1 = c2) then S754_nan
    else S754_infinity (xorb (c2 - c1 <? 0) s).
Proof.
  unfold in_byte. intros H1 H2.
  destruct (dyadic_cases (c2 - c1) 0 (byte_digits (c2 - c1) ltac:(lia)))
    as [[E0 ->]|(Hne & M & E & ->)].
  - rewrite bool_decide_eq_true_2 by lia.
    by destruct (dyadic_cases c1 0 (byte_digits c1 ltac:(lia)))
      as [[_ ->]|(_ & M' & E' & ->)].
  - rewrite bool_decide_eq_false_2 by lia.
    by destruct (dyadic_cases c1 0 (byte_digits c1 ltac:(lia)))
      as [[_ ->]|(_ & M' & E' & ->)].
Qed.

(** X3: Outside the finite factors [interpolate] raises: [ValueError] for a
    NaN; for an infinity [OverflowError], or [ValueError] when the two
    colours have the same red channel, whose product with the infinity is a
    NaN. *)
Theorem interpolate_not_finite bc1 bc2 :
  valid_color bc1 → valid_color bc2 →
  interpolate S754_nan bc1 bc2 = Raise ValueError
  ∧ ∀ s, interpolate (S754_infinity s) bc1 bc2
         = Raise (if bool_decide (bc1.1.1 = bc2.1.1) then ValueError
                  else OverflowError).
Proof.
  intros (Hr1 & Hg1 & Hb1) (Hr2 & Hg2 & Hb2). split.
  - unfold interpolate. rewrite !lerp_channel_value, !bind_Ok by done.
    by rewrite !lerp_nan by done.
  - intros s. unfold interpolate. rewrite !lerp_channel_value, !bind_Ok by done.
    rewrite (lerp_infinity bc1.1.1) by done. by case_bool_decide.
Qed.

Lemma interpolate_not_finite_witness :
  interpolate S754_nan (10, 20, 30) (10, 100, 50) = Raise ValueError
  ∧ ∀ s, interpolate (S754_infinity s) (10, 20, 30) (10, 100, 50)
         = Raise (if bool_decide (10 = 10) then ValueError else OverflowError).
Proof.
  apply (interpolate_not_finite (10, 20, 30) (10, 100, 50));
    unfold valid_color, in_byte; simpl; lia.
Defined.

End pixel_range.

(** * From the prepared images to the bordered image *)

Section pipeline.
Import Float FloatFacts.

Lemma all_pixels_intro {A} (P : A → bool) (im : image A) :
  wf_image im = true →
  (∀ x y v, getpixel im x y = Some v → P v = true) →
  all_pixels P im = true.
Proof.
  intros (Hw & Hh & Hlen & Hrows)%wf_image_spec Hpix.
  unfold all_pixels. apply Is_true_true, forallb_True, Forall_lookup.
  intros i row Hrow. apply forallb_True, Forall_lookup. intros j v Hv.
  apply Is_true_true, (Hpix (Z.of_nat j) (Z.of_nat i)).
  pose proof (lookup_lt_Some _ _ _ Hrow). pose proof (lookup_lt_Some _ _ _ Hv).
  pose proof (Forall_lookup_1 _ _ _ _ Hrows Hrow) as Hl. simpl in Hl.
  unfold getpixel, in_boundsb. rewrite !bool_decide_eq_true_2 by lia. simpl.
  rewrite !Nat2Z.id, Hrow. simpl. done.
Qed.

Lemma valid_gray_intro (im : image Z) :
  wf_image im = true →
  (∀ x y v, getpixel im x y = Some v → 0 ≤ v ≤ 255) →
  width im < size_limit → height im < size_limit →
  valid_gray im = true.
Proof.
  intros Hwf Hpix Hw Hh. unfold valid_gray.
  rewrite Hwf, all_pixels_intro, !bool_decide_eq_true_2; try done.
  intros x y v Hv. apply bool_decide_eq_true. eauto.
Qed.

Lemma paste_gray_valid (img : image Z) W H fill offset :
  valid_gray img = true → 0 ≤ W < size_limit → 0 ≤ H < size_limit →
  0 ≤ fill ≤ 255 →
  valid_gray (paste (Image_new W H fill) img offset) = true.
Proof.
  intros (Hwf & Hb & _)%valid_gray_spec HW HH Hfill.
  apply valid_gray_intro; try (simpl; lia).
  - apply wf_imap, wf_new; lia.
  - intros x y v. rewrite getpixel_paste, getpixel_new.
    case_bool_decide; [|done]. simpl. intros [= <-].
    destruct (getpixel img _ _) as [v|] eqn:Ev; simpl; eauto.
Qed.

Lemma canvas_layers_valid img1 img2 :
  valid_gray img1 = true → valid_gray img2 = true →
  ∃ base1 base2,
    canvas_layers img1 img2 = Ok (base1, base2)
    ∧ valid_gray base1 = true ∧ valid_gray base2 = true
    ∧ width base1 = Z.max (width img1) (width img2)
    ∧ height base1 = Z.max (height img1) (height img2)
    ∧ width base2 = Z.max (width img1) (width img2)
    ∧ height base2 = Z.max (height img1) (height img2).
Proof.
  intros Hv1 Hv2.
  pose proof Hv1 as (Hwf1 & _ & Hw1 & Hh1)%valid_gray_spec.
  pose proof Hv2 as (Hwf2 & _ & Hw2 & Hh2)%valid_gray_spec.
  pose proof Hwf1 as (? & ? & _)%wf_image_spec.
  pose proof Hwf2 as (? & ? & _)%wf_image_spec.
  unfold canvas_layers.
  rewrite !center_offset_value by lia. rewrite !bind_Ok.
  eexists _, _. split; [done|].
  split_and!; try done; apply paste_gray_valid; try done; lia.
Qed.

Lemma canvas_layers_explicit img1 img2 :
  valid_gray img1 = true → valid_gray img2 = true →
  canvas_layers img1 img2
  = Ok (paste (Image_new (Z.max (width img1) (width img2))
                 (Z.max (height img1) (height img2)) 0) img1
          (Spec.center_offset (Z.max (width img1) (width img2)) (width img1),
           Spec.center_offset (Z.max (height img1) (height img2)) (height img1)),
        paste (Image_new (Z.max (width img1) (width img2))
                 (Z.max (height img1) (height img2)) 255) img2
          (Spec.center_offset (Z.max (width img1) (width img2)) (width img2),
           Spec.center_offset (Z.max (height img1) (height img2)) (height img2))).
Proof.
  intros (Hwf1 & _ & Hw1 & Hh1)%valid_gray_spec
    (Hwf2 & _ & Hw2 & Hh2)%valid_gray_spec.
  pose proof Hwf1 as (? & ? & _)%wf_image_spec.
  pose proof Hwf2 as (? & ? & _)%wf_image_spec.
  unfold canvas_layers.
  rewrite !center_offset_value by lia. by rewrite !bind_Ok.
Qed.

(** X9: Two prepared images of one size are their own layers: nothing is
    moved and no fill is left. *)
Theorem canvas_layers_same_size img1 img2 :
  valid_gray img1 = true → valid_gray img2 = true →
  width img1 = width img2 → height img1 = height img2 →
  canvas_layers img1 img2 = Ok (img1, img2).
Proof.
  intros (Hwf1 & _ & Hw1 & Hh1)%valid_gray_spec
    (Hwf2 & _ & Hw2 & Hh2)%valid_gray_spec HW HH.
  pose proof Hwf1 as (? & ? & _)%wf_image_spec.
  unfold canvas_layers.
  rewrite !center_offset_value by lia. rewrite !bind_Ok.
  assert (Z.max (width img1) (width img2) = width img1) as EW by lia.
  assert (Z.max (height img1) (height img2) = height img1) as EH by lia.
  rewrite EW, EH. cbn [mret result_ret]. f_equal. f_equal.
  - unfold Spec.center_offset. rewrite !Z.sub_diag.
    change (rhe_div 0 2) with 0. by apply paste_covers.
  - rewrite HW, HH. unfold Spec.center_offset. rewrite !Z.sub_diag.
    change (rhe_div 0 2) with 0. by apply paste_covers.
Qed.

Lemma canvas_layers_same_size_witness :
  canvas_layers (Image 2 1 [[0; 255]]) (Image 2 1 [[255; 7]])
  = Ok (Image 2 1 [[0; 255]], Image 2 1 [[255; 7]]).
Proof.
  apply (canvas_layers_same_size (Image 2 1 [[0; 255]]) (Image 2 1 [[255; 7]]));
    reflexivity.
Defined.

Lemma composite_layers_valid base1 base2 bc1 bc2 :
  valid_gray base1 = true → valid_gray base2 = true →
  width base1 = width base2 → height base1 = height base2 →
  valid_color bc1 → valid_color bc2 →
  ∃ res, composite_layers base1 base2 bc1 bc2 = Ok res
    ∧ wf_image res = true
    ∧ width res = width base1 ∧ height res = height base1
    ∧ ∀ x y px, getpixel res x y = Some px → valid_rgbab px = true.
Proof.
  intros Hv1 Hv2 HW HH Hc1 Hc2.
  destruct (composite_layers_spec base1 base2 bc1 bc2)
    as (res & Hres & Hwf & Hw & Hh & Hpix); try done.
  exists res. split_and!; try done.
  intros x y px Hpx.
  destruct (Hpix x y (getpixel_in_bounds _ _ _ _ Hpx))
    as (r & g & px' & Hr & Hg & Hpx' & Hget).
  assert (px' = px) as -> by congruence.
  apply valid_gray_spec in Hv1 as (_ & Hb1 & _).
  apply valid_gray_spec in Hv2 as (_ & Hb2 & _).
  eapply composite_pixel_valid_rgba; [..|exact Hpx']; eauto.
Qed.

(** X10: From two prepared images and two 8-bit colours, the canvas, the scan
    and the border raise nothing; the image handed to [save] is well formed,
    two pixels larger than the larger width and the larger height, and each
    of its pixels is four 8-bit values. *)
Theorem composed_image_valid img1 img2 bc1 bc2 :
  valid_gray img1 = true → valid_gray img2 = true →
  valid_color bc1 → valid_color bc2 →
  ∃ base1 base2 res,
    canvas_layers img1 img2 = Ok (base1, base2)
    ∧ composite_layers base1 base2 bc1 bc2 = Ok res
    ∧ wf_image (add_border res) = true
    ∧ width (add_border res) = Z.max (width img1) (width img2) + 2
    ∧ height (add_border res) = Z.max (height img1) (height img2) + 2
    ∧ all_pixels valid_rgbab (add_border res) = true.
Proof.
  intros Hv1 Hv2 Hc1 Hc2.
  destruct (canvas_layers_valid img1 img2 Hv1 Hv2)
    as (base1 & base2 & Hcanvas & Hb1 & Hb2 & W1 & H1 & W2 & H2).
  destruct (composite_layers_valid base1 base2 bc1 bc2)
    as (res & Hres & Hwf & Hw & Hh & Hpix); try done; try congruence.
  pose proof Hwf as (? & ? & _)%wf_image_spec.
  assert (wf_image (add_border res) = true) as Hwfb.
  { apply wf_imap, wf_new; lia. }
  exists base1, base2, res. split_and!; try done.
  - simpl. lia.
  - simpl. lia.
  - apply all_pixels_intro; [done|]. intros x y px.
    unfold add_border. rewrite getpixel_paste, getpixel_new.
    case_bool_decide; [|done]. simpl. intros [= <-].
    destruct (getpixel res _ _) as [px|] eqn:Epx; simpl; eauto.
Qed.

Lemma composed_image_valid_witness :
  ∃ base1 base2 res,
    canvas_layers (Image 1 1 [[7]]) (Image 2 1 [[255; 0]]) = Ok (base1, base2)
    ∧ composite_layers base1 base2 (10, 20, 30) (200, 100, 50) = Ok res
    ∧ wf_image (add_border res) = true
    ∧ width (add_border res) = Z.max 1 2 + 2
    ∧ height (add_border res) = Z.max 1 1 + 2
    ∧ all_pixels valid_rgbab (add_border res) = true.
Proof.
  apply (composed_image_valid (Image 1 1 [[7]]) (Image 2 1 [[255; 0]])
           (10, 20, 30) (200, 100, 50));
    try reflexivity; unfold valid_color, in_byte; simpl; lia.
Defined.

(** X11: Around the first image, where the canvas keeps its black fill, every
    pixel has the first background colour; where the canvas of the second
    image keeps its white fill as well, the pixel is fully transparent. *)
Theorem padding_has_first_color img1 img2 bc1 bc2 :
  valid_gray img1 = true → valid_gray img2 = true →
  valid_color bc1 → valid_color bc2 →
  ∃ base1 base2 res,
    canvas_layers img1 img2 = Ok (base1, base2)
    ∧ composite_layers base1 base2 bc1 bc2 = Ok res
    ∧ ∀ x y, in_bounds res x y →
        getpixel img1
          (x - Spec.center_offset (Z.max (width img1) (width img2)) (width img1))
          (y - Spec.center_offset (Z.max (height img1) (height img2)) (height img1))
        = None →
        ∃ px, getpixel res x y = Some px ∧ rgb_of px = bc1
          ∧ (getpixel img2
               (x - Spec.center_offset (Z.max (width img1) (width img2)) (width img2))
               (y - Spec.center_offset (Z.max (height img1) (height img2)) (height img2))
             = None → alpha_of px = 0).
Proof.
  intros Hv1 Hv2 Hc1 Hc2.
  destruct (canvas_layers_valid img1 img2 Hv1 Hv2)
    as (base1 & base2 & Hcanvas & Hb1 & Hb2 & W1 & H1 & W2 & H2).
  pose proof (canvas_layers_explicit img1 img2 Hv1 Hv2) as Hex.
  rewrite Hcanvas in Hex. injection Hex as E1 E2.
  destruct (composite_layers_spec base1 base2 bc1 bc2)
    as (res & Hres & Hwf & Hw & Hh & Hpix); try done; try congruence.
  exists base1, base2, res. split_and!; try done.
  intros x y Hin Hout1.
  destruct (Hpix x y Hin) as (r & g & px & Hr & Hg & Hpx & Hget).
  pose proof Hin as [Hx Hy]. rewrite Hw, W1 in Hx. rewrite Hh, H1 in Hy.
  apply valid_gray_spec in Hb2 as (_ & Hbyte2 & _).
  pose proof (Hbyte2 _ _ _ Hg) as Hgb.
  rewrite E1, getpixel_paste, getpixel_new, bool_decide_eq_true_2 in Hr by done.
  cbn [fst snd] in Hr. rewrite Hout1 in Hr. injection Hr as <-.
  rewrite composite_pixel_zero_red in Hpx by done. injection Hpx as <-.
  eexists. split_and!; try done.
  intros Hout2.
  rewrite E2, getpixel_paste, getpixel_new, bool_decide_eq_true_2 in Hg by done.
  cbn [fst snd] in Hg. rewrite Hout2 in Hg. injection Hg as <-. done.
Qed.

Lemma padding_has_first_color_witness :
  ∃ base1 base2 res,
    canvas_layers (Image 1 2 [[7]; [9]]) (Image 3 1 [[255; 0; 100]])
    = Ok (base1, base2)
    ∧ composite_layers base1 base2 (10, 20, 30) (200, 100, 50) = Ok res
    ∧ ∀ x y, in_bounds res x y →
        getpixel (Image 1 2 [[7]; [9]])
          (x - Spec.center_offset (Z.max 1 3) 1)
          (y - Spec.center_offset (Z.max 2 1) 2)
        = None →
        ∃ px, getpixel res x y = Some px ∧ rgb_of px = (10, 20, 30)
          ∧ (getpixel (Image 3 1 [[255; 0; 100]])
               (x - Spec.center_offset (Z.max 1 3) 3)
               (y - Spec.center_offset (Z.max 2 1) 1)
             = None → alpha_of px = 0).
Proof.
  apply (padding_has_first_color (Image 1 2 [[7]; [9]]) (Image 3 1 [[255; 0; 100]])
           (10, 20, 30) (200, 100, 50));
    try reflexivity; unfold valid_color, in_byte; simpl; lia.
Defined.

End pipeline.

(** * The prepared image *)

Section prepared.

Lemma blend_byte m out src :
  0 ≤ m ≤ 255 → 0 ≤ out ≤ 255 → 0 ≤ src ≤ 255 → 0 ≤ blend m out src ≤ 255.
Proof.
  intros Hm Ho Hs. unfold blend.
  rewrite !Z.shiftr_div_pow2 by done. change (2 ^ 8) with 256.
  set (tmp := out * (255 - m) + src * m + 128).
  assert (128 ≤ tmp ≤ 65153) by (unfold tmp; nia).
  clearbody tmp. Z.div_mod_to_equations. lia.
Qed.

Lemma blend_opaque out src : 0 ≤ src ≤ 255 → blend 255 out src = src.
Proof.
  intros Hs. unfold blend.
  rewrite !Z.shiftr_div_pow2 by done. change (2 ^ 8) with 256.
  replace (out * (255 - 255) + src * 255 + 128) with (src * 255 + 128) by lia.
  Z.div_mod_to_equations. lia.
Qed.

Lemma blend_transparent out src : 0 ≤ out ≤ 255 → blend 0 out src = out.
Proof.
  intros Ho. unfold blend.
  rewrite !Z.shiftr_div_pow2 by done. change (2 ^ 8) with 256.
  replace (out * (255 - 0) + src * 0 + 128) with (out * 255 + 128) by lia.
  Z.div_mod_to_equations. lia.
Qed.

Lemma luma_byte c : valid_color c → 0 ≤ luma c ≤ 255.
Proof.
  intros (Hr & Hg & Hb). unfold in_byte in *. unfold luma.
  rewrite Z.shiftr_div_pow2 by done. change (2 ^ 16) with 65536.
  Z.div_mod_to_equations. lia.
Qed.

Lemma luma_gray v : 0 ≤ v ≤ 255 → luma (gray v) = v.
Proof.
  intros Hv. unfold luma, gray. simpl.
  rewrite Z.shiftr_div_pow2 by done. change (2 ^ 16) with 65536.
  Z.div_mod_to_equations. lia.
Qed.

Lemma valid_colorb_intro c : valid_color c → valid_colorb c = true.
Proof.
  unfold valid_colorb, valid_color, in_byte. intros (? & ? & ?).
  by rewrite !bool_decide_eq_true_2.
Qed.

Lemma blend_color_valid a out src :
  0 ≤ a ≤ 255 → valid_color out → valid_color src →
  valid_color (blend_color a out src).
Proof.
  intros Ha (? & ? & ?) (? & ? & ?). unfold blend_color.
  split_and!; simpl; by apply blend_byte.
Qed.

Lemma valid_image_spec {A} (P : A → bool) (im : image A) :
  valid_image P im = true →
  wf_image im = true
  ∧ (∀ x y v, getpixel im x y = Some v → P v = true)
  ∧ width im < size_limit ∧ height im < size_limit.
Proof.
  unfold valid_image. rewrite !andb_true_iff, !bool_decide_eq_true.
  intros [[[Hwf Hall] Hw] Hh]. split_and!; try done.
  intros x y v Hv. exact (all_pixels_getpixel _ _ _ _ _ Hall Hv).
Qed.

(** The colours read from a decoded file are 8-bit colours. *)
Lemma to_rgb_valid src :
  valid_source src = true →
  wf_image (to_rgb src) = true
  ∧ (∀ x y c, getpixel (to_rgb src) x y = Some c → valid_color c)
  ∧ width (to_rgb src) < size_limit ∧ height (to_rgb src) < size_limit.
Proof.
  destruct src as [im|im|im|palette im|im|im]; simpl.
  - intros (Hwf & Hpix & ? & ?)%valid_image_spec.
    split_and!; try done; [by apply wf_map|].
    intros x y c. rewrite getpixel_map. intros ([] & _ & ->)%fmap_Some;
      unfold valid_color, in_byte; simpl; lia.
  - intros (Hwf & Hpix & ? & ?)%valid_image_spec.
    split_and!; try done; [by apply wf_map|].
    intros x y c. rewrite getpixel_map. intros (v & Hv & ->)%fmap_Some.
    apply Hpix, bool_decide_eq_true in Hv.
    unfold valid_color, in_byte; simpl; lia.
  - intros (Hwf & Hpix & ? & ?)%valid_image_spec.
    split_and!; try done; [by apply wf_map|].
    intros x y c. rewrite getpixel_map. intros (v & Hv & ->)%fmap_Some.
    apply Hpix, andb_true_iff in Hv as [Hv%bool_decide_eq_true _].
    unfold valid_color, in_byte; simpl; lia.
  - intros [(Hwf & Hpix & ? & ?)%valid_image_spec Hpal]%andb_true_iff.
    split_and!; try done; [by apply wf_map|].
    intros x y c. rewrite getpixel_map. intros (v & Hv & ->)%fmap_Some.
    destruct (palette !! Z.to_nat v) as [c|] eqn:Ec; simpl.
    + apply valid_colorb_spec.
      apply Is_true_true, forallb_True in Hpal.
      apply Is_true_true. exact (Forall_lookup_1 _ _ _ _ Hpal Ec).
    + unfold valid_color, in_byte; simpl; lia.
  - intros (Hwf & Hpix & ? & ?)%valid_image_spec.
    split_and!; try done.
    intros x y c Hc. by apply valid_colorb_spec, (Hpix x y).
  - intros (Hwf & Hpix & ? & ?)%valid_image_spec.
    split_and!; try done; [by apply wf_map|].
    intros x y c. rewrite getpixel_map. intros (v & Hv & ->)%fmap_Some.
    apply Hpix, andb_true_iff in Hv as [Hv _].
    by apply valid_colorb_spec.
Qed.

Lemma mask_of_valid src alpha :
  valid_source src = true → mask_of src = Ok (MaskL alpha) →
  ∀ x y a, getpixel alpha x y = Some a → 0 ≤ a ≤ 255.
Proof.
  destruct src as [im|im|im|palette im|im|im]; simpl; try done.
  - intros (Hwf & Hpix & ? & ?)%valid_image_spec [= <-] x y a Ha.
    by apply Hpix, bool_decide_eq_true in Ha.
  - intros (Hwf & Hpix & ? & ?)%valid_image_spec [= <-] x y a.
    rewrite getpixel_map. intros (v & Hv & ->)%fmap_Some.
    by apply Hpix, andb_true_iff in Hv as [_ Hv%bool_decide_eq_true].
  - intros (Hwf & Hpix & ? & ?)%valid_image_spec [= <-] x y a.
    rewrite getpixel_map. intros (v & Hv & ->)%fmap_Some.
    by apply Hpix, andb_true_iff in Hv as [_ Hv%bool_decide_eq_true].
Qed.

Lemma white_valid : valid_color white.
Proof. unfold valid_color, in_byte, white. simpl. lia. Qed.

Lemma flatten_valid src :
  valid_source src = true →
  wf_image (flatten_onto_white src) = true
  ∧ width (flatten_onto_white src) = width (to_rgb src)
  ∧ height (flatten_onto_white src) = height (to_rgb src)
  ∧ ∀ x y c, getpixel (flatten_onto_white src) x y = Some c → valid_color c.
Proof.
  intros Hsrc.
  destruct (to_rgb_valid src Hsrc) as (Hwf & Hpix & Hw & Hh).
  pose proof Hwf as (? & ? & _)%wf_image_spec.
  pose proof white_valid as Hwhite.
  unfold flatten_onto_white. cbn [fst snd].
  destruct (mask_of src) as [[bits|alpha]|e] eqn:Em.
  - split_and!; try done; [by apply wf_imap, wf_new|].
    intros x y c. simpl. rewrite getpixel_imap, getpixel_new.
    case_bool_decide; [|done]. simpl. intros [= <-].
    destruct (getpixel (to_rgb src) x y) as [s|] eqn:Es; [|done].
    destruct (getpixel bits x y) as [[]|]; eauto.
  - split_and!; try done; [by apply wf_imap, wf_new|].
    intros x y c. simpl. rewrite getpixel_imap, getpixel_new.
    case_bool_decide; [|done]. simpl. intros [= <-].
    destruct (getpixel (to_rgb src) x y) as [s|] eqn:Es; [|done].
    destruct (getpixel alpha x y) as [a|] eqn:Ea; [|done].
    apply blend_color_valid; eauto using mask_of_valid.
  - split_and!; try done; [by apply wf_imap, wf_new|].
    intros x y c. rewrite getpixel_paste, getpixel_new.
    case_bool_decide; [|done]. simpl. intros [= <-].
    destruct (getpixel (to_rgb src) _ _) as [s|] eqn:Es; simpl; eauto.
Qed.

(** X12: Whatever the mode of the file, the image handed to the thumbnail is an
    8-bit grayscale image of the size of the file. *)
Theorem prepared_image_valid src :
  valid_source src = true →
  valid_gray (convert_L (flatten_onto_white src)) = true
  ∧ width (convert_L (flatten_onto_white src)) = width (to_rgb src)
  ∧ height (convert_L (flatten_onto_white src)) = height (to_rgb src).
Proof.
  intros Hsrc.
  destruct (to_rgb_valid src Hsrc) as (_ & _ & Hw & Hh).
  destruct (flatten_valid src Hsrc) as (Hwf & EW & EH & Hpix).
  split_and!; try done.
  apply valid_gray_intro.
  - by apply wf_map.
  - intros x y v. unfold convert_L. rewrite getpixel_map.
    intros (c & Hc & ->)%fmap_Some. apply luma_byte. eauto.
  - simpl. by rewrite EW.
  - simpl. by rewrite EH.
Qed.

Lemma prepared_image_valid_witness :
  valid_gray (convert_L (flatten_onto_white
     (ModeRGBA (Image 2 1 [[(10, 20, 30, 255); (200, 100, 50, 7)]])))) = true
  ∧ width (convert_L (flatten_onto_white
     (ModeRGBA (Image 2 1 [[(10, 20, 30, 255); (200, 100, 50, 7)]]))))
    = width (to_rgb (ModeRGBA (Image 2 1 [[(10, 20, 30, 255); (200, 100, 50, 7)]])))
  ∧ height (convert_L (flatten_onto_white
     (ModeRGBA (Image 2 1 [[(10, 20, 30, 255); (200, 100, 50, 7)]]))))
    = height (to_rgb (ModeRGBA (Image 2 1 [[(10, 20, 30, 255); (200, 100, 50, 7)]]))).
Proof.
  apply (prepared_image_valid
           (ModeRGBA (Image 2 1 [[(10, 20, 30, 255); (200, 100, 50, 7)]]))).
  reflexivity.
Defined.

(** X13: A pixel of a file with an alpha channel is blended with white by its
    alpha before it is made gray: a fully opaque pixel keeps its colour, a
    fully transparent one becomes white whatever its colour. *)
Theorem prepared_rgba_pixel (im : image rgba) x y (c : color) (a : Z) :
  valid_source (ModeRGBA im) = true → getpixel im x y = Some (c, a) →
  getpixel (convert_L (flatten_onto_white (ModeRGBA im))) x y
  = Some (luma (blend_color a white c))
  ∧ (a = 255 →
     getpixel (convert_L (flatten_onto_white (ModeRGBA im))) x y = Some (luma c))
  ∧ (a = 0 →
     getpixel (convert_L (flatten_onto_white (ModeRGBA im))) x y = Some 255).
Proof.
  intros Hsrc Hget.
  pose proof Hsrc as (Hwf & Hpix & _)%valid_image_spec.
  pose proof (getpixel_in_bounds _ _ _ _ Hget) as [Hx Hy].
  pose proof (Hpix _ _ _ Hget) as [Hc%valid_colorb_spec _]%andb_true_iff.
  destruct Hc as (Hr & Hg & Hb). unfold in_byte in *. simpl in Hr, Hg, Hb.
  assert (getpixel (convert_L (flatten_onto_white (ModeRGBA im))) x y
          = Some (luma (blend_color a white c))) as E.
  { unfold convert_L, flatten_onto_white. cbn [mask_of to_rgb paste_masked fst snd].
    rewrite getpixel_map, getpixel_imap, getpixel_new. simpl.
    rewrite bool_decide_eq_true_2 by done. simpl.
    rewrite !getpixel_map, Hget. done. }
  rewrite E. split_and!; try done.
  - intros ->. unfold blend_color. by rewrite !blend_opaque, <- !surjective_pairing.
  - intros ->. unfold blend_color, white. simpl.
    by rewrite !blend_transparent.
Qed.

Lemma prepared_rgba_pixel_witness :
  getpixel (convert_L (flatten_onto_white
     (ModeRGBA (Image 2 1 [[(10, 20, 30, 255); (200, 100, 50, 0)]])))) 1 0
  = Some (luma (blend_color 0 white (200, 100, 50)))
  ∧ (0 = 255 →
     getpixel (convert_L (flatten_onto_white
       (ModeRGBA (Image 2 1 [[(10, 20, 30, 255); (200, 100, 50, 0)]])))) 1 0
     = Some (luma (200, 100, 50)))
  ∧ (0 = 0 →
     getpixel (convert_L (flatten_onto_white
       (ModeRGBA (Image 2 1 [[(10, 20, 30, 255); (200, 100, 50, 0)]])))) 1 0
     = Some 255).
Proof.
  apply (prepared_rgba_pixel (Image 2 1 [[(10, 20, 30, 255); (200, 100, 50, 0)]]));
    reflexivity.
Defined.

(** X14: A file in a mode that cannot serve as a mask (RGB, or P with its
    palette) is used as it is: each pixel becomes the luma of its colour,
    and a gray pixel keeps its value. *)
Theorem prepared_unmasked_pixel (src : source_image) x y (c : color) :
  wf_image (to_rgb src) = true → (∃ e, mask_of src = Raise e) →
  getpixel (to_rgb src) x y = Some c →
  getpixel (convert_L (flatten_onto_white src)) x y = Some (luma c)
  ∧ (∀ v, 0 ≤ v ≤ 255 → c = (v, v, v) →
       getpixel (convert_L (flatten_onto_white src)) x y = Some v).
Proof.
  intros Hwf Hmask Hget.
  assert (getpixel (convert_L (flatten_onto_white src)) x y = Some (luma c)) as E.
  { rewrite flatten_refused_mask_as_is by done. unfold convert_L.
    by rewrite getpixel_map, Hget. }
  split; [done|]. intros v Hv ->. rewrite E. f_equal. by apply (luma_gray v).
Qed.

Lemma prepared_unmasked_pixel_witness :
  getpixel (convert_L (flatten_onto_white
     (ModeRGB (Image 2 1 [[(10, 20, 30); (77, 77, 77)]])))) 1 0
  = Some (luma (77, 77, 77))
  ∧ (∀ v, 0 ≤ v ≤ 255 → (77, 77, 77) = (v, v, v) →
       getpixel (convert_L (flatten_onto_white
         (ModeRGB (Image 2 1 [[(10, 20, 30); (77, 77, 77)]])))) 1 0 = Some v).
Proof.
  apply (prepared_unmasked_pixel (ModeRGB (Image 2 1 [[(10, 20, 30); (77, 77, 77)]])));
    [reflexivity|by exists ValueError|reflexivity].
Defined.

Lemma blend_self_white v :
  0 ≤ v ≤ 255 → v ≤ blend v 255 v ∧ 191 ≤ blend v 255 v ≤ 255.
Proof.
  intros Hv. unfold blend.
  rewrite !Z.shiftr_div_pow2 by done. change (2 ^ 8) with 256.
  set (tmp := 255 * (255 - v) + v * v + 128).
  assert (0 ≤ (v - 127) * (v - 128)).
  { destruct (Z.le_gt_cases v 127);
      [apply Z.mul_nonpos_nonpos|apply Z.mul_nonneg_nonneg]; lia. }
  assert (0 ≤ (255 - v) * (255 - v)) by (apply Z.mul_nonneg_nonneg; lia).
  assert (48897 ≤ tmp ≤ 65153 ∧ 255 * v + 128 ≤ tmp) as [? ?]
    by (unfold tmp; nia).
  clearbody tmp. Z.div_mod_to_equations. lia.
Qed.

(** X15: A grayscale file (mode L) serves as its own mask: the pixel of
    intensity [v] is blended with white by [v], so the prepared image is
    never darker than the file and none of its pixels is below 191. *)
Theorem prepared_gray_lightened (im : image Z) x y v :
  valid_source (ModeL im) = true → getpixel im x y = Some v →
  getpixel (convert_L (flatten_onto_white (ModeL im))) x y
  = Some (blend v 255 v)
  ∧ v ≤ blend v 255 v ∧ 191 ≤ blend v 255 v ≤ 255.
Proof.
  intros Hsrc Hget.
  pose proof Hsrc as (Hwf & Hpix & _)%valid_image_spec.
  pose proof (getpixel_in_bounds _ _ _ _ Hget) as [Hx Hy].
  pose proof (Hpix _ _ _ Hget) as Hv%bool_decide_eq_true.
  pose proof (blend_self_white v Hv) as Hb.
  split; [|done].
  unfold convert_L, flatten_onto_white. cbn [mask_of to_rgb paste_masked fst snd].
  rewrite getpixel_map, getpixel_imap, getpixel_new. simpl.
  rewrite bool_decide_eq_true_2 by done. simpl.
  rewrite !getpixel_map, Hget. simpl. f_equal.
  apply (luma_gray (blend v 255 v)). lia.
Qed.

Lemma prepared_gray_lightened_witness :
  getpixel (convert_L (flatten_onto_white (ModeL (Image 2 1 [[0; 128]])))) 1 0
  = Some (blend 128 255 128)
  ∧ 128 ≤ blend 128 255 128 ∧ 191 ≤ blend 128 255 128 ≤ 255.
Proof.
  apply (prepared_gray_lightened (Image 2 1 [[0; 128]])); reflexivity.
Defined.

(** X16: A bilevel file (mode 1) serves as its own mask as well: white is
    copied where the file is white and the white background is kept where
    it is black, so the prepared image is white everywhere. *)
Theorem prepared_bilevel_white (im : image bool) x y :
  wf_image im = true → in_bounds im x y →
  getpixel (convert_L (flatten_onto_white (Mode1 im))) x y = Some 255.
Proof.
  intros Hwf Hin. destruct (getpixel_is_Some im x y Hwf Hin) as [b Hget].
  destruct Hin as [Hx Hy].
  unfold convert_L, flatten_onto_white. cbn [mask_of to_rgb paste_masked fst snd].
  rewrite getpixel_map, getpixel_imap, getpixel_new. simpl.
  rewrite bool_decide_eq_true_2 by done. simpl.
  rewrite !getpixel_map, Hget. by destruct b.
Qed.

Lemma prepared_bilevel_white_witness :
  getpixel (convert_L (flatten_onto_white
     (Mode1 (Image 2 1 [[false; true]])))) 0 0 = Some 255.
Proof.
  apply (prepared_bilevel_white (Image 2 1 [[false; true]]));
    [reflexivity|unfold in_bounds; simpl; lia].
Defined.

End prepared.

(** * The whole program *)

Section program.

Lemma composite_layers_unfold base1 base2 bc1 bc2 res W H :
  width base1 = W → height base1 = H →
  composite_layers base1 base2 bc1 bc2 = Ok res →
  ∃ merged,
    Image_merge base1 base2 (Image_new W H 0) = Ok merged
    ∧ pixel_scan merged bc1 bc2 W H (Image_new W H (0, 0, 0, 0)) = Ok res.
Proof.
  intros <- <-. unfold composite_layers.
  destruct (Image_merge _ _ _) as [merged|e]; [|done].
  rewrite bind_Ok. eauto.
Qed.

(** With both files opened and prepared and both colours read, the run
    reaches the save with the bordered image. *)
Lemma run_to_save w args src1 src2 img1 img2 bc1 bc2 base1 base2 res :
  Image_open w (image1 args) = Ok src1 →
  Image_thumbnail w (size args) (convert_L (flatten_onto_white src1)) = Ok img1 →
  Image_open w (image2 args) = Ok src2 →
  Image_thumbnail w (size args) (convert_L (flatten_onto_white src2)) = Ok img2 →
  ImageColor_getrgb w (color1 args) = Some bc1 →
  ImageColor_getrgb w (color2 args) = Some bc2 →
  canvas_layers img1 img2 = Ok (base1, base2) →
  width base1 = Z.max (width img1) (width img2) →
  height base1 = Z.max (height img1) (height img2) →
  composite_layers base1 base2 bc1 bc2 = Ok res →
  run w args
  = try_except
      (lift (Image_save w (add_border res) (output args));;
       print (MsgSuccess (output args)))
      (λ e, print (MsgSaveError e))
      [MsgStart; MsgLoading1 (image1 args); MsgLoading2 (image2 args);
       MsgBackground1 bc1; MsgBackground2 bc2;
       MsgCanvas (Z.max (width img1) (width img2))
         (Z.max (height img1) (height img2));
       MsgMerging; MsgScan; MsgComplete; MsgBorder; MsgSaving].
Proof.
  intros H1 T1 H2 T2 Hc1 Hc2 Hcanvas HW HH Hres.
  destruct (composite_layers_unfold _ _ _ _ _ _ _ HW HH Hres)
    as (merged & Hmerge & Hscan).
  unfold run, main, composite_images.
  unfold mbind at 1 2 3 4 5 6 7 8 9 10 11 12 13 14 15 16, prog_bind, print.
  rewrite (load_and_prepare_image_opened _ _ _ _ _ _ H1 T1).
  rewrite (load_and_prepare_image_opened _ _ _ _ _ _ H2 T2).
  rewrite (hex_to_rgb_valid _ _ _ _ Hc1), (hex_to_rgb_valid _ _ _ _ Hc2).
  unfold lift at 1. rewrite Hcanvas.
  unfold lift at 1. rewrite Hmerge.
  unfold lift at 1. rewrite Hscan. done.
Qed.

(** X17: With two files that open, prepared images of 8-bit values and two
    colour strings that read as 8-bit colours, nothing between the loading
    and the save can fail: the run prints its eleven progress lines, hands
    the bordered image to [save], and ends with exit status 0, its last
    line telling whether the file was written. *)
Theorem run_success w args src1 src2 img1 img2 bc1 bc2 :
  Image_open w (image1 args) = Ok src1 →
  Image_thumbnail w (size args) (convert_L (flatten_onto_white src1)) = Ok img1 →
  Image_open w (image2 args) = Ok src2 →
  Image_thumbnail w (size args) (convert_L (flatten_onto_white src2)) = Ok img2 →
  valid_gray img1 = true → valid_gray img2 = true →
  ImageColor_getrgb w (color1 args) = Some bc1 →
  ImageColor_getrgb w (color2 args) = Some bc2 →
  valid_color bc1 → valid_color bc2 →
  ∃ base1 base2 res,
    canvas_layers img1 img2 = Ok (base1, base2)
    ∧ composite_layers base1 base2 bc1 bc2 = Ok res
    ∧ (Image_save w (add_border res) (output args) = Ok () →
       run w args
       = (Ok (),
          [MsgStart; MsgLoading1 (image1 args); MsgLoading2 (image2 args);
           MsgBackground1 bc1; MsgBackground2 bc2;
           MsgCanvas (Z.max (width img1) (width img2))
             (Z.max (height img1) (height img2));
           MsgMerging; MsgScan; MsgComplete; MsgBorder; MsgSaving;
           MsgSuccess (output args)]))
    ∧ (∀ e, Image_save w (add_border res) (output args) = Raise e →
         is_Exception e = true →
         run w args
         = (Ok (),
            [MsgStart; MsgLoading1 (image1 args); MsgLoading2 (image2 args);
             MsgBackground1 bc1; MsgBackground2 bc2;
             MsgCanvas (Z.max (width img1) (width img2))
               (Z.max (height img1) (height img2));
             MsgMerging; MsgScan; MsgComplete; MsgBorder; MsgSaving;
             MsgSaveError e])).
Proof.
  intros H1 T1 H2 T2 Hv1 Hv2 Hc1 Hc2 Hb1 Hb2.
  destruct (canvas_layers_valid img1 img2 Hv1 Hv2)
    as (base1 & base2 & Hcanvas & Hg1 & Hg2 & W1 & HH1 & W2 & HH2).
  destruct (composite_layers_valid base1 base2 bc1 bc2)
    as (res & Hres & _); try done; try congruence.
  exists base1, base2, res. split_and!; try done.
  - intros Hsave.
    rewrite (run_to_save w args src1 src2 img1 img2 bc1 bc2 base1 base2 res)
      by done.
    unfold try_except, mbind, prog_bind, lift, print. by rewrite Hsave.
  - intros e Hsave He.
    rewrite (run_to_save w args src1 src2 img1 img2 bc1 bc2 base1 base2 res)
      by done.
    by rewrite (try_save_exit_code _ _ _ _ _ Hsave He).
Qed.

Lemma run_success_witness :
  ∃ base1 base2 res,
    canvas_layers (Image 1 1 [[255]]) (Image 2 1 [[18; 255]]) = Ok (base1, base2)
    ∧ composite_layers base1 base2 (0, 0, 0) (255, 255, 255) = Ok res
    ∧ (Image_save sample_world (add_border res) "out.png" = Ok () →
       run sample_world (sample_arguments "a.png" "out.png" "#000")
       = (Ok (),
          [MsgStart; MsgLoading1 "a.png"; MsgLoading2 "b.png";
           MsgBackground1 (0, 0, 0); MsgBackground2 (255, 255, 255);
           MsgCanvas (Z.max 1 2) (Z.max 1 1);
           MsgMerging; MsgScan; MsgComplete; MsgBorder; MsgSaving;
           MsgSuccess "out.png"]))
    ∧ (∀ e, Image_save sample_world (add_border res) "out.png" = Raise e →
         is_Exception e = true →
         run sample_world (sample_arguments "a.png" "out.png" "#000")
         = (Ok (),
            [MsgStart; MsgLoading1 "a.png"; MsgLoading2 "b.png";
             MsgBackground1 (0, 0, 0); MsgBackground2 (255, 255, 255);
             MsgCanvas (Z.max 1 2) (Z.max 1 1);
             MsgMerging; MsgScan; MsgComplete; MsgBorder; MsgSaving;
             MsgSaveError e])).
Proof.
  apply (run_success sample_world (sample_arguments "a.png" "out.png" "#000")
           (ModeL (Image 1 1 [[0]]))
           (ModeRGB (Image 2 1 [[(10, 20, 30); (255, 255, 255)]]))
           (Image 1 1 [[255]]) (Image 2 1 [[18; 255]])
           (0, 0, 0) (255, 255, 255));
    try reflexivity; unfold valid_color, in_byte; simpl; lia.
Defined.

Lemma reported_save_error_exits_zero_witness :
  exit_code (run sample_world (sample_arguments "a.png" "out.xyz" "#000")).1 = 0.
Proof.
  apply (reported_save_error_exits_zero sample_world
           (sample_arguments "a.png" "out.xyz" "#000")
           (OtherError "unknown file extension")).
  vm_compute. do 11 apply list_elem_of_further. apply list_elem_of_here.
Defined.

(** X19: A file that cannot be opened ends the program with exit status 1 and
    one diagnostic line, before anything else is done: the first file
    before the second is looked at, the second before the colours are
    read. *)
Theorem open_failure_exits_one w args e :
  is_Exception e = true →
  (Image_open w (image1 args) = Raise e →
   run w args
   = (Raise (SystemExit 1),
      [MsgStart; MsgLoading1 (image1 args); open_error_line (image1 args) e]))
  ∧ (∀ src1 img1,
       Image_open w (image1 args) = Ok src1 →
       Image_thumbnail w (size args) (convert_L (flatten_onto_white src1))
       = Ok img1 →
       Image_open w (image2 args) = Raise e →
       run w args
       = (Raise (SystemExit 1),
          [MsgStart; MsgLoading1 (image1 args); MsgLoading2 (image2 args);
           open_error_line (image2 args) e])).
Proof.
  intros He.
  assert (∀ path out, Image_open w path = Raise e →
            load_and_prepare_image w path (size args) out
            = (Raise (SystemExit 1), out ++ [open_error_line path e])) as Hload.
  { intros path out Hopen.
    unfold load_and_prepare_image, mbind, prog_bind, print, sys_exit, lift.
    rewrite Hopen. by destruct e. }
  split.
  - intros Hopen. unfold run, main, composite_images.
    unfold mbind at 1 2 3, prog_bind, print.
    by rewrite (Hload _ _ Hopen).
  - intros src1 img1 H1 T1 Hopen. unfold run, main, composite_images.
    unfold mbind at 1 2 3 4 5, prog_bind, print.
    rewrite (load_and_prepare_image_opened _ _ _ _ _ _ H1 T1).
    by rewrite (Hload _ _ Hopen).
Qed.

Lemma open_failure_exits_one_witness :
  run sample_world (sample_arguments "missing.png" "out.png" "#000")
  = (Raise (SystemExit 1),
     [MsgStart; MsgLoading1 "missing.png"; MsgNotFound "missing.png"]).
Proof.
  apply (proj1 (open_failure_exits_one sample_world
                  (sample_arguments "missing.png" "out.png" "#000")
                  FileNotFoundError eq_refl)).
  reflexivity.
Defined.

(** X20: An exception of the thumbnail is not handled: it ends the program as
    it is, after the loading line and without a diagnostic of the
    program's own. *)
Theorem thumbnail_error_propagates w args src1 e :
  Image_open w (image1 args) = Ok src1 →
  Image_thumbnail w (size args) (convert_L (flatten_onto_white src1)) = Raise e →
  run w args = (Raise e, [MsgStart; MsgLoading1 (image1 args)]).
Proof.
  intros H1 T1. unfold run, main, composite_images.
  unfold mbind at 1 2 3, prog_bind, print.
  unfold load_and_prepare_image, mbind, prog_bind, lift.
  rewrite H1. simpl. by rewrite T1.
Qed.

Lemma thumbnail_error_propagates_witness :
  run {| Image_open := Image_open sample_world;
         Image_thumbnail := λ _ _, Raise ValueError;
         getrgb_other := getrgb_other sample_world;
         Image_save := Image_save sample_world |}
      (sample_arguments "a.png" "out.png" "#000")
  = (Raise ValueError, [MsgStart; MsgLoading1 "a.png"]).
Proof.
  apply (thumbnail_error_propagates _ (sample_arguments "a.png" "out.png" "#000")
           (ModeL (Image 1 1 [[0]])));
    reflexivity.
Defined.

End program.

(** * Two runs on the same inputs *)

Section two_runs.

Lemma canvas_layers_inj img1 img2 base1 base2 :
  valid_gray img1 = true → valid_gray img2 = true →
  canvas_layers img1 img2 = Ok (base1, base2) →
  valid_gray base1 = true ∧ valid_gray base2 = true
  ∧ width base1 = width base2 ∧ height base1 = height base2.
Proof.
  intros Hv1 Hv2 Hcanvas.
  destruct (canvas_layers_valid img1 img2 Hv1 Hv2)
    as (b1 & b2 & Hc & Hb1 & Hb2 & W1 & H1 & W2 & H2).
  rewrite Hcanvas in Hc. injection Hc as <- <-.
  split_and!; try done; congruence.
Qed.

(** C8: two runs on the same inputs give the same output. Let two worlds
    decode the two files to the same images, resize them to the same
    prepared images and read the two colour strings as the same colours,
    whatever else differs between them. Then both runs print the same
    eleven lines and hand the same bordered image, under the same path, to
    [save]; if the encoder answers alike, the two runs are equal, exit
    status and printed lines. The file written is the encoder's, a function
    of that image and that path. Every pixel of the image is
    [composite_pixel] of the two intensities at its place, those of the two
    centred inputs, and of the two colours; it depends on nothing else:
    for any other inputs and any other place with the same two intensities
    the pixel is the same. *)
Theorem pipeline_deterministic w w' args src1 src2 img1 img2 bc1 bc2 :
  Image_open w (image1 args) = Ok src1 →
  Image_open w' (image1 args) = Ok src1 →
  Image_thumbnail w (size args) (convert_L (flatten_onto_white src1)) = Ok img1 →
  Image_thumbnail w' (size args) (convert_L (flatten_onto_white src1)) = Ok img1 →
  Image_open w (image2 args) = Ok src2 →
  Image_open w' (image2 args) = Ok src2 →
  Image_thumbnail w (size args) (convert_L (flatten_onto_white src2)) = Ok img2 →
  Image_thumbnail w' (size args) (convert_L (flatten_onto_white src2)) = Ok img2 →
  ImageColor_getrgb w (color1 args) = Some bc1 →
  ImageColor_getrgb w' (color1 args) = Some bc1 →
  ImageColor_getrgb w (color2 args) = Some bc2 →
  ImageColor_getrgb w' (color2 args) = Some bc2 →
  valid_gray img1 = true → valid_gray img2 = true →
  valid_color bc1 → valid_color bc2 →
  ∃ base1 base2 res,
    canvas_layers img1 img2 = Ok (base1, base2)
    ∧ composite_layers base1 base2 bc1 bc2 = Ok res
    ∧ run w args
      = save_step w (add_border res) (output args)
          [MsgStart; MsgLoading1 (image1 args); MsgLoading2 (image2 args);
           MsgBackground1 bc1; MsgBackground2 bc2;
           MsgCanvas (Z.max (width img1) (width img2))
             (Z.max (height img1) (height img2));
           MsgMerging; MsgScan; MsgComplete; MsgBorder; MsgSaving]
    ∧ run w' args
      = save_step w' (add_border res) (output args)
          [MsgStart; MsgLoading1 (image1 args); MsgLoading2 (image2 args);
           MsgBackground1 bc1; MsgBackground2 bc2;
           MsgCanvas (Z.max (width img1) (width img2))
             (Z.max (height img1) (height img2));
           MsgMerging; MsgScan; MsgComplete; MsgBorder; MsgSaving]
    ∧ (Image_save w (add_border res) (output args)
       = Image_save w' (add_border res) (output args) →
       run w args = run w' args)
    ∧ (∀ x y, in_bounds res x y →
         ∃ r_val g_val px,
           getpixel base1 x y = Some r_val ∧ getpixel base2 x y = Some g_val
           ∧ r_val
             = default 0
                 (getpixel img1
                    (x - Spec.center_offset (width res) (width img1))
                    (y - Spec.center_offset (height res) (height img1)))
           ∧ g_val
             = default 255
                 (getpixel img2
                    (x - Spec.center_offset (width res) (width img2))
                    (y - Spec.center_offset (height res) (height img2)))
           ∧ composite_pixel r_val g_val bc1 bc2 = Ok px
           ∧ getpixel res x y = Some px
           ∧ getpixel (add_border res) (x + 1) (y + 1) = Some px)
    ∧ (∀ img1' img2' base1' base2' res' x y x' y',
         valid_gray img1' = true → valid_gray img2' = true →
         canvas_layers img1' img2' = Ok (base1', base2') →
         composite_layers base1' base2' bc1 bc2 = Ok res' →
         in_bounds res x y → in_bounds res' x' y' →
         getpixel base1' x' y' = getpixel base1 x y →
         getpixel base2' x' y' = getpixel base2 x y →
         getpixel res' x' y' = getpixel res x y).
Proof.
  intros H1 H1' T1 T1' H2 H2' T2 T2' Hc1 Hc1' Hc2 Hc2' Hv1 Hv2 Hb1 Hb2.
  destruct (canvas_layers_valid img1 img2 Hv1 Hv2)
    as (base1 & base2 & Hcanvas & Hg1 & Hg2 & W1 & HH1 & W2 & HH2).
  pose proof (canvas_layers_explicit img1 img2 Hv1 Hv2) as Hex.
  rewrite Hcanvas in Hex. injection Hex as E1 E2.
  destruct (composite_layers_spec base1 base2 bc1 bc2)
    as (res & Hres & Hwf & Hw & Hh & Hpix); try done; try congruence.
  pose proof (run_to_save w args src1 src2 img1 img2 bc1 bc2 base1 base2 res
                H1 T1 H2 T2 Hc1 Hc2 Hcanvas W1 HH1 Hres) as Hrun.
  pose proof (run_to_save w' args src1 src2 img1 img2 bc1 bc2 base1 base2 res
                H1' T1' H2' T2' Hc1' Hc2' Hcanvas W1 HH1 Hres) as Hrun'.
  exists base1, base2, res. split_and!; try done.
  - intros Hsave. rewrite Hrun, Hrun'.
    unfold try_except, mbind, prog_bind, lift. by rewrite Hsave.
  - intros x y Hin.
    destruct (Hpix x y Hin) as (r & g & px & Hr & Hg & Hpx & Hget).
    pose proof Hin as [Hx Hy]. rewrite Hw, W1 in Hx. rewrite Hh, HH1 in Hy.
    exists r, g, px. rewrite Hw, Hh, W1, HH1. split_and!; try done.
    + rewrite E1, getpixel_paste, getpixel_new, bool_decide_eq_true_2 in Hr
        by done. by injection Hr.
    + rewrite E2, getpixel_paste, getpixel_new, bool_decide_eq_true_2 in Hg
        by done. by injection Hg.
    + by rewrite add_border_interior.
  - intros img1' img2' base1' base2' res' x y x' y' Hv1' Hv2' Hcanvas' Hres'
      Hin Hin' Eq1 Eq2.
    destruct (canvas_layers_inj _ _ _ _ Hv1' Hv2' Hcanvas')
      as (Hg1' & Hg2' & EW & EH).
    destruct (composite_layers_spec base1' base2' bc1 bc2)
      as (res'' & Hres'' & _ & _ & _ & Hpix'); try done.
    rewrite Hres' in Hres''. injection Hres'' as <-.
    destruct (Hpix x y Hin) as (r & g & px & Hr & Hg & Hpx & ->).
    destruct (Hpix' x' y' Hin') as (r' & g' & px' & Hr' & Hg' & Hpx' & ->).
    congruence.
Qed.

Lemma pipeline_deterministic_witness :
  ∃ base1 base2 res,
    canvas_layers (Image 1 1 [[255]]) (Image 2 1 [[18; 255]]) = Ok (base1, base2)
    ∧ composite_layers base1 base2 (0, 0, 0) (255, 255, 255) = Ok res
    ∧ run sample_world (sample_arguments "a.png" "out.png" "#000")
      = save_step sample_world (add_border res) "out.png"
          [MsgStart; MsgLoading1 "a.png"; MsgLoading2 "b.png";
           MsgBackground1 (0, 0, 0); MsgBackground2 (255, 255, 255);
           MsgCanvas (Z.max 1 2) (Z.max 1 1);
           MsgMerging; MsgScan; MsgComplete; MsgBorder; MsgSaving]
    ∧ run sample_world_2 (sample_arguments "a.png" "out.png" "#000")
      = save_step sample_world_2 (add_border res) "out.png"
          [MsgStart; MsgLoading1 "a.png"; MsgLoading2 "b.png";
           MsgBackground1 (0, 0, 0); MsgBackground2 (255, 255, 255);
           MsgCanvas (Z.max 1 2) (Z.max 1 1);
           MsgMerging; MsgScan; MsgComplete; MsgBorder; MsgSaving]
    ∧ (Image_save sample_world (add_border res) "out.png"
       = Image_save sample_world_2 (add_border res) "out.png" →
       run sample_world (sample_arguments "a.png" "out.png" "#000")
       = run sample_world_2 (sample_arguments "a.png" "out.png" "#000"))
    ∧ (∀ x y, in_bounds res x y →
         ∃ r_val g_val px,
           getpixel base1 x y = Some r_val ∧ getpixel base2 x y = Some g_val
           ∧ r_val
             = default 0
                 (getpixel (Image 1 1 [[255]])
                    (x - Spec.center_offset (width res) 1)
                    (y - Spec.center_offset (height res) 1))
           ∧ g_val
             = default 255
                 (getpixel (Image 2 1 [[18; 255]])
                    (x - Spec.center_offset (width res) 2)
                    (y - Spec.center_offset (height res) 1))
           ∧ composite_pixel r_val g_val (0, 0, 0) (255, 255, 255) = Ok px
           ∧ getpixel res x y = Some px
           ∧ getpixel (add_border res) (x + 1) (y + 1) = Some px)
    ∧ (∀ img1' img2' base1' base2' res' x y x' y',
         valid_gray img1' = true → valid_gray img2' = true →
         canvas_layers img1' img2' = Ok (base1', base2') →
         composite_layers base1' base2' (0, 0, 0) (255, 255, 255) = Ok res' →
         in_bounds res x y → in_bounds res' x' y' →
         getpixel base1' x' y' = getpixel base1 x y →
         getpixel base2' x' y' = getpixel base2 x y →
         getpixel res' x' y' = getpixel res x y).
Proof.
  apply (pipeline_deterministic sample_world sample_world_2
           (sample_arguments "a.png" "out.png" "#000")
           (ModeL (Image 1 1 [[0]]))
           (ModeRGB (Image 2 1 [[(10, 20, 30); (255, 255, 255)]]))
           (Image 1 1 [[255]]) (Image 2 1 [[18; 255]])
           (0, 0, 0) (255, 255, 255));
    try reflexivity; unfold valid_color, in_byte; simpl; lia.
Defined.

End two_runs.
